(** * Hixa: lexer, parser and tree-walking evaluator

    A shallow embedding of [src/hixa/lexer.py], [src/hixa/parser.py] and
    [src/hixa/interpreter.py], with the properties of the language
    front-end and evaluator stated over it.

    Conventions.
    - Python exceptions are explicit results: every fallible operation
      returns a [res] together with the state it leaves behind, because a
      raised exception does not undo the mutations made before it.
    - Loops and recursion that Python bounds only by the input or not at all
      take a [fuel : nat]; running out of fuel is the distinct result
      [Timeout], which no handler of the model catches.
    - Source text is a Rocq [string], i.e. the ASCII subset of Python's
      [str]; characters outside ASCII are not part of the model. *)

From Stdlib Require Import ZArith String Ascii List Floats.SpecFloat Lia.
From stdpp Require Import base option list strings gmap pretty.

Set Warnings "-register-all".

Local Open Scope string_scope.
Local Open Scope list_scope.

(** ** A state-and-exception monad

    [comp S E A] is a computation over a mutable state [S] that returns an
    [A], raises an exception [E], or runs out of fuel. *)

Inductive res (E A : Type) : Type :=
| Ok (a : A)
| Raise (e : E)
| Timeout.
Arguments Ok {E A} a.
Arguments Raise {E A} e.
Arguments Timeout {E A}.

Definition comp (S E A : Type) : Type := S -> res E A * S.

Definition ret {S E A} (a : A) : comp S E A := fun s => (Ok a, s).

Definition raise {S E A} (e : E) : comp S E A := fun s => (Raise e, s).

Definition timeout {S E A} : comp S E A := fun s => (Timeout, s).

Definition bind {S E A B} (m : comp S E A) (k : A -> comp S E B) : comp S E B :=
  fun s =>
    match m s with
    | (Ok a, s') => k a s'
    | (Raise e, s') => (Raise e, s')
    | (Timeout, s') => (Timeout, s')
    end.

Definition get_state {S E} : comp S E S := fun s => (Ok s, s).

Definition modify {S E} (f : S -> S) : comp S E unit := fun s => (Ok tt, f s).

(** [try_except m h]: Python's [try: m  except <E> as e: h e], where [h]
    returns [None] for the exceptions its [except] clause does not match. *)
Definition try_except {S E A} (m : comp S E A) (h : E -> option (comp S E A))
  : comp S E A :=
  fun s =>
    match m s with
    | (Raise e, s') =>
        match h e with
        | Some k => k s'
        | None => (Raise e, s')
        end
    | r => r
    end.

(** [try_finally m f]: Python's [try: m  finally: f]; [f] runs on every way
    out of [m] and the result of [m] is kept. *)
Definition try_finally {S E A} (m : comp S E A) (f : S -> S) : comp S E A :=
  fun s => let '(r, s') := m s in (r, f s').

(** A [while] loop of at most [turns] turns: [step] returns [inl] to go
    round again and [inr] to leave. *)
Fixpoint loop {S E A B} (turns : nat) (step : A -> comp S E (A + B)) (a : A)
  : comp S E B :=
  fun s =>
    match turns with
    | 0 => (Timeout, s)
    | Datatypes.S turns' =>
        match step a s with
        | (Ok (inl a'), s') => loop turns' step a' s'
        | (Ok (inr b), s') => (Ok b, s')
        | (Raise e, s') => (Raise e, s')
        | (Timeout, s') => (Timeout, s')
        end
    end.

Declare Scope comp_scope.
Delimit Scope comp_scope with comp.
Notation "'let!' x ':=' m 'in' k" := (bind m (fun x => k))
  (at level 10, x name, m at level 100, k at level 200) : comp_scope.
Notation "'do!' m 'in' k" := (bind m (fun _ => k))
  (at level 10, m at level 100, k at level 200) : comp_scope.
Local Open Scope comp_scope.

(** Python's [str(n)] for a non-negative machine-independent integer. *)
Definition str_nat (n : nat) : string := pretty n.

(** ** Lexer ([src/hixa/lexer.py]) *)

Module Lexer.

(** [class TokenType(Enum)], members in declaration order. *)
Inductive TokenType : Set :=
| INT | FLOAT | STRING | BOOLEAN | IDENTIFIER
| KAM | GHAURAI_DIYA | JODI | NOHOLE | NAHOLE | JETIALOIKE | KARONE | HEKH
| HOSA | MISA | NAI | ARU | BA | NOT_KORA
| DHORA | LIST | DICTIONARY
| BREAK_KORA | CONTINUE_KORA
| IMPORT | MAIN | PASS_KORA
| INPUT_LOU | PRINT_KORA | POHA | LIKHA | OPEN_KORA | CLOSE_KORA
| RANDOM_KORA | TIME_KORA | SLEEP_KORA | CLEAR_KORA
| LENGTH_KORA | ADD_KORA | REMOVE_KORA | SORT_KORA | REVERSE_KORA | BISORA
| REPLACE_KORA | SPLIT_KORA | JOIN_KORA | UPPER_KORA | LOWER_KORA
| ROUND_KORA | FLOOR_KORA | CEIL_KORA | ABS_KORA | SQRT_KORA | POW_KORA
| SIN_KORA | COS_KORA | TAN_KORA | LOG_KORA | EXP_KORA | MIN_KORA | MAX_KORA
| SUM_KORA | AVERAGE_KORA | COUNT_KORA
| COPY_KORA | DELETE_KORA | CHECK_KORA | CONVERT_KORA | FORMAT_KORA
| VALIDATE_KORA
| ERROR_KORA | TRY_KORA | CATCH_KORA | FINALLY_KORA
| LET | FN | IF | ELSE | WHILE | FOR | IN | RETURN | CLASS | SELF
| TRUE | FALSE | NULL
| PLUS | MINUS | MULTIPLY | DIVIDE | MODULO | ASSIGN | EQUAL | NOT_EQUAL
| LESS | LESS_EQUAL | GREATER | GREATER_EQUAL | AND | OR | NOT
| LPAREN | RPAREN | LBRACE | RBRACE | LBRACKET | RBRACKET
| SEMICOLON | COMMA | DOT | COLON | ARROW | PIPE
| EOF | NEWLINE | COMMENT.

(** The value [auto()] gives each member: its 1-based declaration index.
    Enum members are equal exactly when these values are. *)
Definition auto (t : TokenType) : positive :=
  match t with
  | INT => 1 | FLOAT => 2 | STRING => 3 | BOOLEAN => 4 | IDENTIFIER => 5
  | KAM => 6 | GHAURAI_DIYA => 7 | JODI => 8 | NOHOLE => 9 | NAHOLE => 10
  | JETIALOIKE => 11 | KARONE => 12 | HEKH => 13
  | HOSA => 14 | MISA => 15 | NAI => 16 | ARU => 17 | BA => 18
  | NOT_KORA => 19
  | DHORA => 20 | LIST => 21 | DICTIONARY => 22
  | BREAK_KORA => 23 | CONTINUE_KORA => 24
  | IMPORT => 25 | MAIN => 26 | PASS_KORA => 27
  | INPUT_LOU => 28 | PRINT_KORA => 29 | POHA => 30 | LIKHA => 31
  | OPEN_KORA => 32 | CLOSE_KORA => 33
  | RANDOM_KORA => 34 | TIME_KORA => 35 | SLEEP_KORA => 36
  | CLEAR_KORA => 37
  | LENGTH_KORA => 38 | ADD_KORA => 39 | REMOVE_KORA => 40 | SORT_KORA => 41
  | REVERSE_KORA => 42 | BISORA => 43 | REPLACE_KORA => 44
  | SPLIT_KORA => 45 | JOIN_KORA => 46 | UPPER_KORA => 47 | LOWER_KORA => 48
  | ROUND_KORA => 49 | FLOOR_KORA => 50 | CEIL_KORA => 51 | ABS_KORA => 52
  | SQRT_KORA => 53 | POW_KORA => 54 | SIN_KORA => 55 | COS_KORA => 56
  | TAN_KORA => 57 | LOG_KORA => 58 | EXP_KORA => 59 | MIN_KORA => 60
  | MAX_KORA => 61 | SUM_KORA => 62 | AVERAGE_KORA => 63 | COUNT_KORA => 64
  | COPY_KORA => 65 | DELETE_KORA => 66 | CHECK_KORA => 67
  | CONVERT_KORA => 68 | FORMAT_KORA => 69 | VALIDATE_KORA => 70
  | ERROR_KORA => 71 | TRY_KORA => 72 | CATCH_KORA => 73
  | FINALLY_KORA => 74
  | LET => 75 | FN => 76 | IF => 77 | ELSE => 78 | WHILE => 79 | FOR => 80
  | IN => 81 | RETURN => 82 | CLASS => 83 | SELF => 84
  | TRUE => 85 | FALSE => 86 | NULL => 87
  | PLUS => 88 | MINUS => 89 | MULTIPLY => 90 | DIVIDE => 91 | MODULO => 92
  | ASSIGN => 93 | EQUAL => 94 | NOT_EQUAL => 95 | LESS => 96
  | LESS_EQUAL => 97 | GREATER => 98 | GREATER_EQUAL => 99 | AND => 100
  | OR => 101 | NOT => 102
  | LPAREN => 103 | RPAREN => 104 | LBRACE => 105 | RBRACE => 106
  | LBRACKET => 107 | RBRACKET => 108
  | SEMICOLON => 109 | COMMA => 110 | DOT => 111 | COLON => 112
  | ARROW => 113 | PIPE => 114
  | EOF => 115 | NEWLINE => 116 | COMMENT => 117
  end.

Definition type_eqb (a b : TokenType) : bool := Pos.eqb (auto a) (auto b).

(** [class Token]: kind, lexeme, 1-based line and column. *)
Record Token : Set := mkToken {
  type : TokenType;
  value : string;
  line : nat;
  column : nat
}.

(** [Token.__eq__]: all four fields equal. *)
Definition Token_eq (a b : Token) : bool :=
  type_eqb (type a) (type b) && String.eqb (value a) (value b)
  && Nat.eqb (line a) (line b) && Nat.eqb (column a) (column b).

(** *** Character classes and the regular expressions of [self.patterns] *)

Definition code (c : ascii) : nat := nat_of_ascii c.

(** [str.isspace] on ASCII: TAB..CR, FS..US and the space. *)
Definition isspace (c : ascii) : bool :=
  let n := code c in
  (((9 <=? n) && (n <=? 13)) || ((28 <=? n) && (n <=? 32)))%nat.

(** [\d] *)
Definition isdigit (c : ascii) : bool :=
  let n := code c in ((48 <=? n) && (n <=? 57))%nat.

(** [[a-zA-Z_]] *)
Definition isidstart (c : ascii) : bool :=
  let n := code c in
  (((97 <=? n) && (n <=? 122)) || ((65 <=? n) && (n <=? 90)) || (n =? 95))%nat.

(** [[a-zA-Z0-9_]] *)
Definition isidchar (c : ascii) : bool := isidstart c || isdigit c.

Definition newline : ascii := ascii_of_nat 10.
Definition quote : ascii := ascii_of_nat 34.

(** The longest prefix of [s] whose characters satisfy [p] (a greedy [p*]). *)
Fixpoint span (p : ascii -> bool) (s : list ascii) : list ascii :=
  match s with
  | c :: s' => if p c then c :: span p s' else []
  | [] => []
  end.

(** A matcher plays [re.match(pattern, text)]: the matched prefix, if any. *)
Definition matcher : Type := list ascii -> option (list ascii).

(** A literal pattern such as [->] or [\+]. *)
Definition lit (p : string) : matcher := fun s =>
  let l := list_ascii_of_string p in
  if decide (take (length l) s = l) then Some l else None.

(** [//.*] : the dot stops at a line break. *)
Definition re_comment : matcher := fun s =>
  match s with
  | "/"%char :: "/"%char :: s' =>
      Some ("/"%char :: "/"%char
            :: span (fun c => negb (Ascii.eqb c newline)) s')
  | _ => None
  end.

(** The string pattern: a double quote, any run of characters other than a
    double quote (line breaks included), and a closing double quote. *)
Definition re_string : matcher := fun s =>
  match s with
  | c :: s' =>
      if Ascii.eqb c quote then
        let body := span (fun c => negb (Ascii.eqb c quote)) s' in
        match drop (length body) s' with
        | q :: _ => Some (quote :: body ++ [q])
        | [] => None
        end
      else None
  | [] => None
  end.

(** [\d+] *)
Definition re_int : matcher := fun s =>
  match span isdigit s with
  | [] => None
  | ds => Some ds
  end.

(** [\d+\.\d+] *)
Definition re_float : matcher := fun s =>
  match span isdigit s with
  | [] => None
  | ds =>
      match drop (length ds) s with
      | "."%char :: s' =>
          match span isdigit s' with
          | [] => None
          | fs => Some (ds ++ "."%char :: fs)
          end
      | _ => None
      end
  end.

(** [[a-zA-Z_][a-zA-Z0-9_]*] *)
Definition re_identifier : matcher := fun s =>
  match s with
  | c :: s' => if isidstart c then Some (c :: span isidchar s') else None
  | [] => None
  end.

(** [self.patterns], in the order they are tried. *)
Definition patterns : list (TokenType * matcher) :=
  [ (COMMENT, re_comment);
    (STRING, re_string);
    (FLOAT, re_float);
    (INT, re_int);
    (IDENTIFIER, re_identifier);
    (ARROW, lit "->");
    (LESS_EQUAL, lit "<=");
    (GREATER_EQUAL, lit ">=");
    (NOT_EQUAL, lit "!=");
    (EQUAL, lit "==");
    (ASSIGN, lit "=");
    (PLUS, lit "+");
    (MINUS, lit "-");
    (MULTIPLY, lit "*");
    (DIVIDE, lit "/");
    (MODULO, lit "%");
    (LESS, lit "<");
    (GREATER, lit ">");
    (AND, lit "&&");
    (OR, lit "||");
    (NOT, lit "!");
    (LPAREN, lit "(");
    (RPAREN, lit ")");
    (LBRACE, lit "{");
    (RBRACE, lit "}");
    (LBRACKET, lit "[");
    (RBRACKET, lit "]");
    (SEMICOLON, lit ";");
    (COMMA, lit ",");
    (DOT, lit ".");
    (COLON, lit ":");
    (PIPE, lit "|") ].

(** [self.keywords]: the dictionary from spelling to token kind. *)
Definition keywords : list (string * TokenType) :=
  [ ("kam", KAM);
    ("ghurai_diya", GHAURAI_DIYA);
    ("jodi", JODI);
    ("nohole", NOHOLE);
    ("nahole", NAHOLE);
    ("jetialoike", JETIALOIKE);
    ("karone", KARONE);
    ("hekh", HEKH);
    ("hosa", HOSA);
    ("misa", MISA);
    ("nai", NAI);
    ("aru", ARU);
    ("ba", BA);
    ("not_kora", NOT_KORA);
    ("dhora", DHORA);
    ("break_kora", BREAK_KORA);
    ("continue_kora", CONTINUE_KORA);
    ("import", IMPORT);
    ("pass_kora", PASS_KORA);
    ("error_kora", ERROR_KORA);
    ("try_kora", TRY_KORA);
    ("catch_kora", CATCH_KORA);
    ("finally_kora", FINALLY_KORA);
    ("let", LET);
    ("fn", FN);
    ("if", IF);
    ("else", ELSE);
    ("while", WHILE);
    ("for", FOR);
    ("in", IN);
    ("return", RETURN);
    ("class", CLASS);
    ("self", SELF);
    ("true", TRUE);
    ("false", FALSE);
    ("null", NULL);
    ("print", PRINT_KORA) ].

(** [self.keywords[value]] when [value in self.keywords]. *)
Fixpoint keyword (spelling : string) (table : list (string * TokenType))
  : option TokenType :=
  match table with
  | (k, t) :: rest => if String.eqb k spelling then Some t else keyword spelling rest
  | [] => None
  end.

(** *** The scanner state ([class Lexer]) *)

Record lexer : Type := mkLexer {
  source : list ascii;
  position : nat;
  lx_line : nat;
  lx_column : nat;
  tokens : list Token;
  errors : list string
}.

(** [Lexer.__init__] *)
Definition Lexer (src : string) : lexer :=
  {| source := list_ascii_of_string src; position := 0;
     lx_line := 1; lx_column := 1; tokens := []; errors := [] |}.

(** The lexer raises only [SyntaxError(message)]. *)
Definition L (A : Type) : Type := comp lexer string A.

Definition set_position (p : nat) (lx : lexer) : lexer :=
  {| source := source lx; position := p; lx_line := lx_line lx;
     lx_column := lx_column lx; tokens := tokens lx; errors := errors lx |}.

Definition set_line (n : nat) (lx : lexer) : lexer :=
  {| source := source lx; position := position lx; lx_line := n;
     lx_column := lx_column lx; tokens := tokens lx; errors := errors lx |}.

Definition set_column (n : nat) (lx : lexer) : lexer :=
  {| source := source lx; position := position lx; lx_line := lx_line lx;
     lx_column := n; tokens := tokens lx; errors := errors lx |}.

Definition push_token (t : Token) (lx : lexer) : lexer :=
  {| source := source lx; position := position lx; lx_line := lx_line lx;
     lx_column := lx_column lx; tokens := tokens lx ++ [t];
     errors := errors lx |}.

(** [_skip_whitespace]: one character per unit of fuel; line breaks are
    whitespace, so they bump the line counter and are dropped. *)
Fixpoint _skip_whitespace (fuel : nat) (lx : lexer) : lexer :=
  match fuel with
  | 0 => lx
  | S fuel' =>
      match source lx !! position lx with
      | Some c =>
          if isspace c then
            let lx1 :=
              if Ascii.eqb c newline
              then set_column 1 (set_line (lx_line lx + 1) lx)
              else set_column (lx_column lx + 1) lx in
            _skip_whitespace fuel' (set_position (position lx1 + 1) lx1)
          else lx
      | None => lx
      end
  end.

(** [_create_token]: keywords are reclassified, string lexemes lose their
    quotes; the token is stamped with the lexer's current line and column. *)
Definition _create_token (lx : lexer) (type_ : TokenType) (value : string)
  : Token :=
  let type_ :=
    if type_eqb type_ IDENTIFIER then
      match keyword value keywords with
      | Some k => k
      | None => type_
      end
    else type_ in
  let value :=
    if type_eqb type_ STRING
    then substring 1 (String.length value - 2) value
    else value in
  mkToken type_ value (lx_line lx) (lx_column lx).

(** [_handle_comment]: consume up to, not including, the line break. *)
Definition _handle_comment : L Token := fun lx =>
  let start_pos := position lx in
  let rest := drop start_pos (source lx) in
  let comment := span (fun c => negb (Ascii.eqb c newline)) rest in
  let lx1 := set_position (start_pos + length comment) lx in
  let token :=
    mkToken COMMENT (string_of_list_ascii comment) (lx_line lx1) (lx_column lx1) in
  (Ok token, set_column (lx_column lx1 + length comment) lx1).

(** The [for token_type, pattern in self.patterns] loop of
    [_get_next_token]. *)
Fixpoint first_match (pats : list (TokenType * matcher)) (text : list ascii)
  : option (TokenType * list ascii) :=
  match pats with
  | (t, m) :: rest =>
      match m text with
      | Some v => Some (t, v)
      | None => first_match rest text
      end
  | [] => None
  end.

Definition unexpected_character (c : ascii) (lx : lexer) : string :=
  "Unexpected character '" ++ String c "" ++ "' at line "
    ++ str_nat (lx_line lx) ++ ", column " ++ str_nat (lx_column lx).

(** [_get_next_token]; called only with [position < len(source)]. *)
Definition _get_next_token : L Token := fun lx =>
  match drop (position lx) (source lx) with
  | [] => (Raise "IndexError: string index out of range", lx)
  | current_char :: after =>
      if Ascii.eqb current_char "/"
         && match after with c :: _ => Ascii.eqb c "/" | [] => false end
      then _handle_comment lx
      else
        match first_match patterns (current_char :: after) with
        | Some (token_type, value) =>
            let token :=
              _create_token lx token_type (string_of_list_ascii value) in
            let lx1 := set_position (position lx + length value) lx in
            (Ok token, set_column (lx_column lx1 + length value) lx1)
        | None => (Raise (unexpected_character current_char lx), lx)
        end
  end.

(** The [while] loop of [tokenize]. *)
Fixpoint tokenize_loop (fuel : nat) : L unit :=
  match fuel with
  | 0 => timeout
  | S fuel' => fun lx =>
      if (position lx <? length (source lx))%nat then
        let lx1 := _skip_whitespace (length (source lx)) lx in
        if (length (source lx1) <=? position lx1)%nat then (Ok tt, lx1)
        else
          match _get_next_token lx1 with
          | (Ok token, lx2) =>
              tokenize_loop fuel'
                (if type_eqb (type token) COMMENT then lx2
                 else push_token token lx2)
          | (Raise e, lx2) => (Raise e, lx2)
          | (Timeout, lx2) => (Timeout, lx2)
          end
      else (Ok tt, lx)
  end.

(** [tokenize]: every turn of the loop consumes a character, so
    [len(source) + 1] turns are enough. *)
Definition tokenize : L (list Token) :=
  let! lx0 := get_state in
  do! tokenize_loop (S (length (source lx0))) in
  let! lx := get_state in
  do! modify (push_token (mkToken EOF "" (lx_line lx) (lx_column lx))) in
  let! lx' := get_state in
  ret (tokens lx').

(** The tokens of a source text, or the lexical error. *)
Definition lex (src : string) : res string (list Token) :=
  fst (tokenize (Lexer src)).

End Lexer.

(** ** Host numbers

    Python's [int] is an unbounded integer ([Z]) and its [float] an IEEE 754
    binary64, modelled by [spec_float] at precision 53 and exponent bound
    1024. *)

Module PyNum.

Definition prec : Z := 53.
Definition emax : Z := 1024.

Definition fadd := SFadd prec emax.
Definition fsub := SFsub prec emax.
Definition fmul := SFmul prec emax.
Definition fdiv := SFdiv prec emax.

(** The binary64 nearest to an integer (ties to even); infinite when the
    integer is out of range. *)
Definition float_of_Z (z : Z) : spec_float :=
  binary_normalize prec emax z 0 false.

(** The binary64 nearest to the quotient [a / b] of two integers, [b <> 0]. *)
Definition float_of_quotient (a b : Z) : spec_float :=
  let sign := xorb (a <? 0)%Z (b <? 0)%Z in
  match a with
  | 0%Z => S754_zero sign
  | _ =>
      let '(mz, ez, lz) :=
        SFdiv_core_binary prec emax (Z.abs a) 0 (Z.abs b) 0 in
      binary_round_aux prec emax sign mz ez lz
  end.

Definition is_finite (f : spec_float) : bool :=
  match f with
  | S754_zero _ | S754_finite _ _ _ => true
  | _ => false
  end.

Definition digit_value (c : ascii) : Z := Z.of_nat (nat_of_ascii c) - 48.

(** [int(text)] for a run of decimal digits. *)
Definition int_of_digits (text : list ascii) : Z :=
  fold_left (fun acc c => 10 * acc + digit_value c)%Z text 0%Z.

(** [float(text)] for text of the form digits, dot, digits: the nearest
    binary64 to the decimal number written. *)
Definition float_of_decimal (text : list ascii) : spec_float :=
  let whole := Lexer.span Lexer.isdigit text in
  let frac := drop (S (length whole)) text in
  float_of_quotient (int_of_digits (whole ++ frac))
                    (10 ^ Z.of_nat (length frac)).

End PyNum.

(** ** Syntax trees ([src/hixa/ast.py])

    Python gives every node the one base class [ASTNode] and the parser puts
    expressions where statements are expected, so the tree is one type. *)

Module Ast.

(** The host value a [Literal] carries. *)
Inductive constant : Type :=
| CNone
| CBool (b : bool)
| CInt (z : Z)
| CFloat (f : spec_float)
| CStr (s : string).

(** [class Parameter] ([Parameter] is reserved in Rocq). *)
Record FnParameter : Type := mkParameter {
  param_name : string;
  param_type_annotation : option string
}.

Inductive node : Type :=
| Program (statements : list node)
| FunctionDeclaration (name : string) (parameters : list FnParameter)
    (return_type : option string) (body : node)
| VariableDeclaration (name : string) (type_annotation : option string)
    (initializer : option node)
| BinaryExpression (left : node) (operator : string) (right : node)
| UnaryExpression (operator : string) (operand : node)
| Literal (value : constant) (type_ : string)
| Identifier (name : string)
| CallExpression (callee : node) (arguments : list node)
| AssignmentExpression (target : node) (operator : string) (value : node)
| MemberExpression (object_ : node) (property : node) (computed : bool)
| ArrayExpression (elements : list node)
| ObjectExpression (properties : list (string * node))
| IndexExpression (array : node) (index : node)
| BlockStatement (statements : list node)
| IfStatement (condition : node) (then_branch : node)
    (else_branch : option node)
| WhileStatement (condition : node) (body : node)
| ForStatement (initializer : option node) (condition : option node)
    (increment : option node) (body : node)
| ReturnStatement (value : option node).

(** [Property(key, value)] of an object literal. *)
Definition Property (key : string) (value : node) : string * node :=
  (key, value).

End Ast.

(** ** Parser ([src/hixa/parser.py]) *)

Module Parser.
Import Lexer Ast.

(** The exceptions the parser's code can meet: the [SyntaxError] it builds
    in [error], and the [IndexError] of [self.tokens[...]] out of range. *)
Inductive exn : Type :=
| SyntaxError (msg : string)
| IndexError.

(** [str(e)] *)
Definition str_exn (e : exn) : string :=
  match e with
  | SyntaxError msg => msg
  | IndexError => "list index out of range"
  end.

(** [class Parser] *)
Record parser : Type := mkParser {
  tokens : list Token;
  current : nat;
  errors : list string
}.

(** [Parser.__init__] *)
Definition Parser (tokens : list Token) : parser :=
  {| tokens := tokens; current := 0; errors := [] |}.

Definition P (A : Type) : Type := comp parser exn A.

Definition set_current (n : nat) (p : parser) : parser :=
  {| tokens := tokens p; current := n; errors := errors p |}.

Definition errors_append (msg : string) (p : parser) : parser :=
  {| tokens := tokens p; current := current p; errors := errors p ++ [msg] |}.

(** *** Helper methods *)

(** [peek]: [self.tokens[self.current]] *)
Definition peek : P Token := fun p =>
  match tokens p !! current p with
  | Some t => (Ok t, p)
  | None => (Raise IndexError, p)
  end.

(** [previous]: [self.tokens[self.current - 1]]; at [current = 0] the index
    is [-1], which Python reads as the last token. *)
Definition previous : P Token := fun p =>
  let i := match current p with
           | 0 => length (tokens p) - 1
           | S i => i
           end in
  match tokens p !! i with
  | Some t => (Ok t, p)
  | None => (Raise IndexError, p)
  end.

Definition is_at_end : P bool :=
  let! t := peek in ret (type_eqb (type t) EOF).

Definition check (type_ : TokenType) : P bool :=
  let! e := is_at_end in
  if e then ret false
  else let! t := peek in ret (type_eqb (type t) type_).

Definition advance : P Token :=
  let! e := is_at_end in
  do! (if e then ret tt else modify (fun p => set_current (current p + 1) p)) in
  previous.

(** [match], taking the token kinds to try in order ([match] is reserved
    in Rocq). *)
Fixpoint match_ (types : list TokenType) : P bool :=
  match types with
  | type_ :: rest =>
      let! c := check type_ in
      if c then do! advance in ret true else match_ rest
  | [] => ret false
  end.

(** [error]: records the message and returns the exception to raise. *)
Definition error (token : Token) (message : string) : P exn :=
  let error_msg :=
    ("Error at line " ++ str_nat (line token) ++ ", column "
       ++ str_nat (column token) ++ ": " ++ message)%string in
  do! modify (errors_append error_msg) in
  ret (SyntaxError error_msg).

(** [raise self.error(self.peek(), message)] *)
Definition raise_error_at_peek {A} (message : string) : P A :=
  let! t := peek in
  let! e := error t message in
  raise e.

Definition consume (type_ : TokenType) (message : string) : P Token :=
  let! c := check type_ in
  if c then advance else raise_error_at_peek message.

(** Every loop of the parser consumes a token on each turn, so the number
    of tokens bounds the number of turns. *)
Definition while_ {A B} (step : A -> P (A + B)) (a : A) : P B :=
  let! p := get_state in loop (S (length (tokens p))) step a.

(** The kinds at which [synchronize] stops. *)
Definition statement_starts : list TokenType :=
  [FN; LET; IF; WHILE; FOR; RETURN;
   KAM; DHORA; JODI; JETIALOIKE; KARONE; GHAURAI_DIYA].

Definition synchronize : P unit :=
  do! advance in
  while_ (fun _ : unit =>
    let! e := is_at_end in
    if e then ret (inr tt)
    else
      let! prev := previous in
      if type_eqb (type prev) SEMICOLON then ret (inr tt)
      else
        let! t := peek in
        if existsb (type_eqb (type t)) statement_starts then ret (inr tt)
        else do! advance in ret (inl tt)) tt.

(** *** Grammar methods

    The methods call one another through [self]; [self] is the record of
    all of them one level of recursion further down. *)

Record Self : Type := mkSelf {
  do_declaration : P (option node);
  do_statement : P node;
  do_block_statement : P node;
  do_variable_declaration : P node;
  do_expression_statement : P node;
  do_expression : P node;
  do_assignment : P node;
  do_or_expression : P node;
  do_and_expression : P node;
  do_equality : P node;
  do_comparison : P node;
  do_term : P node;
  do_factor : P node;
  do_unary : P node;
  do_call : P node;
  do_primary : P node
}.

Section Methods.
Variable self : Self.

Definition parameters : P (list FnParameter) :=
  let! close := check RPAREN in
  if close then ret []
  else
    while_ (fun parameters : list FnParameter =>
      do! consume IDENTIFIER "Expected parameter name" in
      let! name := previous in
      let! colon := match_ [COLON] in
      let! type_annotation :=
        (if colon then
           do! consume IDENTIFIER "Expected parameter type" in
           let! t := previous in ret (Some (value t))
         else ret None) in
      let parameters := parameters ++ [mkParameter (value name) type_annotation] in
      let! comma := match_ [COMMA] in
      if comma then ret (inl parameters) else ret (inr parameters)) [].

Definition function_declaration : P node :=
  do! consume IDENTIFIER "Expected function name" in
  let! name := previous in
  do! consume LPAREN "Expected '(' after function name" in
  let! parameters := parameters in
  do! consume RPAREN "Expected ')' after parameters" in
  let! arrow := match_ [ARROW] in
  let! return_type :=
    (if arrow then
       do! consume IDENTIFIER "Expected return type" in
       let! t := previous in ret (Some (value t))
     else ret None) in
  do! consume LBRACE "Expected '{' before function body" in
  do! while_ (fun _ : unit =>
        let! m := match_ [NEWLINE] in
        if m then ret (inl tt) else ret (inr tt)) tt in
  let! body := do_block_statement self in
  ret (FunctionDeclaration (value name) parameters return_type body).

Definition variable_declaration : P node :=
  do! consume IDENTIFIER "Expected variable name" in
  let! name := previous in
  let! colon := match_ [COLON] in
  let! type_annotation :=
    (if colon then
       do! consume IDENTIFIER "Expected variable type" in
       let! t := previous in ret (Some (value t))
     else ret None) in
  let! assign := match_ [ASSIGN] in
  let! initializer :=
    (if assign then let! e := do_expression self in ret (Some e)
     else ret None) in
  let! semicolon := match_ [SEMICOLON] in
  let! eof := (if semicolon then ret true else check EOF) in
  let! terminated := (if eof then ret true else check NEWLINE) in
  do! (if terminated then
         let! at_eof := check EOF in
         if at_eof then ret tt else do! advance in ret tt
       else
         raise_error_at_peek
           "Expected ';' or newline after variable declaration") in
  ret (VariableDeclaration (value name) type_annotation initializer).

Definition declaration : P (option node) :=
  try_except
    (let! fn := match_ [FN] in
     let! fn := (if fn then ret true else match_ [KAM]) in
     if fn then let! d := function_declaration in ret (Some d)
     else
       let! var := match_ [LET] in
       let! var := (if var then ret true else match_ [DHORA]) in
       if var then let! d := do_variable_declaration self in ret (Some d)
       else let! s := do_statement self in ret (Some s))
    (fun e => Some (
       do! modify (errors_append
                     ("Error parsing declaration: " ++ str_exn e)%string) in
       do! synchronize in
       ret None)).

Definition if_statement : P node :=
  do! consume LPAREN "Expected '(' after 'if'" in
  let! condition := do_expression self in
  do! consume RPAREN "Expected ')' after if condition" in
  let! then_branch := do_statement self in
  let! els := match_ [ELSE] in
  let! els := (if els then ret true else match_ [NOHOLE]) in
  let! else_branch :=
    (if els then let! s := do_statement self in ret (Some s) else ret None) in
  ret (IfStatement condition then_branch else_branch).

Definition while_statement : P node :=
  do! consume LPAREN "Expected '(' after 'while'" in
  let! condition := do_expression self in
  do! consume RPAREN "Expected ')' after while condition" in
  let! body := do_statement self in
  ret (WhileStatement condition body).

Definition for_statement : P node :=
  do! consume LPAREN "Expected '(' after 'for'" in
  let! semicolon := match_ [SEMICOLON] in
  let! initializer :=
    (if semicolon then ret None
     else
       let! var := match_ [LET] in
       let! var := (if var then ret true else match_ [DHORA]) in
       if var then let! d := do_variable_declaration self in ret (Some d)
       else let! e := do_expression_statement self in ret (Some e)) in
  let! semicolon := check SEMICOLON in
  let! condition :=
    (if semicolon then ret None
     else let! e := do_expression self in ret (Some e)) in
  do! consume SEMICOLON "Expected ';' after for loop condition" in
  let! close := check RPAREN in
  let! increment :=
    (if close then ret None
     else let! e := do_expression self in ret (Some e)) in
  do! consume RPAREN "Expected ')' after for clauses" in
  let! body := do_statement self in
  ret (ForStatement initializer condition increment body).

Definition return_statement : P node :=
  let! semicolon := check SEMICOLON in
  let! value :=
    (if semicolon then ret None
     else let! e := do_expression self in ret (Some e)) in
  do! consume SEMICOLON "Expected ';' after return value" in
  ret (ReturnStatement value).

Definition block_statement : P node :=
  let! statements :=
    while_ (fun statements : list node =>
      let! close := check RBRACE in
      let! e := (if close then ret true else is_at_end) in
      if e then ret (inr statements)
      else
        do! while_ (fun _ : unit =>
              let! m := match_ [NEWLINE] in
              if m then ret (inl tt) else ret (inr tt)) tt in
        let! close := check RBRACE in
        let! e := (if close then ret true else is_at_end) in
        if e then ret (inr statements)
        else
          let! statement := do_declaration self in
          match statement with
          | Some s => ret (inl (statements ++ [s]))
          | None => ret (inl statements)
          end) [] in
  do! consume RBRACE "Expected '}' after block" in
  ret (BlockStatement statements).

Definition statement : P node :=
  let! m := match_ [IF] in
  let! m := (if m then ret true else match_ [JODI]) in
  if m then if_statement
  else
    let! m := match_ [WHILE] in
    let! m := (if m then ret true else match_ [JETIALOIKE]) in
    if m then while_statement
    else
      let! m := match_ [FOR] in
      let! m := (if m then ret true else match_ [KARONE]) in
      if m then for_statement
      else
        let! m := match_ [RETURN] in
        let! m := (if m then ret true else match_ [GHAURAI_DIYA]) in
        if m then return_statement
        else
          let! m := match_ [LBRACE] in
          if m then do_block_statement self
          else do_expression_statement self.

Definition expression_statement : P node :=
  let! expr := do_expression self in
  let! semicolon := match_ [SEMICOLON] in
  do! (if semicolon then ret tt
       else
         let! eof := check EOF in
         let! e := (if eof then ret true else check NEWLINE) in
         if e then
           let! at_eof := check EOF in
           if at_eof then ret tt else do! advance in ret tt
         else raise_error_at_peek "Expected ';' or newline after expression") in
  ret expr.

Definition expression : P node := do_assignment self.

Definition assignment : P node :=
  let! expr := do_or_expression self in
  let! m := match_ [ASSIGN] in
  if m then
    let! equals := previous in
    let! value := do_assignment self in
    match expr with
    | Identifier _ | MemberExpression _ _ _ =>
        ret (AssignmentExpression expr (Lexer.value equals) value)
    | _ =>
        do! error equals "Invalid assignment target" in
        ret expr
    end
  else ret expr.

(** The shape shared by the five left-associative binary levels:
    parse an operand, then, while the next token is one of [types], take it
    as the operator and parse the right operand. *)
Definition binary_level (types : list TokenType) (operand : P node) : P node :=
  let! expr := operand in
  while_ (fun expr : node =>
    let! m := match_ types in
    if m then
      let! operator := previous in
      let! right := operand in
      ret (inl (BinaryExpression expr (value operator) right))
    else ret (inr expr)) expr.

Definition or_expression : P node := binary_level [OR; BA] (do_and_expression self).

Definition and_expression : P node := binary_level [AND; ARU] (do_equality self).

Definition equality : P node :=
  binary_level [NOT_EQUAL; EQUAL] (do_comparison self).

Definition comparison : P node :=
  binary_level [GREATER; GREATER_EQUAL; LESS; LESS_EQUAL] (do_term self).

Definition term : P node := binary_level [MINUS; PLUS] (do_factor self).

Definition factor : P node :=
  binary_level [DIVIDE; MULTIPLY; MODULO] (do_unary self).

Definition unary : P node :=
  let! m := match_ [NOT; NOT_KORA; MINUS] in
  if m then
    let! operator := previous in
    let! right := do_unary self in
    ret (UnaryExpression (value operator) right)
  else do_call self.

Definition finish_call (callee : node) : P node :=
  let! close := check RPAREN in
  let! arguments :=
    (if close then ret []
     else
       let! first := do_expression self in
       while_ (fun arguments : list node =>
         let! comma := match_ [COMMA] in
         if comma then
           let! e := do_expression self in ret (inl (arguments ++ [e]))
         else ret (inr arguments)) [first]) in
  do! consume RPAREN "Expected ')' after arguments" in
  ret (CallExpression callee arguments).

Definition call : P node :=
  let! expr := do_primary self in
  while_ (fun expr : node =>
    let! m := match_ [LPAREN] in
    if m then let! e := finish_call expr in ret (inl e)
    else
      let! m := match_ [DOT] in
      if m then
        do! consume IDENTIFIER "Expected property name after '.'" in
        let! name := previous in
        ret (inl (MemberExpression expr (Identifier (value name)) false))
      else
        let! m := match_ [LBRACKET] in
        if m then
          let! index := do_expression self in
          do! consume RBRACKET "Expected ']' after array index" in
          ret (inl (IndexExpression expr index))
        else ret (inr expr)) expr.

Definition array_expression : P node :=
  let! close := check RBRACKET in
  let! elements :=
    (if close then ret []
     else
       while_ (fun elements : list node =>
         let! e := do_expression self in
         let elements := elements ++ [e] in
         let! comma := match_ [COMMA] in
         if comma then ret (inl elements) else ret (inr elements)) []) in
  do! consume RBRACKET "Expected ']' after array elements" in
  ret (ArrayExpression elements).

Definition object_expression : P node :=
  let! close := check RBRACE in
  let! properties :=
    (if close then ret []
     else
       while_ (fun properties : list (string * node) =>
         do! consume IDENTIFIER "Expected property name" in
         let! name := previous in
         do! consume COLON "Expected ':' after property name" in
         let! v := do_expression self in
         let properties := properties ++ [Property (value name) v] in
         let! comma := match_ [COMMA] in
         if comma then ret (inl properties) else ret (inr properties)) []) in
  do! consume RBRACE "Expected '}' after object properties" in
  ret (ObjectExpression properties).

Definition primary : P node :=
  let! m := match_ [FALSE; MISA] in
  if m then ret (Literal (CBool false) "boolean")
  else
    let! m := match_ [TRUE; HOSA] in
    if m then ret (Literal (CBool true) "boolean")
    else
      let! m := match_ [NULL; NAI] in
      if m then ret (Literal CNone "null")
      else
        let! m := match_ [INT] in
        if m then
          let! t := previous in
          ret (Literal (CInt (PyNum.int_of_digits
                                (list_ascii_of_string (value t)))) "int")
        else
          let! m := match_ [FLOAT] in
          if m then
            let! t := previous in
            ret (Literal (CFloat (PyNum.float_of_decimal
                                    (list_ascii_of_string (value t)))) "float")
          else
            let! m := match_ [STRING] in
            if m then let! t := previous in ret (Literal (CStr (value t)) "string")
            else
              let! m := match_ [IDENTIFIER] in
              if m then let! t := previous in ret (Identifier (value t))
              else
                let! m := match_ [LPAREN] in
                if m then
                  let! expr := do_expression self in
                  do! consume RPAREN "Expected ')' after expression" in
                  ret expr
                else
                  let! m := match_ [LBRACKET] in
                  if m then array_expression
                  else
                    let! m := match_ [LBRACE] in
                    if m then object_expression
                    else raise_error_at_peek "Expected expression".

End Methods.

(** The methods available at recursion depth [fuel]. *)
Fixpoint methods (fuel : nat) : Self :=
  match fuel with
  | 0 =>
      {| do_declaration := timeout; do_statement := timeout;
         do_block_statement := timeout; do_variable_declaration := timeout;
         do_expression_statement := timeout; do_expression := timeout;
         do_assignment := timeout; do_or_expression := timeout;
         do_and_expression := timeout; do_equality := timeout;
         do_comparison := timeout; do_term := timeout; do_factor := timeout;
         do_unary := timeout; do_call := timeout; do_primary := timeout |}
  | S fuel' =>
      let self := methods fuel' in
      {| do_declaration := declaration self;
         do_statement := statement self;
         do_block_statement := block_statement self;
         do_variable_declaration := variable_declaration self;
         do_expression_statement := expression_statement self;
         do_expression := expression self;
         do_assignment := assignment self;
         do_or_expression := or_expression self;
         do_and_expression := and_expression self;
         do_equality := equality self;
         do_comparison := comparison self;
         do_term := term self;
         do_factor := factor self;
         do_unary := unary self;
         do_call := call self;
         do_primary := primary self |}
  end.

(** [parse]: the top-level loop; a declaration that raises past
    [declaration]'s own handler is recorded and skipped. *)
Definition parse (fuel : nat) : P node :=
  let self := methods fuel in
  let! statements :=
    while_ (fun statements : list node =>
      let! e := is_at_end in
      if e then ret (inr statements)
      else
        try_except
          (let! statement := do_declaration self in
           match statement with
           | Some s => ret (inl (statements ++ [s]))
           | None => ret (inl statements)
           end)
          (fun e => Some (
             do! modify (errors_append (str_exn e)) in
             do! synchronize in
             ret (inl statements)))) [] in
  ret (Program statements).

(** Recursion depth that is enough for a token list: every nesting level of
    the grammar costs at most sixteen method calls and opens with a token. *)
Definition depth_for (tokens : list Token) : nat := 16 * S (length tokens).

(** Lexing then parsing a source text: the program and the parser's error
    list, or the lexical error. *)
Definition parse_source (src : string) : res string (res exn node * list string) :=
  match lex src with
  | Ok toks =>
      let '(r, p) := parse (depth_for toks) (Parser toks) in
      Ok (r, errors p)
  | Raise e => Raise e
  | Timeout => Timeout
  end.

(** Lexing a source text and running the expression parser on it. *)
Definition parse_expression (src : string) : res string (res exn node * parser) :=
  match lex src with
  | Ok toks => Ok (do_expression (methods (depth_for toks)) (Parser toks))
  | Raise e => Raise e
  | Timeout => Timeout
  end.

End Parser.

(** ** Evaluator ([src/hixa/interpreter.py])

    Runtime values are Python objects. The immutable ones (None, booleans,
    integers, floats, strings) are values; environments, lists and
    dictionaries are mutable and shared, so they live in a store and are
    named by their identity. Anything else Python can hand back (a bound
    method of a dictionary, an attribute of a function object, ...) is an
    opaque host object whose behaviour belongs to the host. *)

Module Interp.
Import Ast.

(** Object identity. *)
Definition loc : Type := nat.

(** The bound methods that [_init_stdlib] registers. *)
Inductive native : Set :=
| _print | _len | _range | _input | _int | _float | _string | _bool
| _random | _time | _sleep | _clear | _append | _remove | _sort | _reverse
| _find | _replace | _split | _join | _upper | _lower | _round | _floor
| _ceil | _abs | _sqrt | _pow | _sin | _cos | _tan | _log | _exp | _min
| _max | _sum | _average | _count | _copy | _delete | _check | _convert
| _format | _validate | _error.

Inductive val : Type :=
| VNone
| VBool (b : bool)
| VInt (z : Z)
| VFloat (f : spec_float)
| VStr (s : string)
| VList (l : loc)
| VDict (l : loc)
| VFunction (id : loc) (declaration : node) (closure : loc)
| VNative (n : native)
| VHost (h : nat).

(** The exceptions that travel through the evaluator: the [RuntimeError]
    the evaluator raises itself, the internal [Return] signal, and any
    other Python exception, named by its class. *)
Inductive signal : Type :=
| RuntimeError (message : string)
| Return (value : val)
| HostError (class : string).

(** [class Environment]: [values] and [enclosing]. *)
Record frame : Type := mkFrame {
  values : gmap string val;
  enclosing : option loc
}.

(** [class Interpreter] with the store of the objects it can reach;
    [world] is the host's own state (console, clock, host objects). *)
Record interp (W : Type) : Type := mkInterp {
  frames : gmap loc frame;
  lists : gmap loc (list val);
  dicts : gmap loc (list (string * val));
  next : loc;
  globals : loc;
  environment : loc;
  world : W
}.
Arguments mkInterp {W}.
Arguments frames {W}.
Arguments lists {W}.
Arguments dicts {W}.
Arguments next {W}.
Arguments globals {W}.
Arguments environment {W}.
Arguments world {W}.

Definition I (W A : Type) : Type := comp (interp W) signal A.

(** What the host supplies: the built-in functions, and the behaviour of
    objects and attributes the evaluator does not define itself. *)
Record Host (W : Type) : Type := mkHost {
  native_call : native -> list val -> I W val;
  host_call : nat -> list val -> I W val;
  host_getattr : val -> string -> I W val;
  host_setattr : val -> string -> val -> I W unit;
  host_eq : val -> val -> I W bool
}.
Arguments native_call {W}.
Arguments host_call {W}.
Arguments host_getattr {W}.
Arguments host_setattr {W}.
Arguments host_eq {W}.

(** *** Operators on values (the helper methods; they use no state) *)

(** A value seen through [isinstance(v, (int, float))]; [bool] is a
    subclass of [int] in Python, so booleans count as integers. *)
Inductive number : Type :=
| NInt (z : Z)
| NFloat (f : spec_float).

Definition as_number (v : val) : option number :=
  match v with
  | VBool b => Some (NInt (if b then 1 else 0))
  | VInt z => Some (NInt z)
  | VFloat f => Some (NFloat f)
  | _ => None
  end.

(** [isinstance(v, int)] *)
Definition as_int (v : val) : option Z :=
  match v with
  | VBool b => Some (if b then 1 else 0)%Z
  | VInt z => Some z
  | _ => None
  end.

(** Sequencing of pure fallible steps. *)
Definition and_then {A B} (r : res signal A) (k : A -> res signal B)
  : res signal B :=
  match r with
  | Ok a => k a
  | Raise e => Raise e
  | Timeout => Timeout
  end.
Notation "x <- r ; k" := (and_then r (fun x => k))
  (at level 20, r at level 100, k at level 200, only parsing).

(** [v] if it is already a float, else the conversion Python applies to an
    integer operand of mixed arithmetic, which overflows for huge ones. *)
Definition to_float (n : number) : res signal spec_float :=
  match n with
  | NFloat f => Ok f
  | NInt z =>
      let f := PyNum.float_of_Z z in
      if PyNum.is_finite f then Ok f else Raise (HostError "OverflowError")
  end.

(** [left op right] for [+], [-], [*] on two numbers. *)
Definition arith (iop : Z -> Z -> Z) (fop : spec_float -> spec_float -> spec_float)
    (left right : number) : res signal val :=
  match left, right with
  | NInt a, NInt b => Ok (VInt (iop a b))
  | _, _ =>
      a <- to_float left; b <- to_float right; Ok (VFloat (fop a b))
  end.

(** [right == 0] on a number *)
Definition is_zero (n : number) : bool :=
  match n with
  | NInt z => (z =? 0)%Z
  | NFloat (S754_zero _) => true
  | NFloat _ => false
  end.

(** [left / right], [right] not zero: true division. *)
Definition true_divide (left right : number) : res signal val :=
  match left, right with
  | NInt a, NInt b =>
      let q := PyNum.float_of_quotient a b in
      if PyNum.is_finite q then Ok (VFloat q) else Raise (HostError "OverflowError")
  | _, _ =>
      a <- to_float left; b <- to_float right; Ok (VFloat (PyNum.fdiv a b))
  end.

(** Exact comparison of an integer with a float; [None] for NaN. *)
Definition compare_Z_float (z : Z) (f : spec_float) : option comparison :=
  match f with
  | S754_nan => None
  | S754_infinity s => Some (if s then Gt else Lt)
  | S754_zero _ => Some (z ?= 0)%Z
  | S754_finite s m e =>
      let v := (if s then Z.neg m else Z.pos m) in
      Some (if (0 <=? e)%Z then (z ?= v * 2 ^ e)%Z
            else (z * 2 ^ (- e) ?= v)%Z)
  end.

(** Numeric comparison as Python does it: exact, and unordered for NaN. *)
Definition compare_numbers (left right : number) : option comparison :=
  match left, right with
  | NInt a, NInt b => Some (a ?= b)%Z
  | NFloat a, NFloat b => SFcompare a b
  | NInt a, NFloat b => compare_Z_float a b
  | NFloat a, NInt b => option_map CompOpp (compare_Z_float b a)
  end.

Definition _is_truthy (value : val) : bool :=
  match value with
  | VNone => false
  | VBool b => b
  | _ => true
  end.

Definition _add (left right : val) : res signal val :=
  match as_number left, as_number right with
  | Some a, Some b => arith Z.add PyNum.fadd a b
  | _, _ =>
      match left, right with
      | VStr a, VStr b => Ok (VStr (a ++ b))
      | _, _ => Raise (RuntimeError "Operands must be two numbers or two strings")
      end
  end.

Definition _subtract (left right : val) : res signal val :=
  match as_number left, as_number right with
  | Some a, Some b => arith Z.sub PyNum.fsub a b
  | _, _ => Raise (RuntimeError "Operands must be numbers")
  end.

Definition _multiply (left right : val) : res signal val :=
  match as_number left, as_number right with
  | Some a, Some b => arith Z.mul PyNum.fmul a b
  | _, _ => Raise (RuntimeError "Operands must be numbers")
  end.

Definition _divide (left right : val) : res signal val :=
  match as_number left, as_number right with
  | Some a, Some b =>
      if is_zero b then Raise (RuntimeError "Division by zero")
      else true_divide a b
  | _, _ => Raise (RuntimeError "Operands must be numbers")
  end.

Definition _modulo (left right : val) : res signal val :=
  match as_int left, as_int right with
  | Some a, Some b =>
      if (b =? 0)%Z then Raise (RuntimeError "Modulo by zero")
      else Ok (VInt (a mod b))
  | _, _ => Raise (RuntimeError "Operands must be integers")
  end.

(** The four ordering operators share their shape; [holds] says which
    outcomes of the comparison make the operator true. *)
Definition ordering (holds : comparison -> bool) (left right : val)
  : res signal val :=
  match as_number left, as_number right with
  | Some a, Some b =>
      Ok (VBool (match compare_numbers a b with
                 | Some c => holds c
                 | None => false
                 end))
  | _, _ => Raise (RuntimeError "Operands must be numbers")
  end.

Definition _less : val -> val -> res signal val :=
  ordering (fun c => match c with Lt => true | _ => false end).

Definition _less_equal : val -> val -> res signal val :=
  ordering (fun c => match c with Gt => false | _ => true end).

Definition _greater : val -> val -> res signal val :=
  ordering (fun c => match c with Gt => true | _ => false end).

Definition _greater_equal : val -> val -> res signal val :=
  ordering (fun c => match c with Lt => false | _ => true end).

Definition _and (left right : val) : val :=
  VBool (_is_truthy left && _is_truthy right).

Definition _or (left right : val) : val :=
  VBool (_is_truthy left || _is_truthy right).

Definition _negate (value : val) : res signal val :=
  match value with
  | VBool b => Ok (VInt (if b then -1 else 0))
  | VInt z => Ok (VInt (- z))
  | VFloat f => Ok (VFloat (SFopp f))
  | _ => Raise (RuntimeError "Operand must be a number")
  end.

Definition _not (value : val) : val := VBool (negb (_is_truthy value)).

(** *** The store *)

Section Evaluator.
Context {W : Type} (host : Host W).

Definition set_frames (x : gmap loc frame) (st : interp W) : interp W :=
  mkInterp x (lists st) (dicts st) (next st) (globals st) (environment st)
           (world st).

Definition set_lists (x : gmap loc (list val)) (st : interp W) : interp W :=
  mkInterp (frames st) x (dicts st) (next st) (globals st) (environment st)
           (world st).

Definition set_dicts (x : gmap loc (list (string * val))) (st : interp W)
  : interp W :=
  mkInterp (frames st) (lists st) x (next st) (globals st) (environment st)
           (world st).

Definition set_next (x : loc) (st : interp W) : interp W :=
  mkInterp (frames st) (lists st) (dicts st) x (globals st) (environment st)
           (world st).

(** [self.environment = x] *)
Definition set_environment (x : loc) (st : interp W) : interp W :=
  mkInterp (frames st) (lists st) (dicts st) (next st) (globals st) x
           (world st).

(** The identity of a newly created object. *)
Definition fresh : I W loc :=
  fun st => (Ok (next st), set_next (S (next st)) st).

(** Python never holds a reference to an object that is gone; where the
    store of the model has no object at an identity, the operation fails
    with a host error. *)
Definition dangling : signal := HostError "SystemError".

(** [Environment(enclosing)] *)
Definition Environment (enclosing : option loc) : I W loc :=
  let! l := fresh in
  do! modify (fun st => set_frames (<[l := mkFrame ∅ enclosing]> (frames st)) st) in
  ret l.

(** [Environment.define] *)
Definition define (env : loc) (name : string) (value : val) : I W unit :=
  fun st =>
    match frames st !! env with
    | Some f =>
        (Ok tt,
         set_frames
           (<[env := mkFrame (<[name := value]> (values f)) (enclosing f)]>
              (frames st)) st)
    | None => (Raise dangling, st)
    end.

Definition undefined_variable (name : string) : signal :=
  RuntimeError ("Undefined variable '" ++ name ++ "'").

(** [Environment.get]: this frame, then the enclosing ones. [depth] bounds
    the length of the chain. *)
Fixpoint get_in (fs : gmap loc frame) (depth : nat) (env : loc) (name : string)
  : res signal val :=
  match depth with
  | 0 => Timeout
  | S depth' =>
      match fs !! env with
      | Some f =>
          match values f !! name with
          | Some v => Ok v
          | None =>
              match enclosing f with
              | Some outer => get_in fs depth' outer name
              | None => Raise (undefined_variable name)
              end
          end
      | None => Raise dangling
      end
  end.

(** [Environment.assign]: rebinds the name in the frame that has it. *)
Fixpoint assign_in (fs : gmap loc frame) (depth : nat) (env : loc)
    (name : string) (value : val) : res signal (gmap loc frame) :=
  match depth with
  | 0 => Timeout
  | S depth' =>
      match fs !! env with
      | Some f =>
          match values f !! name with
          | Some _ =>
              Ok (<[env := mkFrame (<[name := value]> (values f)) (enclosing f)]> fs)
          | None =>
              match enclosing f with
              | Some outer => assign_in fs depth' outer name value
              | None => Raise (undefined_variable name)
              end
          end
      | None => Raise dangling
      end
  end.

(** A chain of frames is no longer than the number of objects created. *)
Definition get (env : loc) (name : string) : I W val :=
  fun st => (get_in (frames st) (S (next st)) env name, st).

Definition assign (env : loc) (name : string) (value : val) : I W unit :=
  fun st =>
    match assign_in (frames st) (S (next st)) env name value with
    | Ok fs => (Ok tt, set_frames fs st)
    | Raise e => (Raise e, st)
    | Timeout => (Timeout, st)
    end.

(** [lookup_variable] and [assign_variable] use the current environment. *)
Definition lookup_variable (name : string) : I W val :=
  let! st := get_state in get (environment st) name.

Definition assign_variable (name : string) (value : val) : I W unit :=
  let! st := get_state in assign (environment st) name value.

(** A new Python list holding [elements]. *)
Definition new_list (elements : list val) : I W val :=
  let! l := fresh in
  do! modify (fun st => set_lists (<[l := elements]> (lists st)) st) in
  ret (VList l).

(** [d[key] = value] on the items of a dictionary, which keep the order in
    which their keys first came. *)
Fixpoint setitem (key : string) (value : val) (items : list (string * val))
  : list (string * val) :=
  match items with
  | (k, v) :: rest =>
      if String.eqb k key then (k, value) :: rest
      else (k, v) :: setitem key value rest
  | [] => [(key, value)]
  end.

(** [d[key]], if the key is there. *)
Fixpoint getitem (key : string) (items : list (string * val)) : option val :=
  match items with
  | (k, v) :: rest => if String.eqb k key then Some v else getitem key rest
  | [] => None
  end.

(** A new empty Python dictionary. *)
Definition new_dict : I W loc :=
  let! l := fresh in
  do! modify (fun st => set_dicts (<[l := []]> (dicts st)) st) in
  ret l.

Definition dict_setitem (l : loc) (key : string) (value : val) : I W unit :=
  fun st =>
    match dicts st !! l with
    | Some items =>
        (Ok tt, set_dicts (<[l := setitem key value items]> (dicts st)) st)
    | None => (Raise dangling, st)
    end.

(** *** Attributes

    [getattr] and [setattr] are Python's. A dictionary's attributes are
    those of its class, never its keys: the public methods of [dict] and
    the names that start with two underscores. What such an attribute is
    (a bound method, ...) is the host's business; any other name raises
    [AttributeError]. Attributes of the other kinds of object are left to
    the host altogether. *)

Definition dict_methods : list string :=
  ["clear"; "copy"; "fromkeys"; "get"; "items"; "keys"; "pop"; "popitem";
   "setdefault"; "update"; "values"].

Definition is_dunder (name : string) : bool := String.prefix "__" name.

Definition dict_has_attribute (name : string) : bool :=
  existsb (String.eqb name) dict_methods || is_dunder name.

Definition getattr (object_ : val) (name : string) : I W val :=
  match object_ with
  | VDict _ =>
      if dict_has_attribute name then host_getattr host object_ name
      else raise (HostError "AttributeError")
  | _ => host_getattr host object_ name
  end.

(** An instance of [dict] accepts no attribute assignment: an unknown name
    and a method name both raise [AttributeError]. *)
Definition setattr (object_ : val) (name : string) (value : val) : I W unit :=
  match object_ with
  | VDict _ =>
      if is_dunder name then host_setattr host object_ name value
      else raise (HostError "AttributeError")
  | _ => host_setattr host object_ name value
  end.

(** *** Equality ([left == right])

    Numbers compare by value across [bool], [int] and [float]; strings by
    content; lists and dictionaries by content, element by element;
    functions by identity. [depth] bounds the nesting of containers. The
    shortcut by which CPython takes an element to be equal to itself is
    modelled for containers (an object equals itself) but not for a NaN
    stored in two places. *)

Definition native_eqb (a b : native) : bool :=
  match a, b with
  | _print, _print | _len, _len | _range, _range | _input, _input
  | _int, _int | _float, _float | _string, _string | _bool, _bool
  | _random, _random | _time, _time | _sleep, _sleep | _clear, _clear
  | _append, _append | _remove, _remove | _sort, _sort
  | _reverse, _reverse | _find, _find | _replace, _replace
  | _split, _split | _join, _join | _upper, _upper | _lower, _lower
  | _round, _round | _floor, _floor | _ceil, _ceil | _abs, _abs
  | _sqrt, _sqrt | _pow, _pow | _sin, _sin | _cos, _cos | _tan, _tan
  | _log, _log | _exp, _exp | _min, _min | _max, _max | _sum, _sum
  | _average, _average | _count, _count | _copy, _copy
  | _delete, _delete | _check, _check | _convert, _convert
  | _format, _format | _validate, _validate | _error, _error => true
  | _, _ => false
  end.

Fixpoint py_eq (depth : nat) (left right : val) : I W bool :=
  match depth with
  | 0 => timeout
  | S depth' =>
      let fix all_eq (xs ys : list val) : I W bool :=
        match xs, ys with
        | x :: xs', y :: ys' =>
            let! e := py_eq depth' x y in
            if e then all_eq xs' ys' else ret false
        | [], [] => ret true
        | _, _ => ret false
        end in
      let fix items_in (items other : list (string * val)) : I W bool :=
        match items with
        | (k, v) :: rest =>
            match getitem k other with
            | Some v' =>
                let! e := py_eq depth' v v' in
                if e then items_in rest other else ret false
            | None => ret false
            end
        | [] => ret true
        end in
      match left, right with
      | VHost _, _ | _, VHost _ => host_eq host left right
      | VNone, VNone => ret true
      | VStr a, VStr b => ret (String.eqb a b)
      | VList a, VList b =>
          if Nat.eqb a b then ret true
          else
            let! st := get_state in
            match lists st !! a, lists st !! b with
            | Some xs, Some ys =>
                if Nat.eqb (length xs) (length ys) then all_eq xs ys
                else ret false
            | _, _ => raise dangling
            end
      | VDict a, VDict b =>
          if Nat.eqb a b then ret true
          else
            let! st := get_state in
            match dicts st !! a, dicts st !! b with
            | Some xs, Some ys =>
                if Nat.eqb (length xs) (length ys) then items_in xs ys
                else ret false
            | _, _ => raise dangling
            end
      | VFunction a _ _, VFunction b _ _ => ret (Nat.eqb a b)
      | VNative a, VNative b => ret (native_eqb a b)
      | _, _ =>
          match as_number left, as_number right with
          | Some a, Some b =>
              ret (match compare_numbers a b with
                   | Some Eq => true
                   | _ => false
                   end)
          | _, _ => ret false
          end
      end
  end.

(** Containers nest no deeper than the number of objects created. *)
Definition _equal (left right : val) : I W val :=
  let! st := get_state in
  let! e := py_eq (S (next st)) left right in ret (VBool e).

Definition _not_equal (left right : val) : I W val :=
  let! st := get_state in
  let! e := py_eq (S (next st)) left right in ret (VBool (negb e)).

(** A pure result as a step of the evaluator. *)
Definition lift {A} (r : res signal A) : I W A := fun st => (r, st).

(** A Python attribute that the object may lack. *)
Definition attribute {A} (field : option A) : I W A :=
  match field with
  | Some a => ret a
  | None => raise (HostError "AttributeError")
  end.

(** [declaration.parameters] *)
Definition parameters_of (declaration : node) : option (list FnParameter) :=
  match declaration with
  | FunctionDeclaration _ parameters _ _ => Some parameters
  | _ => None
  end.

(** [declaration.body.statements] *)
Definition body_statements (declaration : node) : option (list node) :=
  match declaration with
  | FunctionDeclaration _ _ _ (BlockStatement statements)
  | FunctionDeclaration _ _ _ (Program statements) => Some statements
  | _ => None
  end.

(** *** The visitor

    [node.accept(self)] calls the visit method of the node's class, and the
    visit methods call [self.execute] and [self.evaluate], which call
    [accept] again. Inside this section [accept] is that recursive call, one
    level further down, and [fuel] bounds the turns of a loop. *)

Section Visitor.
Variable accept : node -> I W val.
Variable fuel : nat.

Definition execute (statement : node) : I W unit :=
  do! accept statement in ret tt.

Definition evaluate (expression : node) : I W val := accept expression.

(** [for statement in statements: self.execute(statement)] *)
Fixpoint execute_all (statements : list node) : I W unit :=
  match statements with
  | statement :: rest => do! execute statement in execute_all rest
  | [] => ret tt
  end.

(** The values of a list of expressions, evaluated left to right. *)
Fixpoint evaluate_all (expressions : list node) : I W (list val) :=
  match expressions with
  | expression :: rest =>
      let! v := evaluate expression in
      let! vs := evaluate_all rest in
      ret (v :: vs)
  | [] => ret []
  end.

Definition execute_block (statements : list node) (environment : loc)
  : I W unit :=
  let! st := get_state in
  let previous := Interp.environment st in
  try_finally
    (do! modify (set_environment environment) in
     execute_all statements)
    (set_environment previous).

(** [for param, arg in zip(...): environment.define(param.name, arg)] *)
Fixpoint define_all (environment : loc) (bindings : list (FnParameter * val))
  : I W unit :=
  match bindings with
  | (param, arg) :: rest =>
      do! define environment (param_name param) arg in
      define_all environment rest
  | [] => ret tt
  end.

(** [HixaFunction.call] *)
Definition HixaFunction_call (declaration : node) (closure : loc)
    (arguments : list val) : I W val :=
  let! environment := Environment (Some closure) in
  let! parameters := attribute (parameters_of declaration) in
  do! define_all environment (zip parameters arguments) in
  let! statements := attribute (body_statements declaration) in
  try_except
    (do! execute_block statements environment in ret VNone)
    (fun e => match e with
              | Return value => Some (ret value)
              | _ => None
              end).

Definition visit_program (statements : list node) : I W val :=
  do! execute_all statements in ret VNone.

Definition visit_function_declaration (node : node) (name : string)
  : I W val :=
  let! st := get_state in
  let! id := fresh in
  let function := VFunction id node (environment st) in
  do! define (environment st) name function in
  ret VNone.

Definition visit_variable_declaration (name : string)
    (initializer : option node) : I W val :=
  let! value :=
    (match initializer with
     | Some e => evaluate e
     | None => ret VNone
     end) in
  let! st := get_state in
  do! define (environment st) name value in
  ret VNone.

Definition unknown_binary_operator (operator : string) : signal :=
  RuntimeError ("Unknown binary operator: " ++ operator).

Definition visit_binary_expression (left : node) (operator : string)
    (right : node) : I W val :=
  let! left := evaluate left in
  let! right := evaluate right in
  if String.eqb operator "+" then lift (_add left right)
  else if String.eqb operator "-" then lift (_subtract left right)
  else if String.eqb operator "*" then lift (_multiply left right)
  else if String.eqb operator "/" then lift (_divide left right)
  else if String.eqb operator "%" then lift (_modulo left right)
  else if String.eqb operator "==" then _equal left right
  else if String.eqb operator "!=" then _not_equal left right
  else if String.eqb operator "<" then lift (_less left right)
  else if String.eqb operator "<=" then lift (_less_equal left right)
  else if String.eqb operator ">" then lift (_greater left right)
  else if String.eqb operator ">=" then lift (_greater_equal left right)
  else if String.eqb operator "&&" then ret (_and left right)
  else if String.eqb operator "||" then ret (_or left right)
  else raise (unknown_binary_operator operator).

Definition visit_unary_expression (operator : string) (operand : node)
  : I W val :=
  let! right := evaluate operand in
  if String.eqb operator "-" then lift (_negate right)
  else if String.eqb operator "!" then ret (_not right)
  else raise (RuntimeError ("Unknown unary operator: " ++ operator)).

(** [node.value] of a literal as a runtime value. *)
Definition constant_value (c : constant) : val :=
  match c with
  | CNone => VNone
  | CBool b => VBool b
  | CInt z => VInt z
  | CFloat f => VFloat f
  | CStr s => VStr s
  end.

Definition visit_literal (value : constant) : I W val :=
  ret (constant_value value).

Definition visit_identifier (name : string) : I W val := lookup_variable name.

Definition arity_mismatch (expected actual : nat) : signal :=
  RuntimeError ("Expected " ++ str_nat expected ++ " arguments but got "
                  ++ str_nat actual).

Definition visit_call_expression (callee : node) (arguments : list node)
  : I W val :=
  let! callee := evaluate callee in
  let! arguments := evaluate_all arguments in
  match callee with
  | VFunction _ declaration closure =>
      let! parameters := attribute (parameters_of declaration) in
      if negb (Nat.eqb (length arguments) (length parameters)) then
        raise (arity_mismatch (length parameters) (length arguments))
      else HixaFunction_call declaration closure arguments
  | VNative n => native_call host n arguments
  | VHost h => host_call host h arguments
  | _ => raise (RuntimeError "Can only call functions")
  end.

Definition visit_block_statement (statements : list node) : I W val :=
  let! st := get_state in
  let! inner := Environment (Some (environment st)) in
  do! execute_block statements inner in
  ret VNone.

Definition visit_if_statement (condition then_branch : node)
    (else_branch : option node) : I W val :=
  let! c := evaluate condition in
  do! (if _is_truthy c then execute then_branch
       else match else_branch with
            | Some s => execute s
            | None => ret tt
            end) in
  ret VNone.

Definition visit_while_statement (condition body : node) : I W val :=
  loop fuel (fun _ : unit =>
    let! c := evaluate condition in
    if _is_truthy c then do! execute body in ret (inl tt)
    else ret (inr VNone)) tt.

Definition visit_for_statement (initializer condition increment : option node)
    (body : node) : I W val :=
  do! (match initializer with
       | Some s => execute s
       | None => ret tt
       end) in
  loop fuel (fun _ : unit =>
    let! go :=
      (match condition with
       | Some e => let! c := evaluate e in ret (_is_truthy c)
       | None => ret true
       end) in
    if go then
      do! execute body in
      do! (match increment with
           | Some e => do! evaluate e in ret tt
           | None => ret tt
           end) in
      ret (inl tt)
    else ret (inr VNone)) tt.

Definition visit_return_statement (value : option node) : I W val :=
  let! value :=
    (match value with
     | Some e => evaluate e
     | None => ret VNone
     end) in
  raise (Return value).

Definition only_identifiers : signal :=
  RuntimeError "Only identifiers can be used as object properties".

Definition visit_assignment_expression (target value : node) : I W val :=
  let! value := evaluate value in
  do! (match target with
       | Identifier name => assign_variable name value
       | MemberExpression object_ property _ =>
           let! object_ := evaluate object_ in
           match property with
           | Identifier name => setattr object_ name value
           | _ => raise only_identifiers
           end
       | _ => raise (RuntimeError "Invalid assignment target")
       end) in
  ret value.

Definition visit_member_expression (object_ property : node) : I W val :=
  let! object_ := evaluate object_ in
  match property with
  | Identifier name => getattr object_ name
  | _ => raise only_identifiers
  end.

Definition visit_array_expression (elements : list node) : I W val :=
  let! elements := evaluate_all elements in
  new_list elements.

(** [for property_ in node.properties: obj[property_.key] = ...] *)
Fixpoint set_properties (obj : loc) (properties : list (string * node))
  : I W unit :=
  match properties with
  | (key, value) :: rest =>
      let! v := evaluate value in
      do! dict_setitem obj key v in
      set_properties obj rest
  | [] => ret tt
  end.

Definition visit_object_expression (properties : list (string * node))
  : I W val :=
  let! obj := new_dict in
  do! set_properties obj properties in
  ret (VDict obj).

Definition visit_index_expression (array index : node) : I W val :=
  let! array := evaluate array in
  let! index := evaluate index in
  match array with
  | VList l =>
      match as_int index with
      | Some i =>
          let! st := get_state in
          match lists st !! l with
          | Some elements =>
              if ((i <? 0) || (Z.of_nat (length elements) <=? i))%Z then
                raise (RuntimeError "Array index out of bounds")
              else
                match elements !! Z.to_nat i with
                | Some v => ret v
                | None => raise (HostError "IndexError")
                end
          | None => raise dangling
          end
      | None => raise (RuntimeError "Array index must be an integer")
      end
  | _ => raise (RuntimeError "Only arrays can be indexed")
  end.

(** [node.accept(self)]: double dispatch on the node's class. *)
Definition accept_node (n : node) : I W val :=
  match n with
  | Program statements => visit_program statements
  | FunctionDeclaration name _ _ _ => visit_function_declaration n name
  | VariableDeclaration name _ initializer =>
      visit_variable_declaration name initializer
  | BinaryExpression lhs operator rhs =>
      visit_binary_expression lhs operator rhs
  | UnaryExpression operator operand => visit_unary_expression operator operand
  | Literal value _ => visit_literal value
  | Identifier name => visit_identifier name
  | CallExpression callee arguments => visit_call_expression callee arguments
  | AssignmentExpression target _ value =>
      visit_assignment_expression target value
  | MemberExpression object_ property _ =>
      visit_member_expression object_ property
  | ArrayExpression elements => visit_array_expression elements
  | ObjectExpression properties => visit_object_expression properties
  | IndexExpression array index => visit_index_expression array index
  | BlockStatement statements => visit_block_statement statements
  | IfStatement condition then_branch else_branch =>
      visit_if_statement condition then_branch else_branch
  | WhileStatement condition body => visit_while_statement condition body
  | ForStatement initializer condition increment body =>
      visit_for_statement initializer condition increment body
  | ReturnStatement value => visit_return_statement value
  end.

End Visitor.

(** [accept] with [fuel] levels of recursion left. *)
Fixpoint accept (fuel : nat) (n : node) : I W val :=
  match fuel with
  | 0 => timeout
  | S fuel' => accept_node (accept fuel') fuel' n
  end.

(** [Interpreter.interpret]: the handler re-raises what it catches. *)
Definition interpret (fuel : nat) (statements : list node) : I W unit :=
  try_except
    (execute_all (accept fuel) statements)
    (fun e => match e with
              | RuntimeError message => Some (raise (RuntimeError message))
              | _ => None
              end).

(** The names [_init_stdlib] defines in the global environment. *)
Definition stdlib : list (string * native) :=
  [ ("print", _print); ("len", _len); ("range", _range); ("input", _input);
    ("int", _int); ("float", _float); ("string", _string); ("bool", _bool);
    ("print_kora", _print); ("likha", _print); ("length_kora", _len);
    ("input_lou", _input); ("random_kora", _random); ("time_kora", _time);
    ("sleep_kora", _sleep); ("clear_kora", _clear); ("add_kora", _append);
    ("remove_kora", _remove); ("sort_kora", _sort);
    ("reverse_kora", _reverse); ("bisora", _find);
    ("replace_kora", _replace); ("split_kora", _split);
    ("join_kora", _join); ("upper_kora", _upper); ("lower_kora", _lower);
    ("round_kora", _round); ("floor_kora", _floor); ("ceil_kora", _ceil);
    ("abs_kora", _abs); ("sqrt_kora", _sqrt); ("pow_kora", _pow);
    ("sin_kora", _sin); ("cos_kora", _cos); ("tan_kora", _tan);
    ("log_kora", _log); ("exp_kora", _exp); ("min_kora", _min);
    ("max_kora", _max); ("sum_kora", _sum); ("average_kora", _average);
    ("count_kora", _count); ("copy_kora", _copy); ("delete_kora", _delete);
    ("check_kora", _check); ("convert_kora", _convert);
    ("format_kora", _format); ("validate_kora", _validate);
    ("error_kora", _error) ].

(** [Interpreter.__init__]: the global frame, seeded with the built-ins, is
    the current environment. *)
Definition Interpreter (w : W) : interp W :=
  let seeded :=
    fold_left (fun m b => <[fst b := VNative (snd b)]> m) stdlib ∅ in
  {| frames := {[ 0 := mkFrame seeded None ]};
     lists := ∅; dicts := ∅; next := 1;
     globals := 0; environment := 0; world := w |}.

End Evaluator.

(** A host with no built-in behaviour at all: every request fails with
    [NotImplementedError]. It serves to run programs that ask the host for
    nothing. *)
Definition bare_host : Host unit :=
  {| native_call := fun _ _ => raise (HostError "NotImplementedError");
     host_call := fun _ _ => raise (HostError "NotImplementedError");
     host_getattr := fun _ _ => raise (HostError "NotImplementedError");
     host_setattr := fun _ _ _ => raise (HostError "NotImplementedError");
     host_eq := fun _ _ => raise (HostError "NotImplementedError") |}.

(** Lex, parse and interpret a source text on the bare host. *)
Definition run (fuel : nat) (src : string) : option (res signal unit * interp unit) :=
  match Parser.parse_source src with
  | Ok (Ok (Program statements), []) =>
      Some (interpret bare_host fuel statements (Interpreter tt))
  | _ => None
  end.

End Interp.

(** * Vocabulary of the statements *)

Section Vocabulary.
Import Lexer Ast Interp.

(** The keywords that have a spelling in both vocabularies, as the grammar
    pairs their kinds (a test for the kind LET is always followed by a test
    for the kind DHORA, and so on): primary spelling and kind, alias
    spelling and kind. *)
Definition alias_pairs : list ((string * TokenType) * (string * TokenType)) :=
  [ (("fn", FN), ("kam", KAM));
    (("let", LET), ("dhora", DHORA));
    (("if", IF), ("jodi", JODI));
    (("else", ELSE), ("nohole", NOHOLE));
    (("while", WHILE), ("jetialoike", JETIALOIKE));
    (("for", FOR), ("karone", KARONE));
    (("return", RETURN), ("ghurai_diya", GHAURAI_DIYA));
    (("true", TRUE), ("hosa", HOSA));
    (("false", FALSE), ("misa", MISA));
    (("null", NULL), ("nai", NAI)) ].

(** Two tokens that agree on everything but the lexeme. *)
Definition equal_except_lexeme (a b : Token) : Prop :=
  type a = type b /\ line a = line b /\ column a = column b.

(** What tokenizing the two spellings of a pair gives: as the only word of
    a source text, and wherever the lexer stands when it builds the token.
    The lexemes are the spellings, line and column agree, and the kinds are
    the two kinds of the pair. *)
Definition alias_tokens (pair : (string * TokenType) * (string * TokenType))
  : Prop :=
  let '((p, kp), (a, ka)) := pair in
  kp <> ka
  /\ lex p = Ok [mkToken kp p 1 1; mkToken EOF "" 1 (1 + String.length p)]
  /\ lex a = Ok [mkToken ka a 1 1; mkToken EOF "" 1 (1 + String.length a)]
  /\ forall lx : lexer,
       let tp := _create_token lx IDENTIFIER p in
       let ta := _create_token lx IDENTIFIER a in
       type tp = kp /\ type ta = ka
       /\ value tp = p /\ value ta = a
       /\ line tp = line ta /\ column tp = column ta.

Definition int_literal (z : Z) : node := Literal (CInt z) "int".

(** The line break between two statements. *)
Definition line_break : string := String Lexer.newline "".

(** A number as the operators test for it: an [int] or a [float], where
    Python counts a boolean as an [int]. *)
Definition is_number (v : val) : Prop := as_number v <> None.

(** An integer as [_modulo] tests for it. *)
Definition is_integer (v : val) : Prop := as_int v <> None.

(** The runtime error an operator raises for operands of the wrong type. *)
Definition type_error (r : res signal val) : Prop :=
  r = Raise (RuntimeError "Operands must be numbers")
  \/ r = Raise (RuntimeError "Operands must be integers").

(** A step that leaves [self.environment] as it found it, however it
    ends. *)
Definition keeps_environment {W A} (m : I W A) : Prop :=
  forall st, environment (snd (m st)) = environment st.

(** A statement inside [depth] nested blocks. *)
Fixpoint in_blocks (depth : nat) (statement : node) : node :=
  match depth with
  | 0 => statement
  | S depth' => BlockStatement [in_blocks depth' statement]
  end.

(** A return statement whose expression is absent or a literal, and the
    value it carries. *)
Definition return_of (value : option (constant * string)) : node :=
  ReturnStatement (option_map (fun '(c, t) => Literal c t) value).

Definition returned (value : option (constant * string)) : val :=
  match value with
  | Some (c, _) => constant_value c
  | None => VNone
  end.

(** The object literal [{a: 1}], the declaration [fn f(a, b) { return a; }]
    and the evaluator state right after that declaration has been executed
    at the top level. *)
Definition object_a_1 : node := ObjectExpression [Property "a" (int_literal 1)].

Definition fn_f_a_b : node :=
  FunctionDeclaration "f" [mkParameter "a" None; mkParameter "b" None] None
    (BlockStatement [ReturnStatement (Some (Identifier "a"))]).

Definition with_f : interp unit :=
  snd (accept bare_host 2 fn_f_a_b (Interpreter tt)).

End Vocabulary.

(** * Vocabulary of the further properties *)

Section FurtherVocabulary.
Import Lexer Ast Interp.

Definition is_string (v : val) : Prop := exists s, v = VStr s.

(** A zero right operand: the integer 0, the boolean false, or a float
    zero of either sign. *)
Definition is_zero_number (v : val) : Prop :=
  exists n, as_number v = Some n /\ is_zero n = true.

(** A value that Python's [==] finds equal to itself inside the model:
    anything but a NaN and a host object. *)
Definition self_equal (v : val) : Prop :=
  v <> VFloat S754_nan /\ forall h, v <> VHost h.

(** The shape of the frames the evaluator builds: every frame is older
    than the next identity, and its enclosing frame exists and is older than
    the frame itself. *)
Definition well_nested {W} (st : interp W) : Prop :=
  forall l f, frames st !! l = Some f ->
    l < next st
    /\ forall o, enclosing f = Some o -> o < l /\ is_Some (frames st !! o).

(** The same constraint on the frames alone. *)
Definition nested (fs : gmap loc frame) : Prop :=
  forall l f, fs !! l = Some f ->
    forall o, enclosing f = Some o -> o < l /\ is_Some (fs !! o).

(** [Environment.get] as a relation: the binding of the nearest frame of
    the chain that has one, or the error at the end of the chain. *)
Inductive resolves (fs : gmap loc frame) (name : string)
  : loc -> res signal val -> Prop :=
| resolves_here env f v :
    fs !! env = Some f -> values f !! name = Some v ->
    resolves fs name env (Ok v)
| resolves_outer env f outer r :
    fs !! env = Some f -> values f !! name = None ->
    enclosing f = Some outer -> resolves fs name outer r ->
    resolves fs name env r
| resolves_nowhere env f :
    fs !! env = Some f -> values f !! name = None ->
    enclosing f = None ->
    resolves fs name env (Raise (undefined_variable name)).

(** The name [n] has a binding in the frame [l] itself. *)
Definition bound_in {W} (st : interp W) (l : loc) (n : string) : Prop :=
  exists f, frames st !! l = Some f /\ is_Some (values f !! n).

(** The state of a fresh interpreter after a block frame has been opened
    on the global frame. *)
Definition block_frame_state : interp unit :=
  snd (Environment (Some 0) (Interpreter tt)).

(** The properties of an object literal whose values are literals, and the
    items of the dictionary it denotes. *)
Definition literal_properties (ps : list (string * (constant * string)))
  : list (string * node) :=
  map (fun p => Property (fst p) (Literal (fst (snd p)) (snd (snd p)))) ps.

Definition literal_items (ps : list (string * (constant * string)))
  : list (string * val) :=
  fold_left (fun items p => setitem (fst p) (constant_value (fst (snd p))) items)
            ps [].

(** The operator spellings [visit_binary_expression] and
    [visit_unary_expression] know. *)
Definition binary_operators : list string :=
  ["+"; "-"; "*"; "/"; "%"; "=="; "!="; "<"; "<="; ">"; ">="; "&&"; "||"].

Definition unary_operators : list string := ["-"; "!"].

(** The bindings of a call frame: each parameter name to the argument at
    its position, a later duplicate name replacing an earlier one. *)
Definition call_bindings (parameters : list FnParameter) (arguments : list val)
  : gmap string val :=
  fold_left (fun m b => <[param_name (fst b) := snd b]> m)
            (zip parameters arguments) ∅.

(** The members of [TokenType] in declaration order, Python's
    [list(TokenType)]. *)
Definition token_types : list TokenType :=
  [INT; FLOAT; STRING; BOOLEAN; IDENTIFIER; KAM; GHAURAI_DIYA; JODI;
    NOHOLE; NAHOLE; JETIALOIKE; KARONE; HEKH; HOSA; MISA; NAI; ARU; BA;
    NOT_KORA; DHORA; LIST; DICTIONARY; BREAK_KORA; CONTINUE_KORA; IMPORT;
    MAIN; PASS_KORA; INPUT_LOU; PRINT_KORA; POHA; LIKHA; OPEN_KORA;
    CLOSE_KORA; RANDOM_KORA; TIME_KORA; SLEEP_KORA; CLEAR_KORA;
    LENGTH_KORA; ADD_KORA; REMOVE_KORA; SORT_KORA; REVERSE_KORA; BISORA;
    REPLACE_KORA; SPLIT_KORA; JOIN_KORA; UPPER_KORA; LOWER_KORA;
    ROUND_KORA; FLOOR_KORA; CEIL_KORA; ABS_KORA; SQRT_KORA; POW_KORA;
    SIN_KORA; COS_KORA; TAN_KORA; LOG_KORA; EXP_KORA; MIN_KORA; MAX_KORA;
    SUM_KORA; AVERAGE_KORA; COUNT_KORA; COPY_KORA; DELETE_KORA; CHECK_KORA;
    CONVERT_KORA; FORMAT_KORA; VALIDATE_KORA; ERROR_KORA; TRY_KORA;
    CATCH_KORA; FINALLY_KORA; LET; FN; IF; ELSE; WHILE; FOR; IN; RETURN;
    CLASS; SELF; TRUE; FALSE; NULL; PLUS; MINUS; MULTIPLY; DIVIDE; MODULO;
    ASSIGN; EQUAL; NOT_EQUAL; LESS; LESS_EQUAL; GREATER; GREATER_EQUAL;
    AND; OR; NOT; LPAREN; RPAREN; LBRACE; RBRACE; LBRACKET; RBRACKET;
    SEMICOLON; COMMA; DOT; COLON; ARROW; PIPE; EOF; NEWLINE; COMMENT ].

(** The member with a given [auto()] value. *)
Definition of_auto (n : positive) : option TokenType :=
  nth_error token_types (Pos.to_nat n - 1).

(** A token that is neither the end marker nor one of the two kinds the
    parser has no rule for. *)
Definition ordinary (t : Token) : Prop :=
  type t <> EOF /\ type t <> NEWLINE /\ type t <> COMMENT.

(** A token whose kind is named by [self.patterns] or by [self.keywords],
    comments apart. *)
Definition scanned (t : Token) : Prop :=
  In (type t) (map fst Lexer.patterns ++ map snd Lexer.keywords)
  /\ type t <> COMMENT.

(** Where [synchronize] may stop: at the end marker, at a token that
    starts a statement, or right after a semicolon. *)
Definition resumption_point (p : Parser.parser) : Prop :=
  (exists t, Parser.tokens p !! Parser.current p = Some t
             /\ (type t = EOF \/ In (type t) Parser.statement_starts))
  \/ (exists t, Parser.previous p = (Ok t, p) /\ type t = SEMICOLON).

(** The precedence level of a binary operator kind, from the method of the
    parser that consumes it: [or_expression] is the loosest, [factor] the
    tightest. *)
Definition level (kind : TokenType) : option nat :=
  match kind with
  | OR | BA => Some 1
  | AND | ARU => Some 2
  | NOT_EQUAL | EQUAL => Some 3
  | GREATER | GREATER_EQUAL | LESS | LESS_EQUAL => Some 4
  | MINUS | PLUS => Some 5
  | DIVIDE | MULTIPLY | MODULO => Some 6
  | _ => None
  end.

(** The expression parser run on a token list. *)
Definition parse_expression_tokens (toks : list Token) : res Parser.exn node :=
  fst (Parser.do_expression (Parser.methods (Parser.depth_for toks))
         (Parser.Parser toks)).


(** What it means for the parser to be well behaved on a token list.

    [ends_at toks k]: the end marker is the token at index [k] and no token
    before it is one. *)
Definition ends_at (toks : list Token) (k : nat) : Prop :=
  (exists eof, toks !! k = Some eof /\ type eof = EOF)
  /\ forall i t, i < k -> toks !! i = Some t -> type t <> EOF.

(** [steps toks k c m Q E]: started with the cursor at [c], the parser
    computation [m] ends within the turns it has; it leaves the token list
    as it is and the cursor at or before the end marker; a result [a] with
    the cursor at [c'] satisfies [Q a c'], an exception [e] satisfies
    [E e c']. *)
Definition steps (toks : list Token) (k : nat) {A : Type} (c : nat)
    (m : Parser.P A) (Q : A -> nat -> Prop) (E : Parser.exn -> nat -> Prop)
  : Prop :=
  forall s,
    Parser.tokens s = toks -> Parser.current s = c -> c <= k ->
    match m s with
    | (Ok a, s') =>
        Parser.tokens s' = toks /\ Parser.current s' <= k
        /\ Q a (Parser.current s')
    | (Raise e, s') =>
        Parser.tokens s' = toks /\ Parser.current s' <= k
        /\ E e (Parser.current s')
    | (Timeout, _) => False
    end.

(** A grammar method of rank [rank] at recursion depth [n]: where the depth
    is enough for the tokens that are left, it consumes at least one token
    when it returns and none backwards when it raises. *)
Definition moving (toks : list Token) (k n rank : nat) {A : Type}
    (m : Parser.P A) : Prop :=
  forall c,
    rank + 16 * (k - c) < n ->
    steps toks k c m (fun _ c' => c < c') (fun _ c' => c <= c').

(** [declaration] never raises, and moves on unless it starts at the end
    marker. *)
Definition recovering (toks : list Token) (k n rank : nat) {A : Type}
    (m : Parser.P A) : Prop :=
  forall c,
    rank + 16 * (k - c) < n ->
    steps toks k c m (fun _ c' => c <= c' /\ (c < k -> c < c'))
      (fun _ _ => False).

(** The methods of [self] are well behaved at depth [n]. *)
Definition sound_methods (toks : list Token) (k n : nat) (self : Parser.Self)
  : Prop :=
  moving toks k n 15 (Parser.do_block_statement self)
  /\ recovering toks k n 14 (Parser.do_declaration self)
  /\ moving toks k n 13 (Parser.do_statement self)
  /\ moving toks k n 12 (Parser.do_variable_declaration self)
  /\ moving toks k n 11 (Parser.do_expression_statement self)
  /\ moving toks k n 10 (Parser.do_expression self)
  /\ moving toks k n 9 (Parser.do_assignment self)
  /\ moving toks k n 8 (Parser.do_or_expression self)
  /\ moving toks k n 7 (Parser.do_and_expression self)
  /\ moving toks k n 6 (Parser.do_equality self)
  /\ moving toks k n 5 (Parser.do_comparison self)
  /\ moving toks k n 4 (Parser.do_term self)
  /\ moving toks k n 3 (Parser.do_factor self)
  /\ moving toks k n 2 (Parser.do_unary self)
  /\ moving toks k n 1 (Parser.do_call self)
  /\ moving toks k n 0 (Parser.do_primary self).

(** [recorded e p]: the exception carries the message that was recorded
    last; [IndexError] carries none. *)
Definition recorded (e : Parser.exn) (p : Parser.parser) : Prop :=
  forall message, e = Parser.SyntaxError message ->
                  last (Parser.errors p) = Some message.

(** [reports m Q]: the parser computation [m] only adds to the recorded
    errors; a result satisfies [Q]; and when it raises a syntax error, the
    message of the exception is the one recorded last. Running out of
    turns is not its concern. *)
Definition reports {A : Type} (m : Parser.P A) (Q : A -> Prop) : Prop :=
  forall s,
    match m s with
    | (Ok a, s') =>
        Q a /\ exists more, Parser.errors s' = Parser.errors s ++ more
    | (Raise e, s') =>
        (exists more, Parser.errors s' = Parser.errors s ++ more)
        /\ recorded e s'
    | (Timeout, _) => True
    end.

(** Every method of [self] reports its errors. *)
Definition reporting_methods (self : Parser.Self) : Prop :=
  reports (Parser.do_declaration self) (fun _ => True)
  /\ reports (Parser.do_statement self) (fun _ => True)
  /\ reports (Parser.do_block_statement self) (fun _ => True)
  /\ reports (Parser.do_variable_declaration self) (fun _ => True)
  /\ reports (Parser.do_expression_statement self) (fun _ => True)
  /\ reports (Parser.do_expression self) (fun _ => True)
  /\ reports (Parser.do_assignment self) (fun _ => True)
  /\ reports (Parser.do_or_expression self) (fun _ => True)
  /\ reports (Parser.do_and_expression self) (fun _ => True)
  /\ reports (Parser.do_equality self) (fun _ => True)
  /\ reports (Parser.do_comparison self) (fun _ => True)
  /\ reports (Parser.do_term self) (fun _ => True)
  /\ reports (Parser.do_factor self) (fun _ => True)
  /\ reports (Parser.do_unary self) (fun _ => True)
  /\ reports (Parser.do_call self) (fun _ => True)
  /\ reports (Parser.do_primary self) (fun _ => True).

End FurtherVocabulary.

(** * Properties of the front-end *)

(** ** Keyword aliases *)

(** C3, amended: for every keyword alias pair, tokenizing either spelling at
    the same source position yields tokens with the same line and column
    whose lexemes are the two spellings; their kinds are the two distinct
    kinds of the pair (LET and DHORA, FN and KAM, ...), one per vocabulary,
    not one shared kind. *)
Theorem alias_spellings_keep_their_own_kind :
  Forall alias_tokens alias_pairs.
Proof.
  unfold alias_pairs.
  repeat (apply List.Forall_cons; [ | ]); try apply List.Forall_nil;
    unfold alias_tokens;
    (split; [ discriminate | ]);
    (split; [ vm_compute; reflexivity | ]);
    (split; [ vm_compute; reflexivity | ]);
    intros lx; cbn; repeat split; reflexivity.
Qed.

(** C3 as stated fails: the tokens of [let] and [dhora], both at line 1,
    column 1, differ in kind as well as in lexeme. *)
Lemma let_and_dhora_tokens_differ_in_kind :
  exists t1 t2 e1 e2,
    Lexer.lex "let" = Ok [t1; e1] /\ Lexer.lex "dhora" = Ok [t2; e2]
    /\ ~ equal_except_lexeme t1 t2.
Proof.
  eexists _, _, _, _.
  split; [ vm_compute; reflexivity | ].
  split; [ vm_compute; reflexivity | ].
  intros [Hkind _]. discriminate Hkind.
Qed.

(** ** Variable declarations and their terminators *)

Section Terminators.
Import Ast Parser.

(** C2 fails on the code, for each of the three terminators.
    With semicolons, the first declaration also swallows the [let] of the
    second, which is then read as an assignment expression; with a line
    break or the end of input after a declaration, the parser reports an
    error and the declaration is dropped. *)
Theorem two_declarations_are_not_both_parsed :
  parse_source "let x = 1; let y = 2;"
    = Ok (Ok (Program
                [ VariableDeclaration "x" None (Some (int_literal 1));
                  AssignmentExpression (Identifier "y") "=" (int_literal 2) ]),
          [])
  /\ parse_source ("let x = 1" ++ line_break ++ "let y = 2;")
     = Ok (Ok (Program []),
           [ "Error at line 2, column 1: Expected ';' or newline after variable declaration";
             "Error parsing declaration: Error at line 2, column 1: Expected ';' or newline after variable declaration" ])
  /\ parse_source "let y = 2"
     = Ok (Ok (Program []),
           [ "Error at line 1, column 10: Expected ';' or newline after variable declaration";
             "Error parsing declaration: Error at line 1, column 10: Expected ';' or newline after variable declaration" ]).
Proof. repeat split; vm_compute; reflexivity. Qed.

(** ** Error recovery *)

(** C6: parsing [let x = 42; let y = ; let z = 10;] yields the declarations
    of [x] and [z] and nothing for the malformed one in between, and
    records syntax errors. *)
Theorem recovery_keeps_the_declarations_around_the_error :
  exists errors : list string,
    parse_source "let x = 42; let y = ; let z = 10;"
      = Ok (Ok (Program
                  [ VariableDeclaration "x" None (Some (int_literal 42));
                    VariableDeclaration "z" None (Some (int_literal 10)) ]),
            errors)
    /\ 1 <= length errors.
Proof.
  eexists. split; [ vm_compute; reflexivity | ]. simpl. lia.
Qed.

(** ** Operator precedence *)

(** C8: the expression parser turns the tokens of [1 + 2 * 3] into a [+]
    node whose left operand is the literal 1 and whose right operand is the
    [*] node over the literals 2 and 3; the same tree is the statement that
    [parse] builds from [1 + 2 * 3;]. *)
Theorem multiplication_binds_tighter_than_addition :
  let tree :=
    BinaryExpression (int_literal 1) "+"
      (BinaryExpression (int_literal 2) "*" (int_literal 3)) in
  (exists toks,
     Lexer.lex "1 + 2 * 3" = Ok toks
     /\ fst (expression (methods (depth_for toks)) (Parser toks)) = Ok tree
     /\ fst (term (methods (depth_for toks)) (Parser toks)) = Ok tree)
  /\ parse_source "1 + 2 * 3;" = Ok (Ok (Program [tree]), []).
Proof.
  split.
  - eexists. split; [ vm_compute; reflexivity | ].
    split; vm_compute; reflexivity.
  - vm_compute; reflexivity.
Qed.

End Terminators.

(** * Properties of the evaluator *)

(** ** Operand types of the arithmetic operators *)

Section Arithmetic.
Import Interp.

Lemma arith_is_no_type_error iop fop a b : ~ type_error (arith iop fop a b).
Proof.
  unfold type_error, arith, to_float, and_then.
  destruct a as [x | x], b as [y | y];
    repeat match goal with
           | |- context [if ?c then _ else _] => destruct c
           end;
    intros [H | H]; discriminate H.
Qed.

Lemma true_divide_is_no_type_error a b : ~ type_error (true_divide a b).
Proof.
  unfold type_error, true_divide, to_float, and_then.
  destruct a as [x | x], b as [y | y];
    repeat match goal with
           | |- context [if ?c then _ else _] => destruct c
           end;
    intros [H | H]; discriminate H.
Qed.

Lemma is_number_spec v : is_number v <-> exists n, as_number v = Some n.
Proof.
  unfold is_number. destruct (as_number v) as [n |].
  - split; [ eauto | intros _; discriminate ].
  - split; [ intros H; contradiction | intros [n H]; discriminate H ].
Qed.

Lemma is_integer_spec v : is_integer v <-> exists z, as_int v = Some z.
Proof.
  unfold is_integer. destruct (as_int v) as [z |].
  - split; [ eauto | intros _; discriminate ].
  - split; [ intros H; contradiction | intros [z H]; discriminate H ].
Qed.

(** The shape shared by [-], [*] and [/]: on two numbers the operator
    computes, and what it computes is not a type error; otherwise it raises
    the type error. *)
Lemma numeric_operator_type_error
    (op : val -> val -> res signal val)
    (compute : number -> number -> res signal val)
    (Hop : forall l r,
        op l r = match as_number l, as_number r with
                 | Some a, Some b => compute a b
                 | _, _ => Raise (RuntimeError "Operands must be numbers")
                 end)
    (Hcompute : forall a b, ~ type_error (compute a b)) l r :
  type_error (op l r) <-> ~ (is_number l /\ is_number r).
Proof.
  rewrite Hop. unfold is_number.
  destruct (as_number l) as [a |], (as_number r) as [b |].
  - split.
    + intros H. destruct (Hcompute a b H).
    + intros H. exfalso. apply H. split; discriminate.
  - split; [ intros _ [_ H]; apply H; reflexivity | intros _; left; reflexivity ].
  - split; [ intros _ [H _]; apply H; reflexivity | intros _; left; reflexivity ].
  - split; [ intros _ [H _]; apply H; reflexivity | intros _; left; reflexivity ].
Qed.

Lemma divide_is_no_type_error a b :
  ~ type_error (if is_zero b then Raise (RuntimeError "Division by zero")
                else true_divide a b).
Proof.
  destruct (is_zero b).
  - intros [H | H]; discriminate H.
  - apply true_divide_is_no_type_error.
Qed.

End Arithmetic.

(** C4, amended: each of [-], [*], [/] raises its type error exactly when
    at least one operand is not a number (an int or a float, booleans
    counting as ints). [%] is stricter: it raises its type error exactly
    when at least one operand is not an integer, so a float operand of [%]
    is a type error; on two integers with a non-zero right operand it
    evaluates to their modulo. *)
Theorem arithmetic_type_errors (left right : Interp.val) :
  (type_error (Interp._subtract left right)
     <-> ~ (is_number left /\ is_number right))
  /\ (type_error (Interp._multiply left right)
        <-> ~ (is_number left /\ is_number right))
  /\ (type_error (Interp._divide left right)
        <-> ~ (is_number left /\ is_number right))
  /\ (type_error (Interp._modulo left right)
        <-> ~ (is_integer left /\ is_integer right))
  /\ (forall a b : Z,
        Interp._modulo (Interp.VInt a) (Interp.VInt b)
        = if (b =? 0)%Z then Raise (Interp.RuntimeError "Modulo by zero")
          else Ok (Interp.VInt (a mod b))).
Proof.
  split; [ | split; [ | split; [ | split ] ] ].
  - apply (numeric_operator_type_error Interp._subtract
             (Interp.arith Z.sub PyNum.fsub)).
    + intros l r. reflexivity.
    + apply arith_is_no_type_error.
  - apply (numeric_operator_type_error Interp._multiply
             (Interp.arith Z.mul PyNum.fmul)).
    + intros l r. reflexivity.
    + apply arith_is_no_type_error.
  - apply (numeric_operator_type_error Interp._divide
             (fun a b => if Interp.is_zero b
                         then Raise (Interp.RuntimeError "Division by zero")
                         else Interp.true_divide a b)).
    + intros l r. reflexivity.
    + apply divide_is_no_type_error.
  - unfold Interp._modulo, is_integer.
    destruct (Interp.as_int left) as [a |], (Interp.as_int right) as [b |].
    + split.
      * destruct (b =? 0)%Z; intros [H | H]; discriminate H.
      * intros H. exfalso. apply H. split; discriminate.
    + split; [ intros _ [_ H]; apply H; reflexivity | intros _; right; reflexivity ].
    + split; [ intros _ [H _]; apply H; reflexivity | intros _; right; reflexivity ].
    + split; [ intros _ [H _]; apply H; reflexivity | intros _; right; reflexivity ].
  - intros a b. reflexivity.
Qed.

(** C4 as stated fails for [%]: 7.0 and 3 are both numbers, and [7.0 % 3]
    is the type error. *)
Lemma modulo_of_a_float_is_a_type_error :
  let left := Interp.VFloat (PyNum.float_of_Z 7) in
  let right := Interp.VInt 3 in
  ~ (type_error (Interp._modulo left right)
       <-> ~ (is_number left /\ is_number right)).
Proof.
  intros left right [H _].
  apply H.
  - right. reflexivity.
  - split; discriminate.
Qed.

(** ** Truthiness *)

Section Truthiness.
Import Ast Interp.
Context {W : Type} (host : Host W).

(** A condition whose value is neither None nor a boolean sends [if] to
    its then-branch. *)
Lemma if_takes_then_branch_on_truthy (fuel : nat)
    (condition then_branch : node) (else_branch : option node)
    (st st' : interp W) (v : val)
    (Hcond : accept host fuel condition st = (Ok v, st'))
    (Htruthy : _is_truthy v = true) :
  accept host (S fuel) (IfStatement condition then_branch else_branch) st
  = (do! execute (accept host fuel) then_branch in ret VNone) st'.
Proof.
  cbn [accept accept_node]. unfold visit_if_statement, evaluate.
  unfold bind at 1. rewrite Hcond. unfold bind at 1. rewrite Htruthy.
  reflexivity.
Qed.

End Truthiness.

(** C5: truthiness maps None to false, a boolean to itself and every other
    value to true, in particular 0, 0.0, the empty string, and any list or
    dictionary, empty ones included; [&&] and [||] apply it to both
    operands; and an [if] whose condition evaluates to 0 or to the empty
    string executes its then-branch. *)
Theorem truthiness_is_none_false_boolean_itself_else_true
    {W : Type} (host : Interp.Host W) :
  Interp._is_truthy Interp.VNone = false
  /\ (forall b, Interp._is_truthy (Interp.VBool b) = b)
  /\ (forall v, v <> Interp.VNone -> (forall b, v <> Interp.VBool b) ->
                Interp._is_truthy v = true)
  /\ Interp._is_truthy (Interp.VInt 0) = true
  /\ Interp._is_truthy (Interp.VFloat (S754_zero false)) = true
  /\ Interp._is_truthy (Interp.VStr "") = true
  /\ (forall l, Interp._is_truthy (Interp.VList l) = true)
  /\ (forall l, Interp._is_truthy (Interp.VDict l) = true)
  /\ (forall left right,
        Interp._and left right
        = Interp.VBool (Interp._is_truthy left && Interp._is_truthy right)
        /\ Interp._or left right
           = Interp.VBool (Interp._is_truthy left || Interp._is_truthy right))
  /\ (forall fuel condition then_branch else_branch st st' v,
        Interp.accept host fuel condition st = (Ok v, st') ->
        v = Interp.VInt 0 \/ v = Interp.VStr "" ->
        Interp.accept host (S fuel)
          (Ast.IfStatement condition then_branch else_branch) st
        = (do! Interp.execute (Interp.accept host fuel) then_branch in
           ret Interp.VNone) st').
Proof.
  repeat match goal with |- _ /\ _ => split end; try reflexivity.
  - intros v Hnone Hbool. destruct v; try reflexivity.
    + contradiction.
    + destruct (Hbool b). reflexivity.
  - intros l r. split; reflexivity.
  - intros fuel condition then_branch else_branch st st' v Hcond Hv.
    apply (if_takes_then_branch_on_truthy host fuel _ _ _ st st' v Hcond).
    destruct Hv as [-> | ->]; reflexivity.
Qed.

(** ** The current environment across blocks and calls *)

Section Restoring.
Import Ast Interp.
Context {W : Type}.

Lemma keeps_ret {A} (a : A) : keeps_environment (W := W) (ret a).
Proof. intros st. reflexivity. Qed.

Lemma keeps_raise {A} (e : signal) :
  keeps_environment (W := W) (raise (A := A) e).
Proof. intros st. reflexivity. Qed.

Lemma keeps_bind {A B} (m : I W A) (k : A -> I W B) :
  keeps_environment m -> (forall a, keeps_environment (k a)) ->
  keeps_environment (bind m k).
Proof.
  intros Hm Hk st. unfold bind. specialize (Hm st).
  destruct (m st) as [[a | e |] st1]; simpl in *; try assumption.
  rewrite Hk. assumption.
Qed.

Lemma keeps_try_except {A} (m : I W A) (h : signal -> option (I W A)) :
  keeps_environment m ->
  (forall e k, h e = Some k -> keeps_environment k) ->
  keeps_environment (try_except m h).
Proof.
  intros Hm Hh st. unfold try_except. specialize (Hm st).
  destruct (m st) as [[a | e |] st1]; simpl in *; try assumption.
  destruct (h e) as [k |] eqn:Hk; simpl; try assumption.
  rewrite (Hh e k Hk). assumption.
Qed.

Lemma keeps_attribute {A} (field : option A) :
  keeps_environment (W := W) (attribute field).
Proof. destruct field; intros st; reflexivity. Qed.

Lemma keeps_Environment (enclosing : option loc) :
  keeps_environment (W := W) (Environment enclosing).
Proof. intros st. reflexivity. Qed.

Lemma keeps_define (env : loc) (name : string) (value : val) :
  keeps_environment (W := W) (define env name value).
Proof.
  intros st. unfold define. destruct (frames st !! env); reflexivity.
Qed.

Lemma keeps_define_all (env : loc) (bindings : list (FnParameter * val)) :
  keeps_environment (W := W) (define_all env bindings).
Proof.
  induction bindings as [| [param arg] rest IH]; simpl.
  - apply keeps_ret.
  - apply keeps_bind; [ apply keeps_define | intros _; exact IH ].
Qed.

(** The [finally] clause of [execute_block] puts the saved reference back
    whatever the statements did, to the environment too. *)
Lemma execute_block_unfolded (exec : node -> I W val)
    (statements : list node) (env : loc) (st : interp W) :
  execute_block exec statements env st
  = let '(r, st') := execute_all exec statements (set_environment env st) in
    (r, set_environment (environment st) st').
Proof. reflexivity. Qed.

Lemma keeps_execute_block (exec : node -> I W val)
    (statements : list node) (env : loc) :
  keeps_environment (execute_block exec statements env).
Proof.
  intros st. rewrite execute_block_unfolded.
  destruct (execute_all exec statements (set_environment env st)).
  reflexivity.
Qed.

Lemma keeps_HixaFunction_call (exec : node -> I W val)
    (declaration : node) (closure : loc) (arguments : list val) :
  keeps_environment (HixaFunction_call exec declaration closure arguments).
Proof.
  unfold HixaFunction_call.
  apply keeps_bind; [ apply keeps_Environment | intros env ].
  apply keeps_bind; [ apply keeps_attribute | intros parameters ].
  apply keeps_bind; [ apply keeps_define_all | intros _ ].
  apply keeps_bind; [ apply keeps_attribute | intros statements ].
  apply keeps_try_except.
  - apply keeps_bind; [ apply keeps_execute_block | intros _; apply keeps_ret ].
  - intros e k Hk. destruct e; inversion Hk. apply keeps_ret.
Qed.

End Restoring.

(** C9: a block statement and the body of a user function run with the
    inner frame as the current environment, and when their execution is
    over, whichever way it ended (normally, with a runtime error or any
    other exception, or with the Return signal), the current environment is
    again the frame that was current on entry. *)
Theorem blocks_and_calls_restore_the_environment
    {W : Type} (host : Interp.Host W) (fuel : nat) (st : Interp.interp W) :
  (forall statements env,
      Interp.execute_block (Interp.accept host fuel) statements env st
      = let '(r, st') :=
          Interp.execute_all (Interp.accept host fuel) statements
                             (Interp.set_environment env st) in
        (r, Interp.set_environment (Interp.environment st) st'))
  /\ (forall statements env,
        Interp.environment
          (snd (Interp.execute_block (Interp.accept host fuel) statements env st))
        = Interp.environment st)
  /\ (forall statements,
        Interp.environment
          (snd (Interp.accept host (S fuel) (Ast.BlockStatement statements) st))
        = Interp.environment st)
  /\ (forall declaration closure arguments,
        Interp.environment
          (snd (Interp.HixaFunction_call (Interp.accept host fuel)
                  declaration closure arguments st))
        = Interp.environment st).
Proof.
  split; [ | split; [ | split ] ].
  - intros statements env. reflexivity.
  - intros statements env. apply keeps_execute_block.
  - intros statements. cbn [Interp.accept Interp.accept_node].
    unfold Interp.visit_block_statement.
    revert st. fold (keeps_environment (W := W)
      (let! st0 := get_state in
       let! inner := Interp.Environment (Some (Interp.environment st0)) in
       do! Interp.execute_block (Interp.accept host fuel) statements inner in
       ret Interp.VNone)).
    apply keeps_bind; [ intros st; reflexivity | intros st0 ].
    apply keeps_bind; [ apply keeps_Environment | intros inner ].
    apply keeps_bind; [ apply keeps_execute_block | intros _; apply keeps_ret ].
  - intros declaration closure arguments. apply keeps_HixaFunction_call.
Qed.

(** ** Calls and their argument counts *)

Section Calls.
Import Ast Interp.
Context {W : Type} (host : Host W).

(** The call expression, once the callee and the arguments have their
    values. *)
Lemma call_after_operands (fuel : nat) (callee : node) (arguments : list node)
    (st st1 st2 : interp W) (f : val) (vs : list val)
    (Hcallee : accept host fuel callee st = (Ok f, st1))
    (Hargs : evaluate_all (accept host fuel) arguments st1 = (Ok vs, st2)) :
  accept host (S fuel) (CallExpression callee arguments) st
  = match f with
    | VFunction _ declaration closure =>
        (let! parameters := attribute (parameters_of declaration) in
         if negb (Nat.eqb (length vs) (length parameters)) then
           raise (arity_mismatch (length parameters) (length vs))
         else HixaFunction_call (accept host fuel) declaration closure vs) st2
    | VNative n => native_call host n vs st2
    | VHost h => host_call host h vs st2
    | _ => (Raise (RuntimeError "Can only call functions"), st2)
    end.
Proof.
  cbn [accept accept_node]. unfold visit_call_expression, evaluate.
  unfold bind at 1. rewrite Hcallee.
  unfold bind at 1. rewrite Hargs.
  destruct f; reflexivity.
Qed.

End Calls.

(** C7: when the callee of a call is a user-defined function with [n]
    declared parameters and the call supplies [m] arguments, [m <> n], the
    call raises the runtime error [Expected n arguments but got m] and
    leaves the evaluator in the state the evaluation of the arguments left
    it in: no frame is created and no statement of the body runs. When the
    callee is a built-in, the evaluator hands it the arguments whatever
    their number. *)
Theorem user_functions_enforce_arity_builtins_do_not
    {W : Type} (host : Interp.Host W) (fuel : nat)
    (callee : Ast.node) (arguments : list Ast.node)
    (st st1 st2 : Interp.interp W) (f : Interp.val) (vs : list Interp.val)
    (Hcallee : Interp.accept host fuel callee st = (Ok f, st1))
    (Hargs : Interp.evaluate_all (Interp.accept host fuel) arguments st1
             = (Ok vs, st2)) :
  (forall id declaration closure parameters,
      f = Interp.VFunction id declaration closure ->
      Interp.parameters_of declaration = Some parameters ->
      length vs <> length parameters ->
      Interp.accept host (S fuel) (Ast.CallExpression callee arguments) st
      = (Raise (Interp.RuntimeError
                  ("Expected " ++ str_nat (length parameters)
                     ++ " arguments but got " ++ str_nat (length vs))),
         st2))
  /\ (forall n,
        f = Interp.VNative n ->
        Interp.accept host (S fuel) (Ast.CallExpression callee arguments) st
        = Interp.native_call host n vs st2).
Proof.
  split.
  - intros id declaration closure parameters -> Hparams Hlen.
    rewrite (call_after_operands host fuel callee arguments st st1 st2 _ vs
               Hcallee Hargs).
    unfold bind. rewrite Hparams. simpl.
    apply Nat.eqb_neq in Hlen. rewrite Hlen. reflexivity.
  - intros n ->.
    apply (call_after_operands host fuel callee arguments st st1 st2 _ vs
             Hcallee Hargs).
Qed.

(** ** Return at the top level *)

Section TopLevelReturn.
Import Ast Interp.
Context {W : Type} (host : Host W).

Lemma interpret_lets_return_through (fuel : nat) (statements : list node)
    (st st' : interp W) (value : val) :
  execute_all (accept host fuel) statements st = (Raise (Return value), st') ->
  interpret host fuel statements st = (Raise (Return value), st').
Proof.
  intros H. unfold interpret, try_except. rewrite H. reflexivity.
Qed.

Lemma return_statement_raises (fuel : nat) (e : node)
    (st st' : interp W) (v : val) :
  accept host fuel e st = (Ok v, st') ->
  accept host (S fuel) (ReturnStatement (Some e)) st = (Raise (Return v), st').
Proof.
  intros H. cbn [accept accept_node].
  unfold visit_return_statement, evaluate, bind. rewrite H. reflexivity.
Qed.

Lemma return_in_blocks (fuel depth : nat)
    (value : option (constant * string)) (st : interp W) :
  exists st',
    accept host (depth + S (S fuel)) (in_blocks depth (return_of value)) st
    = (Raise (Return (returned value)), st')
    /\ environment st' = environment st.
Proof.
  revert st. induction depth as [| depth IH]; intros st.
  - exists st. split; [ | reflexivity ].
    destruct value as [[c t] |]; reflexivity.
  - cbn [in_blocks Nat.add accept accept_node].
    unfold visit_block_statement.
    unfold bind at 1. cbn [get_state].
    unfold bind at 1.
    destruct (Environment (Some (environment st)) st) as [r st1] eqn:Henv.
    assert (r = Ok (next st) /\ environment st1 = environment st) as [-> Hst1].
    { unfold Environment, bind, fresh, modify in Henv. simpl in Henv.
      inversion Henv. split; reflexivity. }
    unfold bind at 1. rewrite execute_block_unfolded.
    cbn [execute_all]. unfold execute at 1. unfold bind at 1 2.
    destruct (IH (set_environment (next st) st1)) as [st2 [Hrun _]].
    rewrite Hrun.
    eexists. split; [ reflexivity | ]. simpl. assumption.
Qed.

End TopLevelReturn.

(** C10: [interpret] catches only the runtime error, and re-raises it; a
    Return signal that reaches it leaves it as it came. So a return
    statement executed at the top level, or inside top-level blocks nested
    to any depth, makes [interpret] end with the Return signal carrying the
    returned value (None when the statement has no expression), not with a
    runtime error. *)
Theorem top_level_return_escapes_interpret
    {W : Type} (host : Interp.Host W) (fuel : nat) :
  (forall statements st st' value,
      Interp.execute_all (Interp.accept host fuel) statements st
      = (Raise (Interp.Return value), st') ->
      Interp.interpret host fuel statements st
      = (Raise (Interp.Return value), st'))
  /\ (forall rest st,
        Interp.interpret host (S fuel) (Ast.ReturnStatement None :: rest) st
        = (Raise (Interp.Return Interp.VNone), st))
  /\ (forall e rest st st' v,
        Interp.accept host fuel e st = (Ok v, st') ->
        Interp.interpret host (S fuel)
          (Ast.ReturnStatement (Some e) :: rest) st
        = (Raise (Interp.Return v), st'))
  /\ (forall depth value rest st,
        exists st',
          Interp.interpret host (depth + S (S fuel))
            (in_blocks depth (return_of value) :: rest) st
          = (Raise (Interp.Return (returned value)), st')
          /\ Interp.environment st' = Interp.environment st).
Proof.
  split; [ | split; [ | split ] ].
  - intros statements st st' value. apply interpret_lets_return_through.
  - intros rest st. apply interpret_lets_return_through. reflexivity.
  - intros e rest st st' v He. apply interpret_lets_return_through.
    cbn [Interp.execute_all]. unfold Interp.execute, bind.
    rewrite (return_statement_raises host fuel e st st' v He). reflexivity.
  - intros depth value rest st.
    destruct (return_in_blocks host fuel depth value st) as [st' [Hrun Henv]].
    exists st'. split; [ | exact Henv ].
    apply interpret_lets_return_through.
    cbn [Interp.execute_all]. unfold Interp.execute, bind.
    rewrite Hrun. reflexivity.
Qed.

(** ** Member access on object literals *)

Section Members.
Import Ast Interp.
Context {W : Type} (host : Host W).

(** An object literal, when its properties evaluate, is a dictionary. *)
Lemma object_literal_is_a_dictionary (fuel : nat)
    (properties : list (string * node)) (st st' : interp W) (v : val) :
  accept host (S fuel) (ObjectExpression properties) st = (Ok v, st') ->
  v = VDict (next st).
Proof.
  cbn [accept accept_node]. unfold visit_object_expression.
  unfold bind at 1. unfold new_dict, bind at 1, fresh. simpl.
  unfold bind.
  destruct (set_properties _ _ _ _) as [[[] | e |] st1]; intros H;
    inversion H; reflexivity.
Qed.

(** A property name that is an attribute of the class [dict] is looked up
    there: the access is the host's, and says nothing of the keys. *)
Lemma member_access_on_method_name (fuel : nat)
    (object_ : node) (name : string) (computed : bool)
    (st st' : interp W) (l : loc) :
  accept host fuel object_ st = (Ok (VDict l), st') ->
  dict_has_attribute name = true ->
  accept host (S fuel) (MemberExpression object_ (Identifier name) computed) st
  = host_getattr host (VDict l) name st'.
Proof.
  intros Hobject Hname. cbn [accept accept_node].
  unfold visit_member_expression, evaluate, bind.
  rewrite Hobject. unfold getattr. rewrite Hname. reflexivity.
Qed.

End Members.

(** C1 fails on the code: member access is Python's [getattr], and a
    dictionary has the attributes of its class, not its keys. Whenever the
    object of a member expression evaluates to a dictionary (as every object
    literal does) and the property name is neither a method of [dict] nor a
    name starting with two underscores, the access raises [AttributeError],
    which is not the evaluator's runtime error; the value bound to the key
    is never returned. *)
Theorem member_access_does_not_read_dictionary_keys
    {W : Type} (host : Interp.Host W) (fuel : nat)
    (object_ : Ast.node) (name : string) (computed : bool)
    (st st' : Interp.interp W) (l : Interp.loc)
    (Hobject : Interp.accept host fuel object_ st = (Ok (Interp.VDict l), st'))
    (Hname : Interp.dict_has_attribute name = false) :
  Interp.accept host (S fuel)
    (Ast.MemberExpression object_ (Ast.Identifier name) computed) st
  = (Raise (Interp.HostError "AttributeError"), st').
Proof.
  cbn [Interp.accept Interp.accept_node].
  unfold Interp.visit_member_expression, Interp.evaluate, bind.
  rewrite Hobject. unfold Interp.getattr. rewrite Hname. reflexivity.
Qed.

(** * The statements at concrete programs *)

Section Concrete.
Import Ast Interp.

(** C1 at [{a: 1}.a]: the dictionary of the literal binds [a] to 1, and the
    member access raises [AttributeError]. *)
Lemma member_access_on_object_literal_a :
  let st := Interpreter tt in
  let st' := snd (accept bare_host 2 object_a_1 st) in
  accept bare_host 2 object_a_1 st = (Ok (VDict 1), st')
  /\ dicts st' !! 1 = Some [("a", VInt 1)]
  /\ dict_has_attribute "a" = false
  /\ accept bare_host 3
       (MemberExpression object_a_1 (Identifier "a") false) st
     = (Raise (HostError "AttributeError"), st').
Proof.
  intros st st'.
  assert (Hobject : accept bare_host 2 object_a_1 st = (Ok (VDict 1), st'))
    by (vm_compute; reflexivity).
  split; [ exact Hobject | ].
  split; [ vm_compute; reflexivity | ].
  split; [ reflexivity | ].
  apply (member_access_does_not_read_dictionary_keys
           bare_host 2 object_a_1 "a" false st st' 1 Hobject).
  reflexivity.
Defined.

(** C5 at [if (0) return;]: the condition is the integer 0 and the
    then-branch runs. *)
Lemma if_zero_runs_its_then_branch :
  let st := Interpreter tt in
  accept bare_host 1 (int_literal 0) st = (Ok (VInt 0), st)
  /\ accept bare_host 2
       (IfStatement (int_literal 0) (ReturnStatement None) None) st
     = (Raise (Return VNone), st).
Proof.
  intros st.
  assert (Hcond : accept bare_host 1 (int_literal 0) st = (Ok (VInt 0), st))
    by reflexivity.
  split; [ exact Hcond | ].
  destruct (truthiness_is_none_false_boolean_itself_else_true bare_host)
    as (_ & _ & _ & _ & _ & _ & _ & _ & _ & Hif).
  rewrite (Hif 1 (int_literal 0) (ReturnStatement None) None st st (VInt 0)
             Hcond (or_introl eq_refl)).
  reflexivity.
Defined.

(** C7 at [f(1)] and [likha(1)], with [fn f(a, b)] declared: the user
    function refuses the single argument; the built-in is handed it. *)
Lemma calling_f_with_one_argument :
  accept bare_host 2 (Identifier "f") with_f
    = (Ok (VFunction 1 fn_f_a_b 0), with_f)
  /\ evaluate_all (accept bare_host 2) [int_literal 1] with_f
     = (Ok [VInt 1], with_f)
  /\ accept bare_host 3 (CallExpression (Identifier "f") [int_literal 1]) with_f
     = (Raise (RuntimeError "Expected 2 arguments but got 1"), with_f)
  /\ accept bare_host 3 (CallExpression (Identifier "likha") [int_literal 1])
       with_f
     = native_call bare_host _print [VInt 1] with_f.
Proof.
  assert (Hf : accept bare_host 2 (Identifier "f") with_f
               = (Ok (VFunction 1 fn_f_a_b 0), with_f))
    by (vm_compute; reflexivity).
  assert (Hlikha : accept bare_host 2 (Identifier "likha") with_f
                   = (Ok (VNative _print), with_f))
    by (vm_compute; reflexivity).
  assert (Hargs : evaluate_all (accept bare_host 2) [int_literal 1] with_f
                  = (Ok [VInt 1], with_f))
    by reflexivity.
  split; [ exact Hf | ].
  split; [ exact Hargs | ].
  split.
  - apply (proj1 (user_functions_enforce_arity_builtins_do_not
                    bare_host 2 (Identifier "f") [int_literal 1]
                    with_f with_f with_f _ [VInt 1] Hf Hargs)
             1 fn_f_a_b 0 [mkParameter "a" None; mkParameter "b" None]
             eq_refl eq_refl).
    simpl. discriminate.
  - apply (proj2 (user_functions_enforce_arity_builtins_do_not
                    bare_host 2 (Identifier "likha") [int_literal 1]
                    with_f with_f with_f _ [VInt 1] Hlikha Hargs)
             _print eq_refl).
Defined.

(** C10 at the program [return 7;]. *)
Lemma return_seven_at_top_level :
  let st := Interpreter tt in
  let program := [ReturnStatement (Some (int_literal 7))] in
  execute_all (accept bare_host 2) program st = (Raise (Return (VInt 7)), st)
  /\ interpret bare_host 2 program st = (Raise (Return (VInt 7)), st).
Proof.
  intros st program.
  assert (Hrun : execute_all (accept bare_host 2) program st
                 = (Raise (Return (VInt 7)), st))
    by reflexivity.
  split; [ exact Hrun | ].
  apply (proj1 (top_level_return_escapes_interpret bare_host 2)
           program st st (VInt 7) Hrun).
Defined.

(** The three ways out of a block, and a call: each leaves the global frame
    (identity 0) current, after running in a new frame (identity 1 for the
    blocks, 2 for the call) whose enclosing frame is the global one. *)
Example a_block_runs_inside_and_ends_outside :
  let st := Interpreter tt in
  let run_block statements := accept bare_host 4 (BlockStatement statements) st in
  let normal :=
    run_block [VariableDeclaration "a" None (Some (int_literal 1))] in
  let failing := run_block [Identifier "y"] in
  let returning := run_block [ReturnStatement (Some (int_literal 1))] in
  let calling :=
    accept bare_host 5
      (CallExpression (Identifier "f") [int_literal 1; int_literal 2]) with_f in
  (fst normal = Ok VNone
   /\ environment (snd normal) = 0
   /\ frames (snd normal) !! 1 = Some (mkFrame {[ "a" := VInt 1 ]} (Some 0)))
  /\ (fst failing = Raise (RuntimeError "Undefined variable 'y'")
      /\ environment (snd failing) = 0)
  /\ (fst returning = Raise (Return (VInt 1))
      /\ environment (snd returning) = 0)
  /\ (fst calling = Ok (VInt 1)
      /\ environment (snd calling) = 0
      /\ frames (snd calling) !! 2
         = Some (mkFrame {[ "a" := VInt 1; "b" := VInt 2 ]} (Some 0))).
Proof. vm_compute. repeat split; reflexivity. Qed.

(** The source text [({a: 1}).a;], lexed, parsed and interpreted: the
    member access raises [AttributeError]. With the key [keys] instead, the
    access asks the host for the method of that name, which the bare host
    does not implement. *)
Example member_access_from_source_text :
  option_map fst (run 10 "({a: 1}).a;")
    = Some (Raise (HostError "AttributeError"))
  /\ Parser.parse_source "({a: 1}).a;"
     = Ok (Ok (Program
                 [MemberExpression object_a_1 (Identifier "a") false]), [])
  /\ option_map fst (run 10 "({keys: 1}).keys;")
     = Some (Raise (HostError "NotImplementedError")).
Proof. repeat split; vm_compute; reflexivity. Qed.

(** Conditions that are truthy though empty or zero; read from source
    text. *)
Example zero_and_empty_conditions_are_truthy :
  option_map fst (run 10 "if (0) { return 1; } return 2;")
    = Some (Raise (Return (VInt 1)))
  /\ option_map fst (run 10 "if (0.0) { return 1; } return 2;")
     = Some (Raise (Return (VInt 1)))
  /\ option_map fst (run 10 "if ([]) { return 1; } return 2;")
     = Some (Raise (Return (VInt 1)))
  /\ option_map fst (run 10 "if ({}) { return 1; } return 2;")
     = Some (Raise (Return (VInt 1)))
  /\ option_map fst (run 10 "if (null) { return 1; } return 2;")
     = Some (Raise (Return (VInt 2)))
  /\ option_map fst (run 10 "if (false) { return 1; } return 2;")
     = Some (Raise (Return (VInt 2))).
Proof. repeat split; vm_compute; reflexivity. Qed.

(** Arithmetic read from source text: [7 % 3] is 1, [7.0 % 3] is the
    type error of [%], [7 / 2] is 3.5 and [1 / 0] is a runtime error. *)
Example arithmetic_from_source_text :
  option_map fst (run 10 "return 7 % 3;") = Some (Raise (Return (VInt 1)))
  /\ option_map fst (run 10 "return 7.0 % 3;")
     = Some (Raise (RuntimeError "Operands must be integers"))
  /\ option_map fst (run 10 "return 7 / 2;")
     = Some (Raise (Return (VFloat (S754_finite false 7881299347898368 (-51)))))
  /\ option_map fst (run 10 "return 1 / 0;")
     = Some (Raise (RuntimeError "Division by zero"))
  /\ option_map fst (run 10 "return 1 - null;")
     = Some (Raise (RuntimeError "Operands must be numbers")).
Proof. repeat split; vm_compute; reflexivity. Qed.

End Concrete.

(** * Further properties of the evaluator *)

(** ** Operators *)

Section Operators.
Import Ast Interp.

Lemma runtime_error_other_message (r : res signal val) (m1 m2 : string) :
  m1 <> m2 -> r = Raise (RuntimeError m1) -> r <> Raise (RuntimeError m2).
Proof. intros Hne -> H. inversion H. contradiction. Qed.

Lemma arith_is_ok_or_overflow iop fop a b :
  (exists v, arith iop fop a b = Ok v)
  \/ arith iop fop a b = Raise (HostError "OverflowError").
Proof.
  unfold arith, to_float, and_then.
  destruct a as [x | x], b as [y | y];
    repeat match goal with
           | |- context [if ?c then _ else _] => destruct c
           end; eauto.
Qed.

Lemma true_divide_is_ok_or_overflow a b :
  (exists v, true_divide a b = Ok v)
  \/ true_divide a b = Raise (HostError "OverflowError").
Proof.
  unfold true_divide, to_float, and_then.
  destruct a as [x | x], b as [y | y];
    repeat match goal with
           | |- context [if ?c then _ else _] => destruct c
           end; eauto.
Qed.

End Operators.

(** X1: [/] raises the runtime error [Division by zero] exactly when both
    operands are numbers and the right one is zero (the integer 0, false,
    or a float zero of either sign); [%] raises [Modulo by zero] exactly
    when both operands are integers and the right one is 0 or false.
    Neither returns a value in these cases. *)
Theorem division_and_modulo_by_zero (left right : Interp.val) :
  (Interp._divide left right
     = Raise (Interp.RuntimeError "Division by zero")
   <-> is_number left /\ is_zero_number right)
  /\ (Interp._modulo left right
        = Raise (Interp.RuntimeError "Modulo by zero")
      <-> is_integer left /\ Interp.as_int right = Some 0%Z).
Proof.
  split.
  - unfold Interp._divide, is_number, is_zero_number.
    destruct (Interp.as_number left) as [a |],
             (Interp.as_number right) as [b |].
    + destruct (Interp.is_zero b) eqn:Hz.
      * split; [ intros _ | reflexivity ].
        split; [ discriminate | exists b; split; [ reflexivity | exact Hz ] ].
      * split.
        -- intros H.
           destruct (true_divide_is_ok_or_overflow a b) as [[v Hv] | Hv];
             rewrite Hv in H; discriminate H.
        -- intros [_ [n [Hn Hzn]]]. inversion Hn; subst n.
           rewrite Hz in Hzn. discriminate Hzn.
    + split; [ discriminate | intros [_ [n [Hn _]]]; discriminate Hn ].
    + split; [ discriminate | intros [H _]; contradiction ].
    + split; [ discriminate | intros [H _]; contradiction ].
  - unfold Interp._modulo, is_integer.
    destruct (Interp.as_int left) as [a |], (Interp.as_int right) as [b |].
    + destruct (Z.eqb_spec b 0) as [-> | Hb].
      * split; [ intros _; split; [ discriminate | reflexivity ] | reflexivity ].
      * split; [ discriminate | intros [_ H]; inversion H; contradiction ].
    + split; [ discriminate | intros [_ H]; discriminate H ].
    + split; [ discriminate | intros [H _]; contradiction ].
    + split; [ discriminate | intros [H _]; contradiction ].
Qed.

(** X2: [+] concatenates two strings and adds two integers exactly; it
    raises its type error exactly when the operands are neither two
    numbers nor two strings, so a string plus a number is an error rather
    than a coercion. *)
Theorem addition_of_numbers_and_strings (left right : Interp.val) :
  (forall a b : string,
      Interp._add (Interp.VStr a) (Interp.VStr b) = Ok (Interp.VStr (a ++ b)))
  /\ (forall a b : Z,
        Interp._add (Interp.VInt a) (Interp.VInt b) = Ok (Interp.VInt (a + b)))
  /\ (Interp._add left right
        = Raise (Interp.RuntimeError
                   "Operands must be two numbers or two strings")
      <-> ~ ((is_number left /\ is_number right)
             \/ (is_string left /\ is_string right))).
Proof.
  split; [ reflexivity | split; [ reflexivity | ] ].
  unfold Interp._add, is_number, is_string.
  destruct (Interp.as_number left) as [a |] eqn:Hl,
           (Interp.as_number right) as [b |] eqn:Hr.
  - split.
    + intros H.
      destruct (arith_is_ok_or_overflow Z.add PyNum.fadd a b) as [[v Hv] | Hv];
        rewrite Hv in H; discriminate H.
    + intros H. exfalso. apply H. left. split; discriminate.
  - destruct left, right; try discriminate Hl; try discriminate Hr;
      (split; [ intros _ [[_ H] | [[? H] [? H']]];
                [ apply H; reflexivity | discriminate H ]
              | reflexivity ]).
  - destruct left, right; try discriminate Hl; try discriminate Hr;
      (split; [ intros _ [[H _] | [[? H] [? H']]];
                [ apply H; reflexivity | discriminate H' ]
              | reflexivity ]).
  - destruct left, right; try discriminate Hl; try discriminate Hr;
      try (split; [ intros _ [[H _] | [[? H] [? H']]];
                    [ apply H; reflexivity
                    | first [ discriminate H | discriminate H' ] ]
                  | reflexivity ]).
    split; [ discriminate | ].
    intros H. exfalso. apply H. right. split; eexists; reflexivity.
Qed.

(** X3: each of [<], [<=], [>], [>=] raises the type error exactly when an
    operand is not a number, so strings are never ordered; on two integers
    it is the order of the integers; and an integer is compared with a
    float by exact value, without rounding the integer first. *)
Theorem ordering_requires_numbers (left right : Interp.val) :
  let type_err op :=
    op left right = Raise (Interp.RuntimeError "Operands must be numbers") in
  ((type_err Interp._less <-> ~ (is_number left /\ is_number right))
   /\ (type_err Interp._less_equal <-> ~ (is_number left /\ is_number right))
   /\ (type_err Interp._greater <-> ~ (is_number left /\ is_number right))
   /\ (type_err Interp._greater_equal
       <-> ~ (is_number left /\ is_number right)))
  /\ (forall a b : Z,
        Interp._less (Interp.VInt a) (Interp.VInt b)
          = Ok (Interp.VBool (a <? b)%Z)
        /\ Interp._less_equal (Interp.VInt a) (Interp.VInt b)
           = Ok (Interp.VBool (a <=? b)%Z)
        /\ Interp._greater (Interp.VInt a) (Interp.VInt b)
           = Ok (Interp.VBool (b <? a)%Z)
        /\ Interp._greater_equal (Interp.VInt a) (Interp.VInt b)
           = Ok (Interp.VBool (b <=? a)%Z))
  /\ Interp._less (Interp.VFloat (PyNum.float_of_Z (2 ^ 53)))
                  (Interp.VInt (2 ^ 53 + 1))
     = Ok (Interp.VBool true).
Proof.
  intros type_err. subst type_err. cbv beta.
  assert (Hshape : forall holds,
             Interp.ordering holds left right
               = Raise (Interp.RuntimeError "Operands must be numbers")
             <-> ~ (is_number left /\ is_number right)).
  { intros holds. unfold Interp.ordering, is_number.
    destruct (Interp.as_number left) as [a |],
             (Interp.as_number right) as [b |].
    - split; [ discriminate | intros H; exfalso; apply H; split; discriminate ].
    - split; [ intros _ [_ H]; apply H; reflexivity | reflexivity ].
    - split; [ intros _ [H _]; apply H; reflexivity | reflexivity ].
    - split; [ intros _ [H _]; apply H; reflexivity | reflexivity ]. }
  split; [ repeat split; apply Hshape | ].
  split.
  - intros a b.
    unfold Interp._less, Interp._less_equal, Interp._greater,
      Interp._greater_equal, Interp.ordering. simpl.
    unfold Z.ltb, Z.leb. rewrite (Z.compare_antisym a b).
    destruct (a ?= b)%Z; repeat split; reflexivity.
  - vm_compute. reflexivity.
Qed.

(** ** Equality *)

Section Equality.
Import Ast Interp.
Context {W : Type} (host : Host W).

Lemma SFcompare_refl (f : spec_float) :
  f <> S754_nan -> SFcompare f f = Some Eq.
Proof.
  destruct f as [s | s | | s m e]; intros Hnan; try contradiction.
  - reflexivity.
  - destruct s; reflexivity.
  - simpl. rewrite Z.compare_refl.
    fold (Pos.compare m m). rewrite Pos.compare_refl.
    destruct s; reflexivity.
Qed.

Lemma native_eqb_refl (n : native) : native_eqb n n = true.
Proof. destruct n; reflexivity. Qed.

Lemma py_eq_refl (depth : nat) (v : val) (st : interp W) :
  self_equal v -> py_eq host (S depth) v v st = (Ok true, st).
Proof.
  intros [Hnan Hhost]. destruct v; simpl.
  - reflexivity.
  - unfold ret. rewrite Z.compare_refl. reflexivity.
  - unfold ret. rewrite Z.compare_refl. reflexivity.
  - unfold ret. rewrite SFcompare_refl; [ reflexivity | ].
    intros ->. apply Hnan. reflexivity.
  - unfold ret. rewrite String.eqb_refl. reflexivity.
  - rewrite Nat.eqb_refl. reflexivity.
  - rewrite Nat.eqb_refl. reflexivity.
  - unfold ret. rewrite Nat.eqb_refl. reflexivity.
  - unfold ret. rewrite native_eqb_refl. reflexivity.
  - destruct (Hhost h). reflexivity.
Qed.

End Equality.

(** X4: [==] holds between a value and itself for every value but a NaN
    (and a host object, whose equality is the host's): numbers, strings,
    lists, dictionaries and functions are all equal to themselves and the
    comparison changes nothing. [!=] is the negation of [==] on every pair
    of operands. Across the numeric types equality is by value: 1, 1.0 and
    true are equal, and a string never equals a number. *)
Theorem equality_is_reflexive_and_by_value
    {W : Type} (host : Interp.Host W) (st : Interp.interp W) :
  (forall v, self_equal v ->
             Interp._equal host v v st = (Ok (Interp.VBool true), st))
  /\ (forall left right,
        Interp._not_equal host left right st
        = match Interp._equal host left right st with
          | (Ok (Interp.VBool b), st') => (Ok (Interp.VBool (negb b)), st')
          | other => other
          end)
  /\ Interp._equal host (Interp.VInt 1) (Interp.VFloat (PyNum.float_of_Z 1)) st
     = (Ok (Interp.VBool true), st)
  /\ Interp._equal host (Interp.VInt 1) (Interp.VBool true) st
     = (Ok (Interp.VBool true), st)
  /\ Interp._equal host (Interp.VStr "1") (Interp.VInt 1) st
     = (Ok (Interp.VBool false), st).
Proof.
  split; [ | split; [ | repeat split; reflexivity ] ].
  - intros v Hv. unfold Interp._equal, bind, get_state.
    rewrite (py_eq_refl host _ v st Hv). reflexivity.
  - intros left right. unfold Interp._not_equal, Interp._equal, bind, get_state.
    destruct (Interp.py_eq host (S (Interp.next st)) left right st)
      as [[b | e |] st']; reflexivity.
Qed.


(** ** Environments *)

Section Environments.
Import Ast Interp.
Context {W : Type}.

Lemma well_nested_nested (st : interp W) : well_nested st -> nested (frames st).
Proof. intros H l f Hl. exact (proj2 (H l f Hl)). Qed.

(** In nested frames a lookup with enough depth follows [resolves]. *)
Lemma get_in_resolves (fs : gmap loc frame) (name : string) :
  nested fs ->
  forall depth (env : loc) f,
    env < depth -> fs !! env = Some f ->
    resolves fs name env (get_in fs depth env name).
Proof.
  intros Hn depth. induction depth as [| depth IH]; intros env f Hlt Hf.
  - lia.
  - cbn [get_in]. rewrite Hf.
    destruct (values f !! name) as [v |] eqn:Hv.
    + eapply resolves_here; eassumption.
    + destruct (enclosing f) as [outer |] eqn:Ho.
      * destruct (Hn env f Hf outer Ho) as [Hlt' [fo Hfo]].
        eapply resolves_outer; try eassumption.
        apply (IH outer fo); [ lia | assumption ].
      * eapply resolves_nowhere; eassumption.
Qed.

Lemma resolves_functional (fs : gmap loc frame) (name : string)
    (env : loc) r1 r2 :
  resolves fs name env r1 -> resolves fs name env r2 -> r1 = r2.
Proof.
  intros H1. revert r2.
  induction H1 as [env f v Hf Hv | env f outer r Hf Hv Ho _ IH | env f Hf Hv Ho];
    intros r2 H2; inversion H2; subst;
    match goal with
    | H : fs !! env = Some ?g |- _ =>
        rewrite Hf in H; inversion H; subst
    end; try congruence.
  apply IH. congruence.
Qed.

Lemma resolves_ok_or_undefined (fs : gmap loc frame) (name : string)
    (env : loc) r :
  resolves fs name env r ->
  (exists v, r = Ok v) \/ r = Raise (undefined_variable name).
Proof. induction 1; eauto. Qed.

End Environments.

(** X5: in the frames the evaluator builds, looking a name up takes the
    binding of the innermost frame of the chain that has one, so an inner
    binding shadows an outer one and a name missing from the frame is read
    from the enclosing frame; the lookup changes nothing, and it ends
    either with a value or with the runtime error [Undefined variable],
    when no frame up to the outermost binds the name. *)
Theorem lookup_reads_the_innermost_binding
    {W : Type} (st : Interp.interp W) (env : Interp.loc)
    (f : Interp.frame) (name : string)
    (Hnested : well_nested st)
    (Hframe : Interp.frames st !! env = Some f) :
  snd (Interp.get env name st) = st
  /\ fst (Interp.get env name st)
     = match Interp.values f !! name with
       | Some v => Ok v
       | None =>
           match Interp.enclosing f with
           | Some outer => fst (Interp.get outer name st)
           | None => Raise (Interp.undefined_variable name)
           end
       end
  /\ ((exists v, fst (Interp.get env name st) = Ok v)
      \/ fst (Interp.get env name st)
         = Raise (Interp.undefined_variable name)).
Proof.
  pose proof (well_nested_nested st Hnested) as Hn.
  destruct (Hnested env f Hframe) as [Hlt Houter].
  assert (Hres : resolves (Interp.frames st) name env
                   (fst (Interp.get env name st))).
  { apply (get_in_resolves _ name Hn _ env f); [ lia | assumption ]. }
  split; [ reflexivity | split ].
  - destruct (Interp.values f !! name) as [v |] eqn:Hv.
    + eapply resolves_functional; [ exact Hres | ].
      eapply resolves_here; eassumption.
    + destruct (Interp.enclosing f) as [outer |] eqn:Ho.
      * destruct (Houter outer eq_refl) as [Hlt' [fo Hfo]].
        eapply resolves_functional; [ exact Hres | ].
        eapply resolves_outer; try eassumption.
        apply (get_in_resolves _ name Hn _ outer fo); [ | assumption ].
        destruct (Hnested outer fo Hfo). lia.
      * eapply resolves_functional; [ exact Hres | ].
        eapply resolves_nowhere; eassumption.
  - eapply resolves_ok_or_undefined. exact Hres.
Qed.

Section Rebinding.
Import Ast Interp.
Context {W : Type}.

(** Rebinding [name] in the frame [e], as [assign] does it. *)
Lemma rebinding_keeps_nested (fs : gmap loc frame) (e : loc) (fe : frame)
    (name : string) (v : val) :
  nested fs -> fs !! e = Some fe ->
  nested (<[e := mkFrame (<[name := v]> (values fe)) (enclosing fe)]> fs).
Proof.
  intros Hn He l f Hl o Ho.
  assert (Hold : exists f0, fs !! l = Some f0 /\ enclosing f0 = Some o).
  { destruct (decide (e = l)) as [-> | Hne].
    - rewrite lookup_insert_eq in Hl. inversion Hl; subst f.
      exists fe. split; assumption.
    - rewrite lookup_insert_ne in Hl by assumption.
      exists f. split; assumption. }
  destruct Hold as [f0 [Hf0 Ho0]].
  destruct (Hn l f0 Hf0 o Ho0) as [Hlt [fo Hfo]].
  split; [ assumption | ].
  destruct (decide (e = o)) as [-> | Hne].
  - rewrite lookup_insert_eq. eauto.
  - rewrite lookup_insert_ne by assumption. eauto.
Qed.

(** What a successful [assign_in] did: it rebound the name in one frame
    that had it. *)
Lemma assign_in_shape (fs fs' : gmap loc frame) (name : string) (v : val) :
  forall depth (env : loc),
    assign_in fs depth env name v = Ok fs' ->
    exists (e : loc) fe,
      fs !! e = Some fe /\ is_Some (values fe !! name)
      /\ fs' = <[e := mkFrame (<[name := v]> (values fe)) (enclosing fe)]> fs.
Proof.
  induction depth as [| depth IH]; intros env H; cbn [assign_in] in H.
  - discriminate H.
  - destruct (fs !! env) as [f |] eqn:Hf; [ | discriminate H ].
    destruct (values f !! name) as [v0 |] eqn:Hv.
    + inversion H; subst fs'. exists env, f. rewrite Hv. eauto.
    + destruct (enclosing f) as [outer |]; [ | discriminate H ].
      apply (IH outer H).
Qed.

(** In nested frames [assign_in] succeeds exactly where the lookup does,
    and the lookup then finds the new value. *)
Lemma assign_in_follows_resolves (fs : gmap loc frame) (name : string)
    (v : val) :
  nested fs ->
  forall depth (env : loc) f,
    env < depth -> fs !! env = Some f ->
    (forall v0, resolves fs name env (Ok v0) ->
       exists fs', assign_in fs depth env name v = Ok fs'
                   /\ resolves fs' name env (Ok v))
    /\ (resolves fs name env (Raise (undefined_variable name)) ->
        assign_in fs depth env name v = Raise (undefined_variable name)).
Proof.
  intros Hn depth. induction depth as [| depth IH]; intros env f Hlt Hf.
  - lia.
  - cbn [assign_in]. rewrite Hf.
    destruct (values f !! name) as [v1 |] eqn:Hv.
    + split.
      * intros v0 _. eexists. split; [ reflexivity | ].
        eapply resolves_here; [ apply lookup_insert_eq | ].
        simpl. apply lookup_insert_eq.
      * intros H. inversion H; subst; congruence.
    + destruct (enclosing f) as [outer |] eqn:Ho.
      * destruct (Hn env f Hf outer Ho) as [Hlt' [fo Hfo]].
        destruct (IH outer fo ltac:(lia) Hfo) as [IHok IHerr].
        split.
        -- intros v0 H. inversion H; subst; try congruence.
           assert (outer0 = outer) as -> by congruence.
           destruct (IHok v0 ltac:(assumption)) as [fs' [Hassign Hres]].
           exists fs'. split; [ assumption | ].
           destruct (assign_in_shape fs fs' name v depth outer Hassign)
             as [e [fe [He [Hbound ->]]]].
           assert (e <> env).
           { intros ->. rewrite Hf in He. inversion He; subst fe.
             rewrite Hv in Hbound. destruct Hbound as [x Hx]. discriminate Hx. }
           eapply resolves_outer; try eassumption.
           rewrite lookup_insert_ne by assumption. assumption.
        -- intros H. inversion H; subst; try congruence.
           assert (outer0 = outer) as -> by congruence.
           apply IHerr. assumption.
      * split.
        -- intros v0 H. inversion H; subst; congruence.
        -- intros _. reflexivity.
Qed.

(** Rebinding one name leaves the lookups of the other names alone. *)
Lemma rebinding_keeps_other_names (fs : gmap loc frame) (e : loc) (fe : frame)
    (name n : string) (v : val) :
  fs !! e = Some fe -> n <> name ->
  forall depth (env : loc),
    get_in (<[e := mkFrame (<[name := v]> (values fe)) (enclosing fe)]> fs)
      depth env n
    = get_in fs depth env n.
Proof.
  intros He Hne. induction depth as [| depth IH]; intros env; [ reflexivity | ].
  cbn [get_in].
  destruct (decide (e = env)) as [-> | Hdiff].
  - rewrite lookup_insert_eq, He. simpl.
    rewrite lookup_insert_ne by congruence.
    destruct (values fe !! n); [ reflexivity | ].
    destruct (enclosing fe); [ apply IH | reflexivity ].
  - rewrite lookup_insert_ne by assumption.
    destruct (fs !! env) as [f |]; [ | reflexivity ].
    destruct (values f !! n); [ reflexivity | ].
    destruct (enclosing f); [ apply IH | reflexivity ].
Qed.

Lemma rebinding_keeps_bound_names (st : interp W) (e : loc) (fe : frame)
    (name : string) (v : val) :
  frames st !! e = Some fe -> is_Some (values fe !! name) ->
  forall l n,
    bound_in
      (set_frames
         (<[e := mkFrame (<[name := v]> (values fe)) (enclosing fe)]> (frames st))
         st) l n
    <-> bound_in st l n.
Proof.
  intros He Hbound l n. unfold bound_in. simpl.
  destruct (decide (e = l)) as [-> | Hne].
  - rewrite lookup_insert_eq. split.
    + intros [f [Hf Hn]]. inversion Hf; subst f. simpl in Hn.
      exists fe. split; [ assumption | ].
      destruct (decide (name = n)) as [-> | Hdiff]; [ assumption | ].
      rewrite lookup_insert_ne in Hn by assumption. assumption.
    + intros [f [Hf Hn]]. rewrite He in Hf. inversion Hf; subst f.
      eexists. split; [ reflexivity | ]. simpl.
      destruct (decide (name = n)) as [-> | Hdiff].
      * rewrite lookup_insert_eq. eauto.
      * rewrite lookup_insert_ne by assumption. assumption.
  - rewrite lookup_insert_ne by assumption. reflexivity.
Qed.

Lemma rebinding_keeps_well_nested (st : interp W) (e : loc) (fe : frame)
    (name : string) (v : val) :
  well_nested st -> frames st !! e = Some fe ->
  well_nested
    (set_frames
       (<[e := mkFrame (<[name := v]> (values fe)) (enclosing fe)]> (frames st))
       st).
Proof.
  intros Hw He l f Hl. simpl in Hl. split.
  - simpl. destruct (decide (e = l)) as [-> | Hne].
    + apply (Hw l fe He).
    + rewrite lookup_insert_ne in Hl by assumption. apply (Hw l f Hl).
  - apply (rebinding_keeps_nested (frames st) e fe name v
             (well_nested_nested st Hw) He l f Hl).
Qed.

(** A single frame without an enclosing one is well nested; a fresh
    interpreter starts in such a state. *)
Lemma single_frame_well_nested (g : frame) ls ds (w : W) :
  enclosing g = None ->
  well_nested (mkInterp {[ 0 := g ]} ls ds 1 0 0 w).
Proof.
  intros Hg l f Hl. cbn [frames next] in *.
  destruct (decide (l = 0)) as [-> | Hne].
  - rewrite lookup_singleton_eq in Hl.
    assert (f = g) as -> by congruence.
    split; [ lia | intros o Ho; congruence ].
  - rewrite lookup_singleton_ne in Hl by congruence. discriminate Hl.
Qed.

Lemma Interpreter_well_nested (w : W) : well_nested (Interpreter w).
Proof. apply single_frame_well_nested. reflexivity. Qed.

(** [Environment(enclosing)] on well nested frames. *)
Lemma Environment_well_nested (st : interp W) (outer : option loc) :
  well_nested st ->
  (forall o, outer = Some o -> is_Some (frames st !! o)) ->
  exists st',
    Environment outer st = (Ok (next st), st')
    /\ well_nested st'
    /\ frames st !! next st = None
    /\ frames st' !! next st = Some (mkFrame ∅ outer)
    /\ forall l, l <> next st -> frames st' !! l = frames st !! l.
Proof.
  intros Hw Hparent.
  assert (Hfresh : frames st !! next st = None).
  { destruct (frames st !! next st) as [f |] eqn:Hf; [ | reflexivity ].
    destruct (Hw _ f Hf) as [Hlt _]. lia. }
  eexists. split; [ reflexivity | ].
  split; [ | split; [ exact Hfresh | split ] ].
  - intros l f Hl.
    cbn [frames next set_frames set_next] in *.
    destruct (decide (next st = l)) as [<- | Hne].
    + rewrite lookup_insert_eq in Hl. injection Hl as <-.
      cbn [enclosing].
      split; [ lia | ].
      intros o Ho. destruct (Hparent o Ho) as [fo Hfo].
      destruct (Hw o fo Hfo) as [Hlt _].
      split; [ lia | ].
      rewrite lookup_insert_ne by lia. eauto.
    + rewrite lookup_insert_ne in Hl by assumption.
      destruct (Hw l f Hl) as [Hlt Houter].
      split; [ lia | ].
      intros o Ho. destruct (Houter o Ho) as [Hlt' [fo Hfo]].
      split; [ assumption | ].
      destruct (Hw o fo Hfo) as [Hlto _].
      rewrite lookup_insert_ne by lia. eauto.
  - cbn [frames set_frames set_next]. apply lookup_insert_eq.
  - intros l Hne. cbn [frames set_frames set_next].
    apply lookup_insert_ne. congruence.
Qed.

End Rebinding.

Section BlockFrame.
Import Ast Interp.

(** A block frame opened on a fresh interpreter. *)
Lemma block_frame_well_nested :
  well_nested block_frame_state
  /\ frames block_frame_state !! 1 = Some (mkFrame ∅ (Some 0)).
Proof.
  destruct (Environment_well_nested (Interpreter tt) (Some 0)
              (Interpreter_well_nested tt)) as [st' [Hrun [Hw [_ [Hnew _]]]]].
  - intros o Ho. injection Ho as <-.
    unfold Interpreter. cbn [frames]. rewrite lookup_singleton_eq. eauto.
  - unfold block_frame_state.
    rewrite Hrun. cbn [snd]. split; [ exact Hw | exact Hnew ].
Qed.

End BlockFrame.

(** X6: in the frames the evaluator builds, assignment succeeds exactly
    when the lookup of the name does. It then rebinds the name where it is
    bound, so that the lookup finds the new value, without creating a
    binding in any frame and without touching what the other names resolve
    to; when no frame of the chain binds the name it raises the runtime
    error [Undefined variable] and changes nothing. *)
Theorem assignment_rebinds_where_bound
    {W : Type} (st : Interp.interp W) (env : Interp.loc)
    (f : Interp.frame) (name : string) (v : Interp.val)
    (Hnested : well_nested st)
    (Hframe : Interp.frames st !! env = Some f) :
  match fst (Interp.get env name st) with
  | Ok _ =>
      exists st',
        Interp.assign env name v st = (Ok tt, st')
        /\ fst (Interp.get env name st') = Ok v
        /\ well_nested st'
        /\ (forall l n, bound_in st' l n <-> bound_in st l n)
        /\ (forall env' n, n <> name ->
              fst (Interp.get env' n st') = fst (Interp.get env' n st))
  | _ =>
      Interp.assign env name v st
      = (Raise (Interp.undefined_variable name), st)
  end.
Proof.
  pose proof (well_nested_nested st Hnested) as Hn.
  destruct (Hnested env f Hframe) as [Hlt _].
  assert (Hres : resolves (Interp.frames st) name env
                   (fst (Interp.get env name st))).
  { apply (get_in_resolves _ name Hn _ env f); [ lia | assumption ]. }
  destruct (assign_in_follows_resolves (Interp.frames st) name v Hn
              (S (Interp.next st)) env f ltac:(lia) Hframe) as [Hok Herr].
  destruct (resolves_ok_or_undefined _ _ _ _ Hres) as [[v0 Hv0] | Hundef].
  - rewrite Hv0. rewrite Hv0 in Hres.
    destruct (Hok v0 Hres) as [fs' [Hassign Hnew]].
    destruct (assign_in_shape _ _ _ _ _ _ Hassign) as [e [fe [He [Hb ->]]]].
    eexists. split; [ unfold Interp.assign; rewrite Hassign; reflexivity | ].
    split; [ | split; [ | split ] ].
    + eapply resolves_functional; [ | exact Hnew ].
      apply (get_in_resolves _ name
               (rebinding_keeps_nested _ e fe name v Hn He) _ env
               (if decide (e = env)
                then Interp.mkFrame (<[name := v]> (Interp.values fe))
                                    (Interp.enclosing fe)
                else f)); [ simpl; lia | ].
      destruct (decide (e = env)) as [-> | Hne].
      * apply lookup_insert_eq.
      * rewrite lookup_insert_ne by assumption. assumption.
    + apply rebinding_keeps_well_nested; assumption.
    + apply rebinding_keeps_bound_names; assumption.
    + intros env' n Hne. unfold Interp.get.
      cbn [fst Interp.frames Interp.next Interp.set_frames].
      apply rebinding_keeps_other_names; assumption.
  - rewrite Hundef. rewrite Hundef in Hres.
    unfold Interp.assign. rewrite (Herr Hres). reflexivity.
Qed.

(** X7: the frames stay well nested. A fresh interpreter starts with the
    global frame alone; [Environment(enclosing)] adds an empty frame with a
    new identity and the given enclosing frame, and leaves the frames that
    exist as they are; [define] and [assign], however they end, keep the
    frames well nested. *)
Theorem frames_stay_well_nested {W : Type} :
  (forall w : W,
      well_nested (Interp.Interpreter w)
      /\ Interp.frames (Interp.Interpreter w) !! Interp.globals (Interp.Interpreter w)
         <> None)
  /\ (forall (st : Interp.interp W) enclosing,
        well_nested st ->
        (forall o, enclosing = Some o -> is_Some (Interp.frames st !! o)) ->
        exists st',
          Interp.Environment enclosing st = (Ok (Interp.next st), st')
          /\ well_nested st'
          /\ Interp.frames st !! Interp.next st = None
          /\ Interp.frames st' !! Interp.next st
             = Some (Interp.mkFrame ∅ enclosing)
          /\ forall l, l <> Interp.next st ->
                       Interp.frames st' !! l = Interp.frames st !! l)
  /\ (forall (st : Interp.interp W) env name v,
        well_nested st ->
        well_nested (snd (Interp.define env name v st))
        /\ well_nested (snd (Interp.assign env name v st))).
Proof.
  split; [ | split ].
  - intros w. split; [ apply Interpreter_well_nested | ].
    unfold Interp.Interpreter. cbn [Interp.frames Interp.globals].
    rewrite lookup_singleton_eq. discriminate.
  - intros st enclosing Hw Hparent.
    apply Environment_well_nested; assumption.
  - intros st env name v Hw. split.
    + unfold Interp.define.
      destruct (Interp.frames st !! env) as [f |] eqn:Hf; [ | exact Hw ].
      apply rebinding_keeps_well_nested; assumption.
    + unfold Interp.assign.
      destruct (Interp.assign_in _ _ _ _ _) as [fs' | e |] eqn:Hassign;
        try exact Hw.
      destruct (assign_in_shape _ _ _ _ _ _ Hassign) as [e [fe [He [_ ->]]]].
      apply rebinding_keeps_well_nested; assumption.
Qed.

Section EnvironmentsAtWork.
Import Ast Interp.

(** X5 at a block frame opened on a fresh interpreter: [len] is not bound
    in the block frame and is read from the global one; [zzz] is bound
    nowhere. *)
Lemma lookup_from_a_block_frame :
  well_nested block_frame_state
  /\ frames block_frame_state !! 1 = Some (mkFrame ∅ (Some 0))
  /\ fst (get 1 "len" block_frame_state) = Ok (VNative _len)
  /\ fst (get 1 "zzz" block_frame_state) = Raise (undefined_variable "zzz").
Proof.
  destruct block_frame_well_nested as [Hw Hf].
  split; [ exact Hw | split; [ exact Hf | ] ].
  split.
  - destruct (lookup_reads_the_innermost_binding
                block_frame_state 1 _ "len" Hw Hf) as [_ [Heq _]].
    rewrite Heq. vm_compute. reflexivity.
  - destruct (lookup_reads_the_innermost_binding
                block_frame_state 1 _ "zzz" Hw Hf) as [_ [Heq _]].
    rewrite Heq. vm_compute. reflexivity.
Defined.

(** X6 at the same state: assigning to [len] from the block frame rebinds
    it, assigning to [zzz] is the runtime error. *)
Lemma assignment_from_a_block_frame :
  well_nested block_frame_state
  /\ frames block_frame_state !! 1 = Some (mkFrame ∅ (Some 0))
  /\ (exists st',
        assign 1 "len" (VInt 5) block_frame_state = (Ok tt, st')
        /\ fst (get 1 "len" st') = Ok (VInt 5))
  /\ assign 1 "zzz" (VInt 5) block_frame_state
     = (Raise (undefined_variable "zzz"), block_frame_state).
Proof.
  destruct block_frame_well_nested as [Hw Hf].
  split; [ exact Hw | split; [ exact Hf | ] ].
  split.
  - pose proof (assignment_rebinds_where_bound
                  block_frame_state 1 _ "len" (VInt 5) Hw Hf) as H.
    assert (Hget : fst (get 1 "len" block_frame_state) = Ok (VNative _len))
      by (vm_compute; reflexivity).
    rewrite Hget in H. destruct H as [st' [Hassign [Hnew _]]].
    exists st'. split; assumption.
  - pose proof (assignment_rebinds_where_bound
                  block_frame_state 1 _ "zzz" (VInt 5) Hw Hf) as H.
    assert (Hget : fst (get 1 "zzz" block_frame_state)
                   = Raise (undefined_variable "zzz"))
      by (vm_compute; reflexivity).
    rewrite Hget in H. exact H.
Defined.

End EnvironmentsAtWork.

(** ** Dictionaries and object literals *)

Section Dictionaries.
Import Ast Interp.
Context {W : Type} (host : Host W).

Lemma getitem_setitem_eq (key : string) (value : val) items :
  getitem key (setitem key value items) = Some value.
Proof.
  induction items as [| [k v] rest IH]; cbn [setitem getitem].
  - rewrite String.eqb_refl. reflexivity.
  - destruct (String.eqb k key) eqn:Hk; cbn [getitem]; rewrite Hk;
      [ reflexivity | exact IH ].
Qed.

Lemma getitem_setitem_ne (key k' : string) (value : val) items :
  k' <> key -> getitem k' (setitem key value items) = getitem k' items.
Proof.
  intros Hne. induction items as [| [k v] rest IH]; cbn [setitem getitem].
  - destruct (String.eqb_spec key k'); [ congruence | reflexivity ].
  - destruct (String.eqb_spec k key) as [-> | Hk]; cbn [getitem].
    + destruct (String.eqb_spec key k'); [ congruence | reflexivity ].
    + destruct (String.eqb k k'); [ reflexivity | exact IH ].
Qed.

Lemma keys_of_setitem (key : string) (value : val) items :
  map fst (setitem key value items)
  = match getitem key items with
    | Some _ => map fst items
    | None => map fst items ++ [key]
    end.
Proof.
  induction items as [| [k v] rest IH]; cbn [setitem getitem]; [ reflexivity | ].
  destruct (String.eqb_spec k key) as [-> | Hk]; [ reflexivity | ].
  cbn [map fst]. rewrite IH. destruct (getitem key rest); reflexivity.
Qed.

Lemma getitem_None_not_a_key (key : string) items :
  getitem key items = None -> ~ In key (map fst items).
Proof.
  induction items as [| [k v] rest IH]; cbn [getitem map fst]; intros H.
  - intros [].
  - destruct (String.eqb_spec k key) as [-> | Hk]; [ discriminate H | ].
    intros [Heq | Hin]; [ congruence | exact (IH H Hin) ].
Qed.

(** The properties of a literal are stored one after the other. *)
Lemma set_literal_properties (exec_fuel : nat) (obj : loc)
    (ps : list (string * (constant * string))) :
  forall (items : list (string * val)) (st : interp W),
    dicts st !! obj = Some items ->
    set_properties (accept host (S exec_fuel)) obj (literal_properties ps) st
    = (Ok tt,
       set_dicts
         (<[obj := fold_left
                     (fun items p =>
                        setitem (fst p) (constant_value (fst (snd p))) items)
                     ps items]> (dicts st)) st).
Proof.
  induction ps as [| [k [c t]] rest IH]; intros items st Hobj.
  - cbn [literal_properties map set_properties fold_left]. unfold ret.
    rewrite insert_id by assumption. destruct st; reflexivity.
  - cbn [literal_properties map set_properties fold_left fst snd].
    unfold Property, evaluate. cbn [accept accept_node].
    unfold visit_literal. unfold bind at 1. cbn [ret].
    unfold bind at 1. unfold dict_setitem at 1. rewrite Hobj.
    fold (literal_properties rest).
    rewrite (IH (setitem k (constant_value c) items)).
    + cbn [dicts set_dicts]. rewrite insert_insert_eq. reflexivity.
    + cbn [dicts set_dicts]. apply lookup_insert_eq.
Qed.

End Dictionaries.

(** X8: storing under a key of a dictionary makes the key read back the
    stored value and leaves every other key as it was; a key that is
    already there keeps its place and a new key goes last, so the keys stay
    free of duplicates. *)
Theorem dictionary_items_update_in_place
    (key : string) (value : Interp.val) (items : list (string * Interp.val)) :
  Interp.getitem key (Interp.setitem key value items) = Some value
  /\ (forall k, k <> key ->
        Interp.getitem k (Interp.setitem key value items)
        = Interp.getitem k items)
  /\ map fst (Interp.setitem key value items)
     = match Interp.getitem key items with
       | Some _ => map fst items
       | None => map fst items ++ [key]
       end
  /\ (NoDup (map fst items) ->
      NoDup (map fst (Interp.setitem key value items))).
Proof.
  split; [ apply getitem_setitem_eq | ].
  split; [ intros k Hk; apply getitem_setitem_ne; assumption | ].
  split; [ apply keys_of_setitem | ].
  intros Hnodup. rewrite keys_of_setitem.
  destruct (Interp.getitem key items) eqn:Hget; [ exact Hnodup | ].
  apply NoDup_app. split; [ assumption | ].
  split; [ | apply NoDup_singleton ].
  intros x Hx Hin. apply list_elem_of_singleton in Hin. subst x.
  apply (getitem_None_not_a_key key items Hget).
  apply list_elem_of_In. assumption.
Qed.

(** X9: an object literal whose property values are literals evaluates to a
    new dictionary holding its properties in order, a repeated key keeping
    its first place and taking its last value; the new dictionary is the
    only change to the store, and the frames are untouched. *)
Theorem object_literal_builds_a_new_dictionary
    {W : Type} (host : Interp.Host W) (fuel : nat)
    (ps : list (string * (Ast.constant * string))) (st : Interp.interp W) :
  Interp.accept host (S (S fuel))
    (Ast.ObjectExpression (literal_properties ps)) st
  = (Ok (Interp.VDict (Interp.next st)),
     Interp.set_dicts
       (<[Interp.next st := literal_items ps]> (Interp.dicts st))
       (Interp.set_next (S (Interp.next st)) st)).
Proof.
  cbn [Interp.accept Interp.accept_node].
  unfold Interp.visit_object_expression.
  unfold bind at 1. unfold Interp.new_dict. unfold bind at 1.
  unfold Interp.fresh at 1. unfold bind at 1. unfold modify at 1.
  unfold bind at 1. cbn [ret].
  rewrite (set_literal_properties host fuel (Interp.next st) ps []).
  - cbn [Interp.dicts Interp.set_dicts Interp.set_next].
    rewrite insert_insert_eq. reflexivity.
  - cbn [Interp.dicts Interp.set_dicts Interp.set_next].
    apply lookup_insert_eq.
Qed.

(** ** Binary expressions *)

Section BinaryExpressions.
Import Ast Interp.
Context {W : Type} (host : Host W).

Lemma binary_after_operands (fuel : nat) (lhs rhs : node) (operator : string)
    (st st1 : interp W) (vl : val)
    (Hleft : accept host fuel lhs st = (Ok vl, st1)) :
  accept host (S fuel) (BinaryExpression lhs operator rhs) st
  = match accept host fuel rhs st1 with
    | (Ok vr, st2) =>
        (if String.eqb operator "+" then lift (_add vl vr)
         else if String.eqb operator "-" then lift (_subtract vl vr)
         else if String.eqb operator "*" then lift (_multiply vl vr)
         else if String.eqb operator "/" then lift (_divide vl vr)
         else if String.eqb operator "%" then lift (_modulo vl vr)
         else if String.eqb operator "==" then _equal host vl vr
         else if String.eqb operator "!=" then _not_equal host vl vr
         else if String.eqb operator "<" then lift (_less vl vr)
         else if String.eqb operator "<=" then lift (_less_equal vl vr)
         else if String.eqb operator ">" then lift (_greater vl vr)
         else if String.eqb operator ">=" then lift (_greater_equal vl vr)
         else if String.eqb operator "&&" then ret (_and vl vr)
         else if String.eqb operator "||" then ret (_or vl vr)
         else raise (unknown_binary_operator operator)) st2
    | (Raise e, st2) => (Raise e, st2)
    | (Timeout, st2) => (Timeout, st2)
    end.
Proof.
  cbn [accept accept_node]. unfold visit_binary_expression, evaluate.
  unfold bind at 1. rewrite Hleft. unfold bind at 1.
  destruct (accept host fuel rhs st1) as [[vr | e |] st2]; reflexivity.
Qed.

Lemma not_a_known_operator (operator : string) :
  ~ In operator binary_operators ->
  forall {A} (a b c d e f g h i j k l m n : A),
    (if String.eqb operator "+" then a
     else if String.eqb operator "-" then b
     else if String.eqb operator "*" then c
     else if String.eqb operator "/" then d
     else if String.eqb operator "%" then e
     else if String.eqb operator "==" then f
     else if String.eqb operator "!=" then g
     else if String.eqb operator "<" then h
     else if String.eqb operator "<=" then i
     else if String.eqb operator ">" then j
     else if String.eqb operator ">=" then k
     else if String.eqb operator "&&" then l
     else if String.eqb operator "||" then m
     else n) = n.
Proof.
  intros Hnot A a b c d e f g h i j k l m n.
  repeat match goal with
         | |- context [String.eqb operator ?s] =>
             destruct (String.eqb_spec operator s) as [-> | _];
             [ exfalso; apply Hnot; unfold binary_operators; simpl; tauto | ]
         end.
  reflexivity.
Qed.

End BinaryExpressions.

(** X10: a binary expression evaluates its left operand and then always
    its right operand, whatever the operator and the left value: if the
    right operand raises, the expression raises the same, so [&&] and [||]
    never skip their right side; when both operands have values, [&&] and
    [||] give the boolean conjunction and disjunction of their truthiness,
    not one of the operands. *)
Theorem both_operands_are_always_evaluated
    {W : Type} (host : Interp.Host W) (fuel : nat)
    (lhs rhs : Ast.node) (operator : string)
    (st st1 st2 : Interp.interp W) (vl : Interp.val)
    (Hleft : Interp.accept host fuel lhs st = (Ok vl, st1)) :
  (forall e,
      Interp.accept host fuel rhs st1 = (Raise e, st2) ->
      Interp.accept host (S fuel) (Ast.BinaryExpression lhs operator rhs) st
      = (Raise e, st2))
  /\ (forall vr,
        Interp.accept host fuel rhs st1 = (Ok vr, st2) ->
        Interp.accept host (S fuel) (Ast.BinaryExpression lhs "&&" rhs) st
        = (Ok (Interp.VBool (Interp._is_truthy vl && Interp._is_truthy vr)),
           st2)
        /\ Interp.accept host (S fuel) (Ast.BinaryExpression lhs "||" rhs) st
           = (Ok (Interp.VBool (Interp._is_truthy vl || Interp._is_truthy vr)),
              st2)).
Proof.
  split.
  - intros e Hright.
    rewrite (binary_after_operands host fuel lhs rhs operator st st1 vl Hleft).
    rewrite Hright. reflexivity.
  - intros vr Hright. split.
    + rewrite (binary_after_operands host fuel lhs rhs "&&" st st1 vl Hleft).
      rewrite Hright. reflexivity.
    + rewrite (binary_after_operands host fuel lhs rhs "||" st st1 vl Hleft).
      rewrite Hright. reflexivity.
Qed.

(** X11: an operator spelling other than the thirteen symbols the evaluator
    knows is a runtime error once both operands have been evaluated, and a
    unary operator other than [-] and [!] likewise. The keyword operators
    of the alias vocabulary are such spellings: the parser keeps the
    lexemes [ba], [aru] and [not_kora] as the operator of the node, so an
    expression written with them parses and then fails when evaluated. *)
Theorem keyword_operators_parse_but_do_not_evaluate
    {W : Type} (host : Interp.Host W) :
  (forall fuel lhs rhs operator st st1 st2 vl vr,
      ~ In operator binary_operators ->
      Interp.accept host fuel lhs st = (Ok vl, st1) ->
      Interp.accept host fuel rhs st1 = (Ok vr, st2) ->
      Interp.accept host (S fuel) (Ast.BinaryExpression lhs operator rhs) st
      = (Raise (Interp.RuntimeError ("Unknown binary operator: " ++ operator)),
         st2))
  /\ (forall fuel operand operator st st1 v,
        ~ In operator unary_operators ->
        Interp.accept host fuel operand st = (Ok v, st1) ->
        Interp.accept host (S fuel) (Ast.UnaryExpression operator operand) st
        = (Raise (Interp.RuntimeError ("Unknown unary operator: " ++ operator)),
           st1))
  /\ Parser.parse_source "true ba false; true aru false; not_kora true;"
     = Ok (Ok (Ast.Program
                 [ Ast.BinaryExpression (Ast.Literal (Ast.CBool true) "boolean")
                     "ba" (Ast.Literal (Ast.CBool false) "boolean");
                   Ast.BinaryExpression (Ast.Literal (Ast.CBool true) "boolean")
                     "aru" (Ast.Literal (Ast.CBool false) "boolean");
                   Ast.UnaryExpression "not_kora"
                     (Ast.Literal (Ast.CBool true) "boolean") ]),
           []).
Proof.
  split; [ | split ].
  - intros fuel lhs rhs operator st st1 st2 vl vr Hnot Hleft Hright.
    rewrite (binary_after_operands host fuel lhs rhs operator st st1 vl Hleft).
    rewrite Hright. rewrite (not_a_known_operator operator Hnot). reflexivity.
  - intros fuel operand operator st st1 v Hnot Hoperand.
    cbn [Interp.accept Interp.accept_node].
    unfold Interp.visit_unary_expression, Interp.evaluate, bind.
    rewrite Hoperand.
    destruct (String.eqb_spec operator "-") as [-> | _];
      [ exfalso; apply Hnot; simpl; tauto | ].
    destruct (String.eqb_spec operator "!") as [-> | _];
      [ exfalso; apply Hnot; simpl; tauto | ].
    reflexivity.
  - vm_compute. reflexivity.
Qed.

(** ** Indexing *)

(** X12: indexing needs a list and an integer index. Once both operands
    have values: anything but a list, a string included, is the runtime
    error [Only arrays can be indexed]; a list with an index that is not an
    integer is [Array index must be an integer]; an integer below zero or
    not below the length is [Array index out of bounds], so negative
    indices do not count from the end; and an index within bounds reads the
    element at that position. None of these changes the state further. *)
Theorem indexing_checks_list_integer_and_bounds
    {W : Type} (host : Interp.Host W) (fuel : nat)
    (array index : Ast.node) (st st1 st2 : Interp.interp W)
    (va vi : Interp.val)
    (Harray : Interp.accept host fuel array st = (Ok va, st1))
    (Hindex : Interp.accept host fuel index st1 = (Ok vi, st2)) :
  let result :=
    Interp.accept host (S fuel) (Ast.IndexExpression array index) st in
  ((forall l, va <> Interp.VList l) ->
   result = (Raise (Interp.RuntimeError "Only arrays can be indexed"), st2))
  /\ (forall l elements,
        va = Interp.VList l ->
        Interp.lists st2 !! l = Some elements ->
        (Interp.as_int vi = None ->
         result
         = (Raise (Interp.RuntimeError "Array index must be an integer"), st2))
        /\ (forall i,
              Interp.as_int vi = Some i ->
              (i < 0 \/ Z.of_nat (length elements) <= i)%Z ->
              result
              = (Raise (Interp.RuntimeError "Array index out of bounds"), st2))
        /\ (forall i,
              Interp.as_int vi = Some i ->
              (0 <= i < Z.of_nat (length elements))%Z ->
              exists x,
                elements !! Z.to_nat i = Some x /\ result = (Ok x, st2))).
Proof.
  intros result.
  assert (Hstep :
    result
    = match va with
      | Interp.VList l =>
          match Interp.as_int vi with
          | Some i =>
              match Interp.lists st2 !! l with
              | Some elements =>
                  if ((i <? 0) || (Z.of_nat (length elements) <=? i))%Z then
                    (Raise (Interp.RuntimeError "Array index out of bounds"), st2)
                  else
                    match elements !! Z.to_nat i with
                    | Some v => (Ok v, st2)
                    | None => (Raise (Interp.HostError "IndexError"), st2)
                    end
              | None => (Raise Interp.dangling, st2)
              end
          | None =>
              (Raise (Interp.RuntimeError "Array index must be an integer"), st2)
          end
      | _ => (Raise (Interp.RuntimeError "Only arrays can be indexed"), st2)
      end).
  { subst result. cbn [Interp.accept Interp.accept_node].
    unfold Interp.visit_index_expression, Interp.evaluate.
    unfold bind at 1. rewrite Harray. unfold bind at 1. rewrite Hindex.
    destruct va; try reflexivity.
    destruct (Interp.as_int vi) as [i |]; [ | reflexivity ].
    unfold bind, get_state.
    destruct (Interp.lists st2 !! l) as [elements |]; [ | reflexivity ].
    destruct ((i <? 0) || (Z.of_nat (length elements) <=? i))%Z;
      [ reflexivity | ].
    destruct (elements !! Z.to_nat i); reflexivity. }
  rewrite Hstep. split.
  - intros Hnot. destruct va; try reflexivity. destruct (Hnot l). reflexivity.
  - intros l elements -> Hl. rewrite Hl. split; [ | split ].
    + intros ->. reflexivity.
    + intros i -> Hout.
      assert (((i <? 0) || (Z.of_nat (length elements) <=? i))%Z = true)
        as ->; [ | reflexivity ].
      apply orb_true_iff. destruct Hout as [H | H];
        [ left; apply Z.ltb_lt | right; apply Z.leb_le ]; assumption.
    + intros i -> [Hlo Hhi].
      assert (((i <? 0) || (Z.of_nat (length elements) <=? i))%Z = false)
        as ->.
      { apply orb_false_iff. split;
          [ apply Z.ltb_ge | apply Z.leb_gt ]; assumption. }
      destruct (lookup_lt_is_Some_2 elements (Z.to_nat i)) as [x Hx]; [ lia | ].
      exists x. rewrite Hx. split; reflexivity.
Qed.

(** ** Calls of user functions *)

Section UserCalls.
Import Ast Interp.
Context {W : Type} (host : Host W).

(** Binding the parameters in a frame that exists. *)
Lemma define_all_binds (env : loc)
    (bindings : list (FnParameter * val)) :
  forall (st : interp W) (f : frame),
    frames st !! env = Some f ->
    define_all env bindings st
    = (Ok tt,
       set_frames
         (<[env := mkFrame
                     (fold_left (fun m b => <[param_name (fst b) := snd b]> m)
                                bindings (values f))
                     (enclosing f)]> (frames st)) st).
Proof.
  induction bindings as [| [param arg] rest IH]; intros st f Hf.
  - cbn [define_all fold_left]. unfold ret.
    replace (mkFrame (values f) (enclosing f)) with f by (destruct f; reflexivity).
    rewrite insert_id by assumption. destruct st; reflexivity.
  - cbn [define_all fold_left fst snd].
    unfold bind. unfold define at 1. rewrite Hf.
    rewrite (IH _ (mkFrame (<[param_name param := arg]> (values f)) (enclosing f))).
    + cbn [frames set_frames values enclosing].
      rewrite insert_insert_eq. reflexivity.
    + cbn [frames set_frames]. apply lookup_insert_eq.
Qed.

(** Folding bindings over a map: a name not among the bindings keeps its
    entry, and with distinct names each binding is found. *)
Lemma fold_bindings_other (bindings : list (FnParameter * val)) (name : string) :
  forall m : gmap string val,
    name ∉ map (fun b => param_name (fst b)) bindings ->
    fold_left (fun m b => <[param_name (fst b) := snd b]> m) bindings m !! name
    = m !! name.
Proof.
  induction bindings as [| [p a] rest IH]; intros m Hnot; [ reflexivity | ].
  cbn [fold_left map fst snd] in *.
  apply not_elem_of_cons in Hnot as [Hne Hrest].
  rewrite (IH _ Hrest). apply lookup_insert_ne. congruence.
Qed.

Lemma fold_bindings_found (bindings : list (FnParameter * val)) :
  forall (m : gmap string val) (p : FnParameter) (a : val),
    NoDup (map (fun b => param_name (fst b)) bindings) ->
    (p, a) ∈ bindings ->
    fold_left (fun m b => <[param_name (fst b) := snd b]> m) bindings m
      !! param_name p
    = Some a.
Proof.
  induction bindings as [| [q b] rest IH]; intros m p a Hnodup Hin.
  - inversion Hin.
  - cbn [fold_left map fst snd] in *.
    apply NoDup_cons in Hnodup as [Hfresh Hnodup].
    apply elem_of_cons in Hin as [Heq | Hin].
    + inversion Heq; subst q b.
      rewrite (fold_bindings_other rest (param_name p) _ Hfresh).
      apply lookup_insert_eq.
    + apply IH; assumption.
Qed.

(** [HixaFunction.call] on a well-formed declaration, step by step. *)
Lemma HixaFunction_call_unfolded (exec : node -> I W val)
    (name : string) (parameters : list FnParameter) (return_type : option string)
    (statements : list node) (closure : loc) (arguments : list val)
    (st : interp W) :
  let entry :=
    set_frames
      (<[next st := mkFrame (call_bindings parameters arguments) (Some closure)]>
         (frames st))
      (set_next (S (next st)) st) in
  HixaFunction_call exec
    (FunctionDeclaration name parameters return_type (BlockStatement statements))
    closure arguments st
  = match execute_block exec statements (next st) entry with
    | (Ok tt, st') => (Ok VNone, st')
    | (Raise (Return value), st') => (Ok value, st')
    | (Raise e, st') => (Raise e, st')
    | (Timeout, st') => (Timeout, st')
    end.
Proof.
  intros entry. unfold HixaFunction_call.
  unfold bind at 1. unfold Environment at 1. unfold bind at 1.
  unfold fresh at 1. unfold bind at 1. unfold modify at 1. cbn [ret].
  unfold bind at 1. cbn [attribute parameters_of ret].
  unfold bind at 1.
  rewrite (define_all_binds (next st) (zip parameters arguments) _
             (mkFrame ∅ (Some closure))).
  - cbn [frames set_frames set_next values enclosing].
    rewrite insert_insert_eq.
    unfold bind at 1. cbn [attribute body_statements ret].
    unfold try_except, bind.
    fold (call_bindings parameters arguments).
    match goal with
    | |- context [execute_block exec statements (next st) ?s] =>
        change s with entry
    end.
    destruct (execute_block exec statements (next st) entry)
      as [[[] | [m | value | c] |] st']; reflexivity.
  - cbn [frames set_frames set_next]. apply lookup_insert_eq.
Qed.

End UserCalls.

(** X13: a call of a user function with as many arguments as parameters
    runs the body in a new frame whose enclosing frame is the one the
    function captured, not the caller's, and in which each parameter name is
    bound to the argument at its position. A Return signal from the body
    ends there: the call evaluates to the returned value, to None when the
    body ends without returning, and passes every other exception on; it
    never lets a Return signal out. *)
Theorem a_call_binds_its_arguments_and_ends_the_return
    {W : Type} (host : Interp.Host W) (fuel : nat)
    (callee : Ast.node) (arguments : list Ast.node)
    (st st1 st2 : Interp.interp W) (vs : list Interp.val)
    (id closure : Interp.loc) (name : string)
    (parameters : list Ast.FnParameter) (return_type : option string)
    (statements : list Ast.node)
    (Hcallee :
       Interp.accept host fuel callee st
       = (Ok (Interp.VFunction id
                (Ast.FunctionDeclaration name parameters return_type
                   (Ast.BlockStatement statements)) closure), st1))
    (Hargs : Interp.evaluate_all (Interp.accept host fuel) arguments st1
             = (Ok vs, st2))
    (Hcount : length vs = length parameters) :
  let entry :=
    Interp.set_frames
      (<[Interp.next st2
         := Interp.mkFrame (call_bindings parameters vs) (Some closure)]>
         (Interp.frames st2))
      (Interp.set_next (S (Interp.next st2)) st2) in
  let call :=
    Interp.accept host (S fuel) (Ast.CallExpression callee arguments) st in
  call
  = match Interp.execute_block (Interp.accept host fuel) statements
            (Interp.next st2) entry with
    | (Ok tt, st') => (Ok Interp.VNone, st')
    | (Raise (Interp.Return value), st') => (Ok value, st')
    | (Raise e, st') => (Raise e, st')
    | (Timeout, st') => (Timeout, st')
    end
  /\ (forall value, fst call <> Raise (Interp.Return value))
  /\ (NoDup (map Ast.param_name parameters) ->
      forall i p a,
        parameters !! i = Some p -> vs !! i = Some a ->
        call_bindings parameters vs !! Ast.param_name p = Some a).
Proof.
  intros entry call.
  assert (Hcall :
    call
    = match Interp.execute_block (Interp.accept host fuel) statements
              (Interp.next st2) entry with
      | (Ok tt, st') => (Ok Interp.VNone, st')
      | (Raise (Interp.Return value), st') => (Ok value, st')
      | (Raise e, st') => (Raise e, st')
      | (Timeout, st') => (Timeout, st')
      end).
  { subst call.
    rewrite (call_after_operands host fuel callee arguments st st1 st2 _ vs
               Hcallee Hargs).
    unfold bind. cbn [Interp.attribute Interp.parameters_of ret].
    rewrite Hcount, Nat.eqb_refl. cbn [negb].
    apply HixaFunction_call_unfolded. }
  split; [ | split ].
  - exact Hcall.
  - intros value. rewrite Hcall.
    destruct (Interp.execute_block _ _ _ _) as [[[] | [m | v | c] |] st'];
      discriminate.
  - intros Hnodup i p a Hp Ha. unfold call_bindings.
    apply fold_bindings_found.
    + rewrite <- (fst_zip parameters vs) in Hnodup by lia.
      rewrite <- list_fmap_compose in Hnodup. exact Hnodup.
    + apply list_elem_of_lookup. exists i.
      apply lookup_zip_with_Some. exists p, a. auto.
Qed.

(** * Further properties of the parser *)

Section TokenKinds.
Import Lexer.

Lemma of_auto_auto (t : TokenType) : of_auto (auto t) = Some t.
Proof. destruct t; reflexivity. Qed.

Lemma type_eqb_eq (a b : TokenType) : type_eqb a b = true <-> a = b.
Proof.
  unfold type_eqb. split.
  - intros H. apply Pos.eqb_eq in H.
    assert (Some a = Some b) as Hs
      by (rewrite <- (of_auto_auto a), <- (of_auto_auto b), H; reflexivity).
    injection Hs as ->. reflexivity.
  - intros ->. apply Pos.eqb_refl.
Qed.

Lemma type_eqb_neq (a b : TokenType) : type_eqb a b = false <-> a <> b.
Proof.
  split.
  - intros H Heq. apply type_eqb_eq in Heq. congruence.
  - intros H. destruct (type_eqb a b) eqn:Heq; [ | reflexivity ].
    apply type_eqb_eq in Heq. contradiction.
Qed.

End TokenKinds.

Section ParserSteps.
Import Lexer Ast Parser.

Lemma peek_at (p : parser) (t : Token) :
  tokens p !! current p = Some t -> peek p = (Ok t, p).
Proof. intros H. unfold peek. rewrite H. reflexivity. Qed.

Lemma check_at (p : parser) (t : Token) (type_ : TokenType) :
  tokens p !! current p = Some t ->
  check type_ p
  = (Ok (negb (type_eqb (type t) EOF) && type_eqb (type t) type_), p).
Proof.
  intros H. unfold check, is_at_end, bind. rewrite (peek_at p t H).
  cbn [ret]. destruct (type_eqb (type t) EOF); [ reflexivity | ].
  rewrite (peek_at p t H). reflexivity.
Qed.

Lemma check_hit (p : parser) (t : Token) (type_ : TokenType) :
  tokens p !! current p = Some t -> type t = type_ -> type_ <> EOF ->
  check type_ p = (Ok true, p).
Proof.
  intros H Ht Hne. rewrite (check_at p t type_ H). rewrite Ht.
  apply type_eqb_neq in Hne. rewrite Hne.
  rewrite (proj2 (type_eqb_eq type_ type_) eq_refl). reflexivity.
Qed.

Lemma check_miss (p : parser) (t : Token) (type_ : TokenType) :
  tokens p !! current p = Some t -> type t <> type_ ->
  check type_ p = (Ok false, p).
Proof.
  intros H Hne. rewrite (check_at p t type_ H).
  apply type_eqb_neq in Hne. rewrite Hne. rewrite andb_false_r. reflexivity.
Qed.

(** [check(EOF)] is false wherever there is a token to look at. *)
Lemma check_EOF_at (p : parser) (t : Token) :
  tokens p !! current p = Some t -> check EOF p = (Ok false, p).
Proof.
  intros H. rewrite (check_at p t EOF H).
  destruct (type_eqb (type t) EOF); reflexivity.
Qed.

Lemma advance_at (p : parser) (t : Token) :
  tokens p !! current p = Some t -> type t <> EOF ->
  advance p = (Ok t, set_current (current p + 1) p).
Proof.
  intros H Hne. unfold advance, is_at_end, bind. rewrite (peek_at p t H).
  cbn [ret]. apply type_eqb_neq in Hne. rewrite Hne.
  unfold modify, previous. cbn [current set_current tokens].
  rewrite Nat.add_1_r. rewrite H. reflexivity.
Qed.

Lemma previous_after_advance (p : parser) (t : Token) :
  tokens p !! current p = Some t ->
  previous (set_current (current p + 1) p)
  = (Ok t, set_current (current p + 1) p).
Proof.
  intros H. unfold previous. cbn [current set_current tokens].
  rewrite Nat.add_1_r. rewrite H. reflexivity.
Qed.

Lemma match_hit (p : parser) (t : Token) (type_ : TokenType) :
  tokens p !! current p = Some t -> type t = type_ -> type_ <> EOF ->
  match_ [type_] p = (Ok true, set_current (current p + 1) p).
Proof.
  intros H Ht Hne. cbn [match_]. unfold bind.
  rewrite (check_hit p t type_ H Ht Hne).
  rewrite (advance_at p t H) by congruence. reflexivity.
Qed.

Lemma match_miss (p : parser) (t : Token) (type_ : TokenType) :
  tokens p !! current p = Some t -> type t <> type_ ->
  match_ [type_] p = (Ok false, p).
Proof.
  intros H Hne. cbn [match_]. unfold bind.
  rewrite (check_miss p t type_ H Hne). reflexivity.
Qed.

Lemma consume_hit (p : parser) (t : Token) (type_ : TokenType) (message : string) :
  tokens p !! current p = Some t -> type t = type_ -> type_ <> EOF ->
  consume type_ message p = (Ok t, set_current (current p + 1) p).
Proof.
  intros H Ht Hne. unfold consume, bind.
  rewrite (check_hit p t type_ H Ht Hne).
  apply advance_at; congruence.
Qed.

Lemma raise_error_at (p : parser) (t : Token) (message : string) {A} :
  tokens p !! current p = Some t ->
  let msg := ("Error at line " ++ str_nat (line t) ++ ", column "
                ++ str_nat (column t) ++ ": " ++ message)%string in
  raise_error_at_peek (A := A) message p
  = (Raise (SyntaxError msg), errors_append msg p).
Proof.
  intros H msg. unfold raise_error_at_peek, bind.
  rewrite (peek_at p t H). reflexivity.
Qed.

End ParserSteps.

(** X14: an expression statement ends with a semicolon and with nothing
    else the lexer can produce. When the token after the expression is a
    semicolon, the statement is the expression and the semicolon is
    consumed; when it is any other token, the end marker included, the
    statement is the syntax error [Expected ';' or newline after
    expression] at that token, recorded in the error list. *)
Theorem only_a_semicolon_ends_an_expression_statement
    (self : Parser.Self) (p p' : Parser.parser) (e : Ast.node)
    (t : Lexer.Token)
    (Hexpr : Parser.do_expression self p = (Ok e, p'))
    (Hnext : Parser.tokens p' !! Parser.current p' = Some t) :
  (Lexer.type t = Lexer.SEMICOLON ->
   Parser.expression_statement self p
   = (Ok e, Parser.set_current (Parser.current p' + 1) p'))
  /\ (Lexer.type t <> Lexer.SEMICOLON -> Lexer.type t <> Lexer.NEWLINE ->
      let msg :=
        ("Error at line " ++ str_nat (Lexer.line t) ++ ", column "
           ++ str_nat (Lexer.column t)
           ++ ": Expected ';' or newline after expression")%string in
      Parser.expression_statement self p
      = (Raise (Parser.SyntaxError msg), Parser.errors_append msg p')).
Proof.
  split.
  - intros Ht. unfold Parser.expression_statement.
    unfold bind at 1. rewrite Hexpr.
    unfold bind at 1.
    rewrite (match_hit p' t Lexer.SEMICOLON Hnext Ht) by discriminate.
    reflexivity.
  - intros Hsemi Hnl msg. unfold Parser.expression_statement.
    unfold bind at 1. rewrite Hexpr.
    unfold bind at 1.
    rewrite (match_miss p' t Lexer.SEMICOLON Hnext Hsemi).
    unfold bind at 1. unfold bind at 1.
    rewrite (check_EOF_at p' t Hnext).
    unfold bind at 1.
    rewrite (check_miss p' t Lexer.NEWLINE Hnext Hnl).
    rewrite (raise_error_at p' t _ Hnext). reflexivity.
Qed.

(** X15: a variable declaration with an initializer that is followed by a
    semicolon consumes the semicolon and then one token more, unless that
    token is the end marker: the first token of whatever follows the
    declaration is skipped. *)
Theorem a_declaration_consumes_the_token_after_its_semicolon
    (self : Parser.Self) (p p' : Parser.parser) (e : Ast.node)
    (name assign semicolon following : Lexer.Token)
    (Hname : Parser.tokens p !! Parser.current p = Some name)
    (Hname_kind : Lexer.type name = Lexer.IDENTIFIER)
    (Hassign : Parser.tokens p !! (Parser.current p + 1) = Some assign)
    (Hassign_kind : Lexer.type assign = Lexer.ASSIGN)
    (Hexpr :
       Parser.do_expression self
         (Parser.set_current (Parser.current p + 1 + 1) p)
       = (Ok e, p'))
    (Hsemicolon : Parser.tokens p' !! Parser.current p' = Some semicolon)
    (Hsemicolon_kind : Lexer.type semicolon = Lexer.SEMICOLON)
    (Hfollowing :
       Parser.tokens p' !! (Parser.current p' + 1) = Some following) :
  Parser.variable_declaration self p
  = (Ok (Ast.VariableDeclaration (Lexer.value name) None (Some e)),
     if Lexer.type_eqb (Lexer.type following) Lexer.EOF
     then Parser.set_current (Parser.current p' + 1) p'
     else Parser.set_current (Parser.current p' + 1 + 1) p').
Proof.
  unfold Parser.variable_declaration.
  unfold bind at 1.
  rewrite (consume_hit p name Lexer.IDENTIFIER _ Hname Hname_kind)
    by discriminate.
  unfold bind at 1. rewrite (previous_after_advance p name Hname).
  unfold bind at 1.
  rewrite (match_miss _ assign Lexer.COLON)
    by (cbn [Parser.current Parser.set_current Parser.tokens];
        first [ exact Hassign | rewrite Hassign_kind; discriminate ]).
  unfold bind at 1. cbn [ret].
  unfold bind at 1.
  rewrite (match_hit _ assign Lexer.ASSIGN)
    by (cbn [Parser.current Parser.set_current Parser.tokens];
        first [ exact Hassign | exact Hassign_kind | discriminate ]).
  cbn [Parser.current Parser.set_current Parser.tokens].
  unfold bind at 1. unfold bind at 1.
  change (Parser.set_current (Parser.current p + 1 + 1)
            (Parser.set_current (Parser.current p + 1) p))
    with (Parser.set_current (Parser.current p + 1 + 1) p).
  rewrite Hexpr. cbn [ret].
  unfold bind at 1.
  rewrite (match_hit p' semicolon Lexer.SEMICOLON Hsemicolon Hsemicolon_kind)
    by discriminate.
  unfold bind at 1. cbn [ret]. unfold bind at 1. cbn [ret].
  unfold bind at 1. unfold bind at 1.
  rewrite (check_EOF_at _ following)
    by (cbn [Parser.current Parser.set_current Parser.tokens];
        exact Hfollowing).
  unfold bind at 1.
  destruct (Lexer.type_eqb (Lexer.type following) Lexer.EOF) eqn:Heof.
  - unfold Parser.advance, Parser.is_at_end, bind.
    rewrite (peek_at _ following)
      by (cbn [Parser.current Parser.set_current Parser.tokens];
          exact Hfollowing).
    cbn [ret]. rewrite Heof. cbn [ret].
    rewrite (previous_after_advance p' semicolon Hsemicolon). reflexivity.
  - rewrite (advance_at _ following)
      by (cbn [Parser.current Parser.set_current Parser.tokens];
          first [ exact Hfollowing | apply type_eqb_neq; exact Heof ]).
    reflexivity.
Qed.

(** ** Recovery *)

Section Loops.
Context {S E A B : Type}.

(** What a loop that ends normally has established. *)
Lemma loop_invariant (Inv : A -> S -> Prop) (Post : B -> S -> Prop)
    (step : A -> comp S E (A + B)) :
  (forall a s a' s', Inv a s -> step a s = (Ok (inl a'), s') -> Inv a' s') ->
  (forall a s b s', Inv a s -> step a s = (Ok (inr b), s') -> Post b s') ->
  forall turns a s b s',
    Inv a s -> loop turns step a s = (Ok b, s') -> Post b s'.
Proof.
  intros Hgo Hstop. induction turns as [| turns IH]; intros a s b s' Ha Hrun.
  - discriminate Hrun.
  - cbn [loop] in Hrun.
    destruct (step a s) as [[[a' | b'] | e |] s1] eqn:Hstep;
      try discriminate Hrun.
    + apply (IH a' s1 b s' (Hgo a s a' s1 Ha Hstep) Hrun).
    + inversion Hrun; subst. apply (Hstop a s b s' Ha Hstep).
Qed.

End Loops.

Section Recovery.
Import Lexer Ast Parser.

Lemma peek_keeps (p p' : parser) r : peek p = (r, p') -> p' = p.
Proof.
  unfold peek. destruct (tokens p !! current p); intros H; inversion H; reflexivity.
Qed.

Lemma previous_keeps (p p' : parser) r : previous p = (r, p') -> p' = p.
Proof.
  unfold previous. destruct (tokens p !! _); intros H; inversion H; reflexivity.
Qed.

Lemma peek_Ok (p p' : parser) (t : Token) :
  peek p = (Ok t, p') -> tokens p !! current p = Some t.
Proof.
  unfold peek. destruct (tokens p !! current p); intros H; inversion H; reflexivity.
Qed.

(** [advance] moves by at most one token and touches nothing else. *)
Lemma advance_moves_little (p p' : parser) r :
  advance p = (r, p') ->
  tokens p' = tokens p /\ errors p' = errors p
  /\ current p <= current p' <= current p + 1.
Proof.
  unfold advance, is_at_end, bind.
  destruct (peek p) as [[t | e |] p1] eqn:Hpeek;
    pose proof (peek_keeps _ _ _ Hpeek) as ->; cbn [ret].
  - destruct (type_eqb (type t) EOF); cbn [ret modify].
    + intros H. apply previous_keeps in H. subst p'. repeat split; lia.
    + intros H. apply previous_keeps in H. subst p'.
      cbn [tokens errors current set_current]. repeat split; lia.
  - intros H; inversion H; subst. repeat split; lia.
  - intros H; inversion H; subst. repeat split; lia.
Qed.

End Recovery.

(** What [synchronize] has done when it returns. *)
Lemma synchronize_result
    (p p' : Parser.parser)
    (Hrun : Parser.synchronize p = (Ok tt, p')) :
  Parser.tokens p' = Parser.tokens p
  /\ Parser.errors p' = Parser.errors p
  /\ Parser.current p <= Parser.current p'
  /\ resumption_point p'.
Proof.
  unfold Parser.synchronize in Hrun. unfold bind at 1 in Hrun.
  destruct (Parser.advance p) as [[t0 | e |] p1] eqn:Hadv;
    try discriminate Hrun.
  destruct (advance_moves_little p p1 _ Hadv) as [Htok [Herr Hcur]].
  unfold Parser.while_ in Hrun. unfold bind at 1 in Hrun.
  cbn [get_state] in Hrun.
  pose (Inv := fun (_ : unit) (s : Parser.parser) =>
                 Parser.tokens s = Parser.tokens p
                 /\ Parser.errors s = Parser.errors p
                 /\ Parser.current p <= Parser.current s).
  pose (Post := fun (_ : unit) (s : Parser.parser) =>
                  Inv tt s /\ resumption_point s).
  assert (Hpost : Post tt p').
  { eapply loop_invariant with (Inv := Inv) (Post := Post);
      [ | | | exact Hrun ].
    - (* another turn *)
      intros [] s [] s' [Hi1 [Hi2 Hi3]] Hstep.
      unfold Parser.is_at_end in Hstep. unfold bind at 1 2 in Hstep.
      destruct (Parser.peek s) as [[t | e |] s1] eqn:Hpeek;
        try discriminate Hstep.
      pose proof (peek_keeps _ _ _ Hpeek) as ->. cbn [ret] in Hstep.
      destruct (Lexer.type_eqb (Lexer.type t) Lexer.EOF);
        [ discriminate Hstep | ].
      unfold bind at 1 in Hstep.
      destruct (Parser.previous s) as [[prev | e |] s1] eqn:Hprev;
        try discriminate Hstep.
      pose proof (previous_keeps _ _ _ Hprev) as ->.
      destruct (Lexer.type_eqb (Lexer.type prev) Lexer.SEMICOLON);
        [ discriminate Hstep | ].
      unfold bind at 1 in Hstep. rewrite Hpeek in Hstep.
      destruct (existsb _ _); [ discriminate Hstep | ].
      unfold bind in Hstep.
      destruct (Parser.advance s) as [[t1 | e |] s1] eqn:Hadv1;
        try discriminate Hstep.
      inversion Hstep; subst s'.
      destruct (advance_moves_little s s1 _ Hadv1) as [H1 [H2 H3]].
      unfold Inv. rewrite H1, H2. repeat split; try assumption. lia.
    - (* leaving *)
      intros [] s [] s' [Hi1 [Hi2 Hi3]] Hstep.
      unfold Parser.is_at_end in Hstep. unfold bind at 1 2 in Hstep.
      destruct (Parser.peek s) as [[t | e |] s1] eqn:Hpeek;
        try discriminate Hstep.
      pose proof (peek_keeps _ _ _ Hpeek) as ->. cbn [ret] in Hstep.
      pose proof (peek_Ok _ _ _ Hpeek) as Ht.
      destruct (Lexer.type_eqb (Lexer.type t) Lexer.EOF) eqn:Heof.
      { inversion Hstep; subst s'. split; [ repeat split; assumption | ].
        left. exists t. split; [ assumption | ].
        left. apply type_eqb_eq. assumption. }
      unfold bind at 1 in Hstep.
      destruct (Parser.previous s) as [[prev | e |] s1] eqn:Hprev;
        try discriminate Hstep.
      pose proof (previous_keeps _ _ _ Hprev) as ->.
      destruct (Lexer.type_eqb (Lexer.type prev) Lexer.SEMICOLON) eqn:Hsemi.
      { inversion Hstep; subst s'. split; [ repeat split; assumption | ].
        right. exists prev. split; [ assumption | ].
        apply type_eqb_eq. assumption. }
      unfold bind at 1 in Hstep. rewrite Hpeek in Hstep.
      destruct (existsb _ _) eqn:Hstart.
      { inversion Hstep; subst s'. split; [ repeat split; assumption | ].
        left. exists t. split; [ assumption | ]. right.
        apply existsb_exists in Hstart as [x [Hin Hx]].
        apply type_eqb_eq in Hx. rewrite Hx. assumption. }
      unfold bind in Hstep.
      destruct (Parser.advance s) as [[t1 | e |] s1]; discriminate Hstep.
    - unfold Inv. repeat split; try assumption. lia. }
  destruct Hpost as [[H1 [H2 H3]] H4]. repeat split; assumption.
Qed.

Section RecoveryEnds.
Import Lexer Ast Parser.

(** The loop of [synchronize] ends before the end marker is passed. *)
Lemma synchronize_loop_ends (k : nat) (eof : Token) (turns : nat) :
  type eof = EOF ->
  forall s : parser,
    tokens s !! k = Some eof -> current s <= k -> k - current s < turns ->
    exists s',
      loop turns
        (fun _ : unit =>
           let! e := is_at_end in
           if e then ret (inr tt)
           else
             let! prev := previous in
             if type_eqb (type prev) SEMICOLON then ret (inr tt)
             else
               let! t := peek in
               if existsb (type_eqb (type t)) statement_starts
               then ret (inr tt)
               else do! advance in ret (inl tt)) tt s
      = (Ok tt, s')
      /\ current s' <= k.
Proof.
  intros Hkind. induction turns as [|turns IH]; intros s Hk Hcur Hturns;
    [lia|].
  cbn [loop].
  assert (Hlen : k < length (tokens s))
    by (apply lookup_lt_is_Some; eauto).
  destruct (lookup_lt_is_Some_2 (tokens s) (current s)) as [t Ht]; [lia|].
  unfold is_at_end. unfold bind at 1 2. rewrite (peek_at s t Ht). cbn [ret].
  destruct (type_eqb (type t) EOF) eqn:Heof.
  { exists s. split; [reflexivity | exact Hcur]. }
  assert (Hprev : exists prev, previous s = (Ok prev, s)).
  { unfold previous.
    destruct (lookup_lt_is_Some_2 (tokens s)
                (match current s with 0 => length (tokens s) - 1 | S i => i end))
      as [prev Hp].
    - destruct (current s); lia.
    - exists prev. rewrite Hp. reflexivity. }
  destruct Hprev as [prev Hprev]. unfold bind at 1. rewrite Hprev.
  destruct (type_eqb (type prev) SEMICOLON).
  { exists s. split; [reflexivity | exact Hcur]. }
  unfold bind at 1. rewrite (peek_at s t Ht).
  destruct (existsb _ _).
  { exists s. split; [reflexivity | exact Hcur]. }
  assert (Hne : type t <> EOF).
  { intros H. rewrite H in Heof. discriminate Heof. }
  unfold bind. rewrite (advance_at s t Ht Hne).
  assert (Hnot : current s <> k).
  { intros H. rewrite H in Ht. rewrite Hk in Ht.
    injection Ht as <-. contradiction. }
  apply IH; cbn [tokens current set_current]; [exact Hk | lia | lia].
Qed.

End RecoveryEnds.

(** X16: from anywhere at or before the end marker, [synchronize] returns.
    It has then only moved forward in the token list, never past the end
    marker, leaving the tokens and the recorded errors as they were, and it
    stands at a point where parsing can resume: at the end marker, at a
    token that starts a statement in either vocabulary, or right after a
    semicolon. *)
Theorem synchronize_stops_at_a_resumption_point
    (p : Parser.parser) (k : nat) (eof : Lexer.Token)
    (Hcursor : Parser.current p <= k)
    (Hend : Parser.tokens p !! k = Some eof)
    (Hkind : Lexer.type eof = Lexer.EOF) :
  exists p',
    Parser.synchronize p = (Ok tt, p')
    /\ Parser.tokens p' = Parser.tokens p
    /\ Parser.errors p' = Parser.errors p
    /\ Parser.current p <= Parser.current p' <= k
    /\ resumption_point p'.
Proof.
  assert (Hlen : k < length (Parser.tokens p))
    by (apply lookup_lt_is_Some; eauto).
  destruct (lookup_lt_is_Some_2 (Parser.tokens p) (Parser.current p))
    as [t Ht]; [lia|].
  assert (Hfirst : exists t1 p1,
             Parser.advance p = (Ok t1, p1)
             /\ Parser.tokens p1 = Parser.tokens p
             /\ Parser.current p1 <= k).
  { destruct (Lexer.type_eqb (Lexer.type t) Lexer.EOF) eqn:Heof.
    - unfold Parser.advance, Parser.is_at_end, bind.
      rewrite (peek_at p t Ht). cbn [ret]. rewrite Heof. cbn [ret].
      unfold Parser.previous.
      destruct (lookup_lt_is_Some_2 (Parser.tokens p)
                  (match Parser.current p with
                   | 0 => length (Parser.tokens p) - 1
                   | S i => i
                   end)) as [prev Hp].
      + destruct (Parser.current p); lia.
      + exists prev, p. rewrite Hp. auto.
    - assert (Hne : Lexer.type t <> Lexer.EOF).
      { intros H. rewrite H in Heof. discriminate Heof. }
      exists t, (Parser.set_current (Parser.current p + 1) p).
      split; [apply advance_at; assumption|].
      split; [reflexivity|]. cbn [Parser.current Parser.set_current].
      assert (Parser.current p <> k).
      { intros H. rewrite H in Ht. rewrite Hend in Ht.
        injection Ht as <-. contradiction. }
      lia. }
  destruct Hfirst as (t1 & p1 & Hadv & Htok1 & Hcur1).
  destruct (synchronize_loop_ends k eof (S (length (Parser.tokens p1)))
              Hkind p1) as (p' & Hloop & Hcur');
    [ rewrite Htok1; exact Hend | exact Hcur1 | rewrite Htok1; lia | ].
  assert (Hrun : Parser.synchronize p = (Ok tt, p')).
  { unfold Parser.synchronize. unfold bind at 1. rewrite Hadv.
    unfold Parser.while_. unfold bind at 1. cbn [get_state].
    exact Hloop. }
  exists p'. split; [exact Hrun|].
  destruct (synchronize_result p p' Hrun) as (H1 & H2 & H3 & H4).
  repeat split; assumption.
Qed.

(** ** Shapes of parsed programs *)

Section Shapes.
Import Lexer Ast Parser.

(** A token of a known kind, taken apart. *)
Ltac fix_kind t H :=
  destruct t as [? ? ? ?]; cbn [type] in H; subst.

End Shapes.


(** X18: binary operators bind by level, loosest to tightest: or, and,
    equality, relational, additive, multiplicative; operators of one level
    associate to the left. For operands [a], [b], [c] and operators [o1],
    [o2] of any two levels, in either vocabulary, [a o1 b o2 c] is
    [a o1 (b o2 c)] when [o2] binds tighter than [o1] and [(a o1 b) o2 c]
    otherwise; the node keeps the operator's lexeme. *)
Theorem binary_operators_climb_by_level
    (a o1 b o2 c eof : Lexer.Token) (l1 l2 : nat)
    (Ha : Lexer.type a = Lexer.IDENTIFIER)
    (Hb : Lexer.type b = Lexer.IDENTIFIER)
    (Hc : Lexer.type c = Lexer.IDENTIFIER)
    (Ho1 : level (Lexer.type o1) = Some l1)
    (Ho2 : level (Lexer.type o2) = Some l2)
    (Heof : Lexer.type eof = Lexer.EOF) :
  parse_expression_tokens [a; o1; b; o2; c; eof]
  = Ok (if (l1 <? l2)%nat
        then Ast.BinaryExpression (Ast.Identifier (Lexer.value a))
               (Lexer.value o1)
               (Ast.BinaryExpression (Ast.Identifier (Lexer.value b))
                  (Lexer.value o2) (Ast.Identifier (Lexer.value c)))
        else Ast.BinaryExpression
               (Ast.BinaryExpression (Ast.Identifier (Lexer.value a))
                  (Lexer.value o1) (Ast.Identifier (Lexer.value b)))
               (Lexer.value o2) (Ast.Identifier (Lexer.value c))).
Proof.
  destruct a as [k0 v0 p0 q0], o1 as [k1 v1 p1 q1], b as [k2 v2 p2 q2],
    o2 as [k3 v3 p3 q3], c as [k4 v4 p4 q4], eof as [k5 v5 p5 q5].
  cbn [Lexer.type Lexer.value] in *. subst.
  destruct k1; try discriminate Ho1; injection Ho1 as <-;
    destruct k3; try discriminate Ho2; injection Ho2 as <-;
    vm_compute; reflexivity.
Qed.


(** ** The scanner *)

Section Scanner.
Import Lexer.

Lemma skip_whitespace_keeps (fuel : nat) (lx : lexer) :
  source (_skip_whitespace fuel lx) = source lx
  /\ tokens (_skip_whitespace fuel lx) = tokens lx
  /\ position lx <= position (_skip_whitespace fuel lx).
Proof.
  revert lx. induction fuel as [|fuel IH]; intros lx; simpl.
  - auto.
  - destruct (source lx !! position lx) as [c|]; [|auto].
    destruct (isspace c); [|auto].
    match goal with |- context [_skip_whitespace fuel ?l] =>
      destruct (IH l) as (Hs & Ht & Hp) end.
    rewrite Hs, Ht. clear Hs Ht.
    destruct (Ascii.eqb c newline); cbn in *; repeat split; lia.
Qed.

Lemma first_match_In pats text t v :
  first_match pats text = Some (t, v) ->
  exists m, In (t, m) pats /\ m text = Some v.
Proof.
  induction pats as [|[t0 m0] pats IH]; simpl; [discriminate|].
  destruct (m0 text) as [v0|] eqn:Hm.
  - intros [= <- <-]. exists m0. auto.
  - intros H. destruct (IH H) as (m & Hin & Hv). exists m. auto.
Qed.

Lemma lit_progress (p : string) text v :
  p <> ""%string -> lit p text = Some v -> v <> [].
Proof.
  unfold lit. intros Hp. destruct (decide _); [|discriminate].
  intros [= <-]. destruct p; [congruence | discriminate].
Qed.

Lemma patterns_progress :
  Forall (fun tm => forall text v, snd tm text = Some v -> v <> []) patterns.
Proof.
  unfold patterns.
  repeat (apply List.Forall_cons;
          [ cbn [snd]; intros text v;
            try (apply lit_progress; discriminate) | ]).
  6: apply List.Forall_nil.
  - unfold re_comment. intros H.
    destruct text as [|a [|b text]]; try discriminate.
    + destruct a as [[] [] [] [] [] [] [] []]; discriminate.
    + destruct a as [[] [] [] [] [] [] [] []]; try discriminate.
      destruct b as [[] [] [] [] [] [] [] []]; try discriminate.
      injection H as <-. discriminate.
  - unfold re_string. destruct text as [|c text]; [discriminate|].
    destruct (Ascii.eqb c quote); [|discriminate].
    destruct (drop _ text); [discriminate|]. intros [= <-]. discriminate.
  - unfold re_float. destruct (span isdigit text) as [|d ds] eqn:Hd;
      [discriminate|].
    destruct (drop _ text) as [|c rest]; [discriminate|].
    destruct c as [[] [] [] [] [] [] [] []]; try discriminate.
    destruct (span isdigit rest); [discriminate|].
    intros [= <-]. destruct ds; discriminate.
  - unfold re_int. destruct (span isdigit text); [discriminate|].
    intros [= <-]. discriminate.
  - unfold re_identifier. destruct text as [|c text]; [discriminate|].
    destruct (isidstart c); [|discriminate]. intros [= <-]. discriminate.
Qed.

Lemma keyword_In spelling table k :
  keyword spelling table = Some k -> In k (map snd table).
Proof.
  induction table as [|[s t] table IH]; simpl; [discriminate|].
  destruct (String.eqb s spelling).
  - intros [= <-]. auto.
  - auto.
Qed.

Lemma keywords_are_no_comment k :
  In k (map snd keywords) -> k <> COMMENT.
Proof.
  intros Hin ->.
  assert (H : forallb (fun k => negb (type_eqb k COMMENT)) (map snd keywords)
              = true) by reflexivity.
  rewrite forallb_forall in H. specialize (H _ Hin). discriminate.
Qed.

Lemma create_token_kind lx t m v :
  In (t, m) patterns ->
  type (_create_token lx t v) = COMMENT \/ scanned (_create_token lx t v).
Proof.
  intros Hin. unfold _create_token.
  destruct (type_eqb t IDENTIFIER) eqn:Ht.
  - destruct (keyword v keywords) as [k|] eqn:Hk.
    + right. apply keyword_In in Hk. split; cbn [type].
      * apply in_or_app. right. exact Hk.
      * apply keywords_are_no_comment. exact Hk.
    + apply type_eqb_eq in Ht. subst t. right. split; cbn [type].
      * apply in_or_app. left. vm_compute. tauto.
      * discriminate.
  - cbn [type].
    destruct (type_eqb t COMMENT) eqn:Hc.
    + left. apply (proj1 (type_eqb_eq _ _)). exact Hc.
    + right. split; cbn [type].
      * apply in_or_app. left.
        apply (in_map fst) in Hin. exact Hin.
      * intros ->. discriminate.
Qed.

Lemma get_next_token_spec (lx : lexer) :
  position lx < length (source lx) ->
  match _get_next_token lx with
  | (Ok token, lx') =>
      source lx' = source lx /\ tokens lx' = tokens lx
      /\ position lx < position lx'
      /\ (type token = COMMENT \/ scanned token)
  | (Raise message, _) =>
      exists c line column,
        message = unexpected_character c
                    (set_column column (set_line line lx))
  | (Timeout, _) => False
  end.
Proof.
  intros Hpos. unfold _get_next_token.
  destruct (drop (position lx) (source lx)) as [|c after] eqn:Hdrop.
  - apply (f_equal length) in Hdrop. rewrite length_drop in Hdrop.
    simpl in Hdrop. lia.
  - destruct (Ascii.eqb c "/" && _) eqn:Hcomment.
    + unfold _handle_comment. rewrite Hdrop.
      apply andb_prop in Hcomment as [Hc _].
      apply Ascii.eqb_eq in Hc. subst c.
      change (span (fun c => negb (Ascii.eqb c newline)) ("/"%char :: after))
        with ("/"%char :: span (fun c => negb (Ascii.eqb c newline)) after).
      cbn -[newline span].
      repeat split; try lia. left. reflexivity.
    + destruct (first_match patterns (c :: after)) as [[t v]|] eqn:Hm.
      * apply first_match_In in Hm as (m & Hin & Hv).
        pose proof patterns_progress as Hprog.
        rewrite List.Forall_forall in Hprog.
        specialize (Hprog _ Hin _ _ Hv). cbn.
        repeat split.
        -- destruct v; [congruence|]. simpl. lia.
        -- eapply create_token_kind. exact Hin.
      * exists c, (lx_line lx), (lx_column lx).
        unfold unexpected_character. reflexivity.
Qed.

Lemma tokenize_loop_spec (fuel : nat) (lx : lexer) :
  length (source lx) - position lx < fuel ->
  Forall scanned (tokens lx) ->
  match tokenize_loop fuel lx with
  | (Ok _, lx') => Forall scanned (tokens lx')
  | (Raise message, _) =>
      exists c line column,
        message = unexpected_character c
                    (set_column column (set_line line lx))
  | (Timeout, _) => False
  end.
Proof.
  revert lx. induction fuel as [|fuel IH]; intros lx Hfuel Htokens;
    [lia|].
  cbn [tokenize_loop].
  destruct (position lx <? length (source lx))%nat eqn:Hpos; [|exact Htokens].
  destruct (skip_whitespace_keeps (length (source lx)) lx) as (Hs & Ht & Hp).
  set (lx1 := _skip_whitespace (length (source lx)) lx) in *.
  destruct (length (source lx1) <=? position lx1)%nat eqn:Hend.
  - rewrite Ht. exact Htokens.
  - apply Nat.leb_gt in Hend.
    pose proof (get_next_token_spec lx1 Hend) as Hnext.
    destruct (_get_next_token lx1) as [[token|message|] lx2].
    + destruct Hnext as (Hs2 & Ht2 & Hp2 & Hkind).
      assert (Hfuel2 : length (source lx2) - position lx2 < fuel)
        by (rewrite Hs2, Hs in *; lia).
      assert (Hout : forall l, source l = source lx2 ->
                position l = position lx2 ->
                Forall scanned (tokens l) ->
                match tokenize_loop fuel l with
                | (Ok _, lx') => Forall scanned (tokens lx')
                | (Raise message, _) =>
                    exists c line column,
                      message = unexpected_character c
                                  (set_column column (set_line line lx))
                | (Timeout, _) => False
                end).
      { intros l Hl1 Hl2 Hl3.
        specialize (IH l). rewrite Hl1, Hl2 in IH.
        specialize (IH Hfuel2 Hl3).
        destruct (tokenize_loop fuel l) as [[u|message|] l']; exact IH. }
      destruct (type_eqb (type token) COMMENT) eqn:Hc.
      * apply Hout; auto. rewrite Ht2, Ht. exact Htokens.
      * apply Hout; auto. cbn [tokens push_token].
        rewrite Ht2, Ht. apply Forall_app. split; [exact Htokens|].
        apply List.Forall_cons; [|apply List.Forall_nil].
        destruct Hkind as [Hk|Hk]; [|exact Hk].
        rewrite Hk in Hc. discriminate.
    + destruct Hnext as (c & line & column & ->).
      exists c, line, column. reflexivity.
    + exact Hnext.
Qed.

Lemma scanned_ordinary (t : Token) : scanned t -> ordinary t.
Proof.
  intros [Hin Hc]. repeat split; [| |exact Hc]; intros Hk; rewrite Hk in Hin.
  - assert (H : forallb (fun k => negb (type_eqb k EOF))
                  (map fst patterns ++ map snd keywords) = true)
      by reflexivity.
    rewrite forallb_forall in H. specialize (H _ Hin). discriminate.
  - assert (H : forallb (fun k => negb (type_eqb k NEWLINE))
                  (map fst patterns ++ map snd keywords) = true)
      by reflexivity.
    rewrite forallb_forall in H. specialize (H _ Hin). discriminate.
Qed.

End Scanner.

(** X20: scanning always ends, and in one of two ways. Either it returns
    the tokens: then the last one, and only the last one, is the end
    marker, with an empty lexeme, and every token before it has a kind
    named by the pattern table or the keyword table, so that no [NEWLINE],
    no [COMMENT] and no second [EOF] ever reaches the parser. Or it raises
    the [SyntaxError] for an unexpected character. The turns allowed to the
    loop, one per character and one more, are never used up. *)
Theorem scanning_ends_with_the_only_end_marker (src : string) :
  match Lexer.lex src with
  | Ok toks =>
      exists body line column,
        toks = body ++ [Lexer.mkToken Lexer.EOF "" line column]
        /\ Forall scanned body /\ Forall ordinary body
  | Raise message =>
      exists c line column,
        message = Lexer.unexpected_character c
                    (Lexer.set_column column
                       (Lexer.set_line line (Lexer.Lexer src)))
  | Timeout => False
  end.
Proof.
  unfold Lexer.lex, Lexer.tokenize, bind, get_state, modify, ret.
  pose proof (tokenize_loop_spec
                (S (length (Lexer.source (Lexer.Lexer src))))
                (Lexer.Lexer src)) as H.
  destruct (Lexer.tokenize_loop _ (Lexer.Lexer src)) as [[u|message|] lx].
  - cbn [fst Lexer.tokens Lexer.push_token].
    exists (Lexer.tokens lx), (Lexer.lx_line lx), (Lexer.lx_column lx).
    assert (Hs : Forall scanned (Lexer.tokens lx)).
    { apply H; [cbn; lia | apply List.Forall_nil]. }
    repeat split; [exact Hs|].
    eapply Forall_impl; [exact Hs|]. apply scanned_ordinary.
  - cbn [fst]. apply H; [cbn; lia | apply List.Forall_nil].
  - cbn [fst]. apply H; [cbn; lia | apply List.Forall_nil].
Qed.

(** ** String literals *)

Section StringLiterals.
Import Lexer.

Lemma span_stops (p : ascii -> bool) (body : list ascii) (q : ascii) rest :
  forallb p body = true -> p q = false ->
  span p (body ++ q :: rest) = body.
Proof.
  intros Hbody Hq. induction body as [|c body IH]; simpl in *.
  - rewrite Hq. reflexivity.
  - apply andb_prop in Hbody as [-> Hbody]. rewrite IH by exact Hbody.
    reflexivity.
Qed.

Lemma list_ascii_of_string_app (s t : string) :
  list_ascii_of_string (s ++ t)
  = list_ascii_of_string s ++ list_ascii_of_string t.
Proof. induction s as [|c s IH]; simpl; [|rewrite IH]; reflexivity. Qed.

Lemma string_of_list_ascii_app (a b : list ascii) :
  string_of_list_ascii (a ++ b)
  = (string_of_list_ascii a ++ string_of_list_ascii b)%string.
Proof. induction a as [|c a IH]; simpl; [|rewrite IH]; reflexivity. Qed.

Lemma substring_prefix (s t : string) :
  substring 0 (String.length s) (s ++ t) = s.
Proof. induction s as [|c s IH]; simpl; [destruct t|rewrite IH]; reflexivity. Qed.

Lemma length_append (s t : string) :
  String.length (s ++ t) = String.length s + String.length t.
Proof. induction s as [|c s IH]; simpl; [|rewrite IH]; reflexivity. Qed.

Lemma length_list_ascii (s : string) :
  length (list_ascii_of_string s) = String.length s.
Proof. induction s as [|c s IH]; simpl; [|rewrite IH]; reflexivity. Qed.

Lemma re_string_literal (body : list ascii) rest :
  forallb (fun c => negb (Ascii.eqb c quote)) body = true ->
  re_string (quote :: body ++ quote :: rest) = Some (quote :: body ++ [quote]).
Proof.
  intros Hbody. unfold re_string.
  change (Ascii.eqb quote quote) with true. cbv iota.
  rewrite span_stops by (exact Hbody || reflexivity).
  rewrite drop_app_length. reflexivity.
Qed.

End StringLiterals.

(** X21: a string literal is taken verbatim. For any text without a double
    quote, the text between double quotes scans to one [STRING] token whose
    lexeme is exactly that text, quotes removed: a backslash is an ordinary
    character, and so is a line break, which the scanner does not count:
    the end marker after a literal is still on line 1, at the column just
    past the closing quote however many lines the literal spans. *)
Theorem a_string_literal_is_taken_verbatim (s : string)
    (Hquote : forallb (fun c => negb (Ascii.eqb c Lexer.quote))
                (list_ascii_of_string s) = true) :
  Lexer.lex (String Lexer.quote s ++ String Lexer.quote "")
  = Ok [ Lexer.mkToken Lexer.STRING s 1 1;
         Lexer.mkToken Lexer.EOF "" 1 (String.length s + 3) ].
Proof.
  unfold Lexer.lex, Lexer.tokenize, bind, get_state, modify, ret.
  unfold Lexer.Lexer. cbn [Lexer.source].
  change (String Lexer.quote s ++ String Lexer.quote "")%string
    with (String Lexer.quote (s ++ String Lexer.quote "")).
  cbn [list_ascii_of_string]. rewrite list_ascii_of_string_app.
  cbn [list_ascii_of_string].
  set (body := list_ascii_of_string s) in *.
  assert (Hnext : forall lx0,
            Lexer.source lx0 = Lexer.quote :: body ++ [Lexer.quote] ->
            Lexer.position lx0 = 0 ->
            Lexer._get_next_token lx0
            = (Ok (Lexer.mkToken Lexer.STRING s (Lexer.lx_line lx0)
                     (Lexer.lx_column lx0)),
               Lexer.set_column (Lexer.lx_column lx0 + (length body + 2))
                 (Lexer.set_position (length body + 2) lx0))).
  { intros lx0 Hs Hp. unfold Lexer._get_next_token. rewrite Hs, Hp.
    cbn [drop]. change (Ascii.eqb Lexer.quote "/") with false.
    cbn [andb].
    assert (Hm : Lexer.first_match Lexer.patterns
                   (Lexer.quote :: body ++ [Lexer.quote])
                 = Some (Lexer.STRING, Lexer.quote :: body ++ [Lexer.quote])).
    { unfold Lexer.patterns. cbn [Lexer.first_match].
      change (Lexer.re_comment (Lexer.quote :: body ++ [Lexer.quote]))
        with (@None (list ascii)).
      rewrite re_string_literal by exact Hquote. reflexivity. }
    rewrite Hm.
    assert (Hlen : length (Lexer.quote :: body ++ [Lexer.quote])
                   = length body + 2)
      by (cbn [length]; rewrite length_app; cbn [length]; lia).
    rewrite Hlen. cbn [Nat.add Lexer.lx_column Lexer.set_position].
    f_equal. f_equal.
    unfold Lexer._create_token. cbv zeta.
    change (Lexer.type_eqb Lexer.STRING Lexer.IDENTIFIER) with false.
    cbv iota.
    change (Lexer.type_eqb Lexer.STRING Lexer.STRING) with true.
    cbv iota. f_equal.
    cbn [string_of_list_ascii]. rewrite string_of_list_ascii_app.
    unfold body. rewrite string_of_list_ascii_of_string.
    cbn [string_of_list_ascii String.length]. rewrite length_append.
    cbn [String.length substring].
    replace (S (String.length s + 1) - 2) with (String.length s) by lia.
    apply substring_prefix. }
  set (lx0 := Lexer.mkLexer (Lexer.quote :: body ++ [Lexer.quote]) 0 1 1 [] []).
  assert (Hlen : length (Lexer.quote :: body ++ [Lexer.quote])
                 = S (S (length body)))
    by (cbn [length]; rewrite length_app; cbn [length]; lia).
  rewrite Hlen. cbn [Lexer.tokenize_loop].
  assert (Hskip : Lexer._skip_whitespace (length (Lexer.source lx0)) lx0 = lx0).
  { cbn [Lexer.source lx0]. rewrite Hlen. reflexivity. }
  rewrite Hskip. cbn [Lexer.source Lexer.position lx0]. rewrite Hlen.
  cbn [Nat.ltb Nat.leb].
  fold lx0. rewrite Hnext by reflexivity.
  cbn [Lexer.type]. change (Lexer.type_eqb Lexer.STRING Lexer.COMMENT) with false.
  cbv iota.
  cbn [Lexer.push_token Lexer.set_column Lexer.set_position Lexer.source
       Lexer.position Lexer.lx_line Lexer.lx_column Lexer.tokens Lexer.errors
       lx0 app].
  rewrite Hlen.
  replace (length body + 2 <=? S (length body))%nat with false
    by (symmetry; apply Nat.leb_gt; lia).
  cbn [fst Lexer.push_token Lexer.tokens Lexer.lx_line Lexer.lx_column app].
  do 4 f_equal. cbn [Lexer.lx_column Lexer.set_column].
  unfold body. rewrite length_list_ascii. lia.
Qed.

Lemma a_string_literal_over_two_lines :
  Lexer.lex (String Lexer.quote
               (String "a" (String Lexer.newline (String "\" (String "n" "")))
                ++ String Lexer.quote ""))
  = Ok [ Lexer.mkToken Lexer.STRING
           (String "a" (String Lexer.newline (String "\" (String "n" ""))))
           1 1;
         Lexer.mkToken Lexer.EOF "" 1 7 ].
Proof.
  apply (a_string_literal_is_taken_verbatim
           (String "a" (String Lexer.newline (String "\" (String "n" ""))))).
  reflexivity.
Defined.

(** ** Loops *)

Section LoopFacts.
Context {S E A B : Type}.

Lemma loop_ext (step1 step2 : A -> comp S E (A + B)) :
  (forall a s, step1 a s = step2 a s) ->
  forall turns a s, loop turns step1 a s = loop turns step2 a s.
Proof.
  intros Hstep. induction turns as [| turns IH]; intros a s; cbn [loop].
  - reflexivity.
  - rewrite Hstep.
    destruct (step2 a s) as [[[a' | b] | e |] s']; auto.
Qed.

(** A loop whose step never asks to leave does not end normally. *)
Lemma loop_without_exit (step : A -> comp S E (A + B)) :
  (forall a s b s', step a s <> (Ok (inr b), s')) ->
  forall turns a s b, fst (loop turns step a s) <> Ok b.
Proof.
  intros Hstep. induction turns as [| turns IH]; intros a s b; cbn [loop].
  - discriminate.
  - destruct (step a s) as [[[a' | b'] | e |] s'] eqn:Hs.
    + apply IH.
    + exfalso. apply (Hstep a s b' s'). exact Hs.
    + discriminate.
    + discriminate.
Qed.

End LoopFacts.

(** X22: the two loops end normally only on a false condition. A [while]
    loop is the [for] loop with the same condition and neither initializer
    nor increment. A [for] loop without a condition never ends normally:
    it ends by an exception (a Return signal included) or not at all. And
    when a [while] loop ends normally its value is None and the last thing
    it did was to evaluate its condition to a value that is not truthy. *)
Theorem loops_end_only_on_a_false_condition
    {W : Type} (host : Interp.Host W) (fuel : nat)
    (condition body : Ast.node) (st : Interp.interp W) :
  Interp.accept host (S fuel) (Ast.WhileStatement condition body) st
  = Interp.accept host (S fuel)
      (Ast.ForStatement None (Some condition) None body) st
  /\ (forall initializer increment v,
        fst (Interp.accept host (S fuel)
               (Ast.ForStatement initializer None increment body) st)
        <> Ok v)
  /\ (forall v st',
        Interp.accept host (S fuel) (Ast.WhileStatement condition body) st
        = (Ok v, st') ->
        v = Interp.VNone
        /\ exists st0 vc,
             Interp.accept host fuel condition st0 = (Ok vc, st')
             /\ Interp._is_truthy vc = false).
Proof.
  split; [ | split ].
  - cbn [Interp.accept Interp.accept_node].
    unfold Interp.visit_while_statement, Interp.visit_for_statement.
    unfold bind at 2. cbn [ret].
    apply loop_ext. intros [] s.
    unfold Interp.evaluate, Interp.execute, bind, ret.
    destruct (Interp.accept host fuel condition s) as [[c | e |] s1];
      [ | reflexivity | reflexivity ].
    destruct (Interp._is_truthy c); [ | reflexivity ].
    destruct (Interp.accept host fuel body s1) as [[x | e |] s2];
      reflexivity.
  - intros initializer increment v.
    cbn [Interp.accept Interp.accept_node].
    unfold Interp.visit_for_statement. unfold bind at 1.
    match goal with
    | |- fst (let (r, s') := ?m in _) <> _ =>
        destruct m as [[[] | e |] s0]; cbn [fst]; try discriminate
    end.
    apply loop_without_exit. intros [] s b s'.
    unfold bind at 1. cbn [ret]. unfold bind at 1.
    destruct (Interp.execute (Interp.accept host fuel) body s)
      as [[[] | e |] s1]; try discriminate.
    unfold bind at 1.
    match goal with
    | |- (let (r, s') := ?m in _) <> _ =>
        destruct m as [[[] | e |] s2]; discriminate
    end.
  - intros v st' Hrun.
    cbn [Interp.accept Interp.accept_node] in Hrun.
    unfold Interp.visit_while_statement in Hrun.
    eapply (loop_invariant (fun _ _ => True)
              (fun v s' =>
                 v = Interp.VNone
                 /\ exists st0 vc,
                      Interp.accept host fuel condition st0 = (Ok vc, s')
                      /\ Interp._is_truthy vc = false));
      [ | | exact I | exact Hrun ].
    + auto.
    + intros [] s b s' _ Hstep. unfold bind at 1 in Hstep.
      unfold Interp.evaluate in Hstep.
      destruct (Interp.accept host fuel condition s) as [[c | e |] s1] eqn:Hc;
        try discriminate Hstep.
      destruct (Interp._is_truthy c) eqn:Htruthy.
      * unfold bind in Hstep.
        destruct (Interp.execute (Interp.accept host fuel) body s1)
          as [[[] | e |] s2]; discriminate Hstep.
      * inversion Hstep; subst. split; [ reflexivity | ].
        exists s, c. auto.
Qed.

(** ** The parser always returns *)

Section ParserLogic.
Import Lexer Ast Parser.
Variables (toks : list Token) (k : nat).
Hypothesis Hend : ends_at toks k.

Lemma end_marker_in_range : k < length toks.
Proof.
  destruct Hend as [[eof [Hk _]] _]. apply lookup_lt_is_Some. eauto.
Qed.

Lemma token_at (c : nat) : c <= k -> exists t, toks !! c = Some t.
Proof.
  intros Hc. apply lookup_lt_is_Some_2.
  pose proof end_marker_in_range. lia.
Qed.

Lemma at_end_iff (c : nat) (t : Token) :
  c <= k -> toks !! c = Some t ->
  type_eqb (type t) EOF = true <-> c = k.
Proof.
  intros Hc Ht. destruct Hend as [[eof [Hk Heof]] Hbefore]. split.
  - intros H. apply type_eqb_eq in H.
    destruct (decide (c = k)) as [|Hne]; [assumption|].
    exfalso. apply (Hbefore c t); [lia | assumption | assumption].
  - intros ->. rewrite Hk in Ht. injection Ht as <-.
    apply type_eqb_eq. assumption.
Qed.

(** *** Rules *)

Lemma steps_ret {A} (c : nat) (a : A) (Q : A -> nat -> Prop) E :
  Q a c -> steps toks k c (ret a) Q E.
Proof.
  intros HQ s Ht Hc Hk. cbn. rewrite Hc. repeat split; (assumption || lia).
Qed.

Lemma steps_raise {A} (c : nat) (e : exn) (Q : A -> nat -> Prop)
    (E : exn -> nat -> Prop) :
  E e c -> steps toks k c (raise e) Q E.
Proof.
  intros HE s Ht Hc Hk. cbn. rewrite Hc. repeat split; (assumption || lia).
Qed.

Lemma steps_bind {A B} (c : nat) (m : P A) (f : A -> P B)
    (Q1 : A -> nat -> Prop) (E1 : exn -> nat -> Prop) Q E :
  steps toks k c m Q1 E1 ->
  (forall e c1, c1 <= k -> E1 e c1 -> E e c1) ->
  (forall a c1, c1 <= k -> Q1 a c1 -> steps toks k c1 (f a) Q E) ->
  steps toks k c (bind m f) Q E.
Proof.
  intros Hm HE Hf s Ht Hc Hk. unfold bind.
  specialize (Hm s Ht Hc Hk).
  destruct (m s) as [[a | e |] s1].
  - destruct Hm as (Ht1 & Hk1 & HQ).
    apply (Hf a (current s1) Hk1 HQ s1 Ht1 eq_refl Hk1).
  - destruct Hm as (Ht1 & Hk1 & HQ). auto.
  - exact Hm.
Qed.

Lemma steps_weaken {A} (c : nat) (m : P A)
    (Q1 : A -> nat -> Prop) (E1 : exn -> nat -> Prop) Q E :
  steps toks k c m Q1 E1 ->
  (forall a c1, c1 <= k -> Q1 a c1 -> Q a c1) ->
  (forall e c1, c1 <= k -> E1 e c1 -> E e c1) ->
  steps toks k c m Q E.
Proof.
  intros Hm HQ HE s Ht Hc Hk. specialize (Hm s Ht Hc Hk).
  destruct (m s) as [[a | e |] s1]; [ | | exact Hm ];
    destruct Hm as (Ht1 & Hk1 & H); auto.
Qed.

Lemma steps_bind_assoc {A B C} (c : nat) (m : P A) (g : A -> P B)
    (f : B -> P C) Q E :
  steps toks k c (bind m (fun a => bind (g a) f)) Q E ->
  steps toks k c (bind (bind m g) f) Q E.
Proof.
  intros H s Ht Hc Hk. specialize (H s Ht Hc Hk). unfold bind in *.
  destruct (m s) as [[a | e |] s1]; exact H.
Qed.

Lemma steps_bind_ret {A B} (c : nat) (a : A) (f : A -> P B) Q E :
  steps toks k c (f a) Q E -> steps toks k c (bind (ret a) f) Q E.
Proof. intros H. exact H. Qed.

Lemma steps_try {A} (c : nat) (m : P A) (h : exn -> P A)
    (E1 : exn -> nat -> Prop) Q E :
  steps toks k c m Q E1 ->
  (forall e c1, c1 <= k -> E1 e c1 -> steps toks k c1 (h e) Q E) ->
  steps toks k c (try_except m (fun e => Some (h e))) Q E.
Proof.
  intros Hm Hh s Ht Hc Hk. unfold try_except.
  specialize (Hm s Ht Hc Hk).
  destruct (m s) as [[a | e |] s1].
  - exact Hm.
  - destruct Hm as (Ht1 & Hk1 & HE).
    apply (Hh e (current s1) Hk1 HE s1 Ht1 eq_refl Hk1).
  - exact Hm.
Qed.

Lemma steps_loop {A B} (Inv : nat -> Prop) (step : A -> P (A + B))
    (Q : B -> nat -> Prop) E :
  (forall a c1, c1 <= k -> Inv c1 ->
     steps toks k c1 (step a)
       (fun r c2 => match r with
                    | inl _ => c1 < c2 /\ Inv c2
                    | inr b => Q b c2
                    end) E) ->
  forall turns a c, Inv c -> k - c < turns ->
    steps toks k c (loop turns step a) Q E.
Proof.
  intros Hstep. induction turns as [| turns IH]; intros a c Hinv Hturns;
    [ lia | ].
  intros s Ht Hc Hk. cbn [loop].
  pose proof (Hstep a c Hk Hinv s Ht Hc Hk) as H.
  destruct (step a s) as [[[a' | b] | e |] s1]; [ | exact H | exact H | exact H ].
  destruct H as (Ht1 & Hk1 & Hlt & Hinv1).
  apply (IH a' (current s1) Hinv1); [ lia | exact Ht1 | reflexivity | exact Hk1 ].
Qed.

Lemma steps_while {A B} (Inv : nat -> Prop) (step : A -> P (A + B))
    (a : A) (c : nat) (Q : B -> nat -> Prop) E :
  Inv c ->
  (forall a c1, c1 <= k -> Inv c1 ->
     steps toks k c1 (step a)
       (fun r c2 => match r with
                    | inl _ => c1 < c2 /\ Inv c2
                    | inr b => Q b c2
                    end) E) ->
  steps toks k c (while_ step a) Q E.
Proof.
  intros Hinv Hstep s Ht Hc Hk. unfold while_, bind, get_state.
  apply (steps_loop Inv step Q E Hstep (S (length (tokens s))) a c Hinv);
    [ | exact Ht | exact Hc | exact Hk ].
  rewrite Ht. pose proof end_marker_in_range. lia.
Qed.

(** *** The helper methods *)

Ltac side := cbv beta; intros; first [ eassumption | contradiction | lia ].
Ltac after lem := eapply steps_bind; [ lem | side | cbv beta ].

Lemma steps_peek (c : nat) :
  steps toks k c peek (fun t c' => c' = c /\ toks !! c = Some t) (fun _ _ => False).
Proof.
  intros s Ht Hc Hk. destruct (token_at c Hk) as [t Htok].
  unfold peek. rewrite Ht, Hc, Htok. cbn.
  repeat split; (assumption || lia).
Qed.

Lemma steps_previous (c : nat) :
  steps toks k c previous (fun _ c' => c' = c) (fun _ _ => False).
Proof.
  intros s Ht Hc Hk. unfold previous. rewrite Ht, Hc.
  pose proof end_marker_in_range.
  destruct (lookup_lt_is_Some_2 toks
              (match c with 0 => length toks - 1 | S i => i end)) as [t Htok].
  - destruct c; lia.
  - rewrite Htok. cbn. repeat split; (assumption || lia).
Qed.

Lemma steps_is_at_end (c : nat) :
  steps toks k c is_at_end
    (fun b c' => c' = c /\ (b = true -> c = k) /\ (b = false -> c < k)) (fun _ _ => False).
Proof.
  unfold is_at_end. after ltac:(apply steps_peek).
  intros t c1 Hk1 [-> Htok]. apply steps_ret.
  split; [ reflexivity | ].
  pose proof (at_end_iff c t Hk1 Htok) as Hiff.
  destruct (type_eqb (type t) EOF).
  - split; [ intros _; apply Hiff; reflexivity | discriminate ].
  - split; [ discriminate | ]. intros _.
    assert (c <> k) by (intros H; apply Hiff in H; discriminate). lia.
Qed.

Lemma steps_check (c : nat) (type_ : TokenType) :
  steps toks k c (check type_) (fun b c' => c' = c /\ (b = true -> c < k)) (fun _ _ => False).
Proof.
  unfold check. after ltac:(apply steps_is_at_end).
  intros e c1 Hk1 (-> & Htrue & Hfalse). destruct e.
  - apply steps_ret. split; [ reflexivity | discriminate ].
  - after ltac:(apply steps_peek).
    intros t c1 _ [-> _]. apply steps_ret. auto.
Qed.

Lemma steps_move (c : nat) :
  c < k ->
  steps toks k c (modify (fun p => set_current (current p + 1) p))
    (fun _ c' => c' = S c) (fun _ _ => False).
Proof.
  intros Hlt s Ht Hc Hk. cbn. rewrite Hc.
  repeat split; (assumption || lia).
Qed.

Lemma steps_advance (c : nat) :
  steps toks k c advance
    (fun _ c' => (c = k /\ c' = c) \/ (c < k /\ c' = S c)) (fun _ _ => False).
Proof.
  unfold advance. after ltac:(apply steps_is_at_end).
  intros e c1 Hk1 (-> & Htrue & Hfalse). destruct e.
  - apply steps_bind_ret.
    eapply steps_weaken; [ apply steps_previous | cbv beta | side ].
    intros _ c1 _ ->. left. auto.
  - after ltac:(apply steps_move; auto).
    intros _ c1 _ ->.
    eapply steps_weaken; [ apply steps_previous | cbv beta | side ].
    intros _ c1 _ ->. right. auto.
Qed.

Lemma steps_match (c : nat) (types : list TokenType) :
  steps toks k c (match_ types)
    (fun b c' => (b = true /\ c < k /\ c' = S c) \/ (b = false /\ c' = c)) (fun _ _ => False).
Proof.
  induction types as [| type_ types IH]; cbn [match_].
  - apply steps_ret. right. auto.
  - after ltac:(apply steps_check).
    intros b c1 Hk1 [-> Hb]. destruct b.
    + after ltac:(apply steps_advance).
      intros _ c1 _ Hadv. apply steps_ret. left.
      specialize (Hb eq_refl). repeat split; lia.
    + exact IH.
Qed.

Lemma steps_error (c : nat) (token : Token) (message : string) :
  steps toks k c (error token message) (fun _ c' => c' = c) (fun _ _ => False).
Proof.
  intros s Ht Hc Hk. cbn. repeat split; (assumption || lia).
Qed.

Lemma steps_raise_error {A} (c : nat) (message : string) :
  steps toks k c (raise_error_at_peek (A := A) message)
    (fun _ _ => False) (fun _ c' => c' = c).
Proof.
  unfold raise_error_at_peek.
  after ltac:(apply steps_peek).
  intros t c1 _ [-> _].
  after ltac:(apply steps_error).
  intros e c1 _ ->. apply steps_raise. reflexivity.
Qed.

Lemma steps_raise_error_at {A} (c : nat) (message : string)
    (Q : A -> nat -> Prop) (E : exn -> nat -> Prop) :
  (forall e, E e c) -> steps toks k c (raise_error_at_peek message) Q E.
Proof.
  intros HE. eapply steps_weaken; [ apply steps_raise_error | | ].
  - cbv beta. intros a c1 _ H. contradiction.
  - cbv beta. intros e c1 _ ->. apply HE.
Qed.

Lemma steps_consume (c : nat) (type_ : TokenType) (message : string) :
  steps toks k c (consume type_ message)
    (fun _ c' => c < k /\ c' = S c) (fun _ c' => c' = c).
Proof.
  unfold consume. after ltac:(apply steps_check).
  intros b c1 Hk1 [-> Hb]. destruct b.
  - eapply steps_weaken; [ apply steps_advance | cbv beta | side ].
    intros _ c1 _ H. specialize (Hb eq_refl). lia.
  - apply steps_raise_error_at. reflexivity.
Qed.

Lemma steps_modify_errors (c : nat) (message : string) :
  steps toks k c (modify (errors_append message)) (fun _ c' => c' = c) (fun _ _ => False).
Proof.
  intros s Ht Hc Hk. cbn. repeat split; (assumption || lia).
Qed.

Lemma steps_synchronize (c : nat) :
  steps toks k c synchronize (fun _ c' => c <= c' /\ (c < k -> c < c')) (fun _ _ => False).
Proof.
  unfold synchronize.
  after ltac:(apply steps_advance).
  intros _ c1 Hk1 Hadv.
  apply steps_while with (Inv := fun c2 => c <= c2 /\ (c < k -> c < c2)).
  - lia.
  - intros [] c2 Hk2 Hinv.
    after ltac:(apply steps_is_at_end).
    intros e c3 _ (-> & _ & Hnot). destruct e; [ apply steps_ret; exact Hinv | ].
    specialize (Hnot eq_refl).
    after ltac:(apply steps_previous).
    intros prev c3 _ ->.
    destruct (type_eqb (type prev) SEMICOLON);
      [ apply steps_ret; exact Hinv | ].
    after ltac:(apply steps_peek).
    intros t c3 _ [-> _].
    destruct (existsb _ _); [ apply steps_ret; exact Hinv | ].
    after ltac:(apply steps_advance).
    intros _ c3 _ Hadv3. apply steps_ret. lia.
Qed.

End ParserLogic.

Section ParserMethods.
Import Lexer Ast Parser.
Variables (toks : list Token) (k : nat).
Hypothesis Hend : ends_at toks k.
Variables (n : nat) (self : Self).
Hypothesis Hself : sound_methods toks k n self.

Ltac unpack :=
  repeat match goal with
         | H : ?x = ?x -> _ |- _ => specialize (H eq_refl)
         | H : true = false -> _ |- _ => clear H
         | H : false = true -> _ |- _ => clear H
         | H : _ /\ _ |- _ => destruct H
         | H : _ \/ _ |- _ => destruct H
         | H : ?b = true |- _ => is_var b; subst b
         | H : ?b = false |- _ => is_var b; subst b
         | H : ?x = _ |- _ => is_var x; subst x
         end.

Ltac method_call := fail.

Ltac self_call :=
  let H := fresh in
  pose proof Hself as H; unfold sound_methods in H;
  decompose [and] H; clear H;
  match goal with
  | H : moving _ _ _ _ ?m |- steps _ _ _ ?m _ _ => apply H; lia
  | H : recovering _ _ _ _ ?m |- steps _ _ _ ?m _ _ => apply H; lia
  end.

Ltac helper :=
  first [ apply (steps_peek toks k Hend)
        | apply (steps_previous toks k Hend)
        | apply (steps_is_at_end toks k Hend)
        | apply (steps_check toks k Hend)
        | apply (steps_advance toks k Hend)
        | apply (steps_match toks k Hend)
        | apply (steps_error toks k)
        | apply (steps_raise_error toks k Hend)
        | apply (steps_consume toks k Hend)
        | apply (steps_modify_errors toks k)
        | apply (steps_synchronize toks k Hend)
        | self_call
        | method_call ].

Ltac arith := cbv beta iota; intros; unpack; first [ eassumption | contradiction | lia ].

Ltac go :=
  cbv beta iota;
  lazymatch goal with
  | |- steps _ _ _ (bind (bind _ _) _) _ _ => apply steps_bind_assoc
  | |- steps _ _ _ (bind (ret _) _) _ _ => apply steps_bind_ret
  | |- steps _ _ _ (bind (if ?b then _ else _) _) _ _ => destruct b; unpack
  | |- steps _ _ _ (bind (while_ _ _) _) _ _ => fail
  | |- steps _ _ _ (bind _ _) _ _ =>
      eapply steps_bind;
      [ helper | arith | cbv beta; intros; unpack; try contradiction ]
  | |- steps _ _ _ (if ?b then _ else _) _ _ => destruct b; unpack
  | |- steps _ _ _ (ret _) _ _ => apply steps_ret; arith
  | |- steps _ _ _ (raise _) _ _ => apply steps_raise; arith
  | |- steps _ _ _ (while_ _ _) _ _ => fail
  | |- steps _ _ _ (raise_error_at_peek _) _ _ =>
      apply (steps_raise_error_at toks k Hend); arith
  | |- steps _ _ _ _ _ _ =>
      eapply steps_weaken; [ helper | arith | arith ]
  end.

Ltac loop_then c0 I :=
  eapply steps_bind with (Q1 := fun _ c2 => I c2) (E1 := fun _ c2 => c0 <= c2);
  [ apply (steps_while toks k Hend) with (Inv := I);
    [ cbv beta; lia | cbv beta; intros ]
  | arith
  | cbv beta; intros; unpack ].

Ltac loop_last I :=
  apply (steps_while toks k Hend) with (Inv := I);
  [ cbv beta; lia | cbv beta; intros ].

Lemma array_expression_moving : moving toks k n 10 (array_expression self).
Proof.
  intros c Hfuel. unfold array_expression.
  repeat go.
  loop_then c (fun c1 => c <= c1); repeat go.
Qed.

Lemma object_expression_moving : moving toks k n 10 (object_expression self).
Proof.
  intros c Hfuel. unfold object_expression.
  repeat go.
  loop_then c (fun c1 => c <= c1); repeat go.
Qed.

Lemma primary_moving : moving toks k (S n) 0 (primary self).
Proof.
  intros c Hfuel. unfold primary.
  repeat go.
  - eapply steps_weaken;
      [ apply array_expression_moving; lia | arith | arith ].
  - eapply steps_weaken;
      [ apply object_expression_moving; lia | arith | arith ].
Qed.

Lemma finish_call_moving (callee : node) :
  moving toks k n 10 (finish_call self callee).
Proof.
  intros c Hfuel. unfold finish_call.
  repeat go.
  loop_then c (fun c1 => c <= c1); repeat go.
Qed.

Lemma call_moving : moving toks k (S n) 1 (call self).
Proof.
  intros c Hfuel. unfold call.
  repeat go.
  loop_last (fun c1 => c < c1); repeat go.
  eapply steps_bind;
    [ apply finish_call_moving; lia | arith | cbv beta; intros; unpack ].
  repeat go.
Qed.

Lemma unary_moving : moving toks k (S n) 2 (unary self).
Proof.
  intros c Hfuel. unfold unary. repeat go.
Qed.

Lemma binary_level_moving (rank : nat) (types : list TokenType)
    (operand : P node) :
  moving toks k n rank operand ->
  moving toks k (S n) (S rank) (binary_level types operand).
Proof.
  intros Hoperand c Hfuel. unfold binary_level.
  eapply steps_bind; [ apply Hoperand; lia | arith | cbv beta; intros; unpack ].
  loop_last (fun c1 => c < c1); repeat go.
Qed.

Lemma assignment_moving : moving toks k (S n) 9 (assignment self).
Proof.
  intros c Hfuel. unfold assignment. repeat go.
  match goal with
  | |- steps _ _ _ (match ?e with _ => _ end) _ _ => destruct e
  end; repeat go.
Qed.

Lemma expression_moving : moving toks k (S n) 10 (expression self).
Proof.
  intros c Hfuel. unfold expression.
  eapply steps_weaken; [ helper | arith | arith ].
Qed.

Lemma expression_statement_moving :
  moving toks k (S n) 11 (expression_statement self).
Proof.
  intros c Hfuel. unfold expression_statement. repeat go.
Qed.

Lemma variable_declaration_moving :
  moving toks k (S n) 12 (variable_declaration self).
Proof.
  intros c Hfuel. unfold variable_declaration. repeat go.
Qed.

Lemma return_statement_moving :
  moving toks k n 10 (return_statement self).
Proof.
  intros c Hfuel. unfold return_statement. repeat go.
Qed.

Lemma if_statement_moving : moving toks k n 13 (if_statement self).
Proof.
  intros c Hfuel. unfold if_statement. repeat go.
Qed.

Lemma while_statement_moving : moving toks k n 13 (while_statement self).
Proof.
  intros c Hfuel. unfold while_statement. repeat go.
Qed.

Lemma for_statement_moving : moving toks k n 13 (for_statement self).
Proof.
  intros c Hfuel. unfold for_statement. repeat go.
Qed.


Ltac method_call ::=
  first [ apply if_statement_moving; lia
        | apply while_statement_moving; lia
        | apply for_statement_moving; lia
        | apply return_statement_moving; lia ].

Lemma statement_moving : moving toks k (S n) 13 (statement self).
Proof.
  intros c Hfuel. unfold statement. repeat go.
Qed.

Lemma block_statement_moving : moving toks k (S n) 15 (block_statement self).
Proof.
  intros c Hfuel. unfold block_statement.
  loop_then c (fun c1 => c <= c1); repeat go.
  loop_then c (fun c2 => c1 <= c2); repeat go.
  match goal with
  | |- steps _ _ _ (match ?o with _ => _ end) _ _ => destruct o
  end; repeat go.
Qed.

Lemma parameters_steps (c : nat) :
  steps toks k c parameters (fun _ c' => c <= c') (fun _ c' => c <= c').
Proof.
  unfold parameters. repeat go.
  loop_last (fun c1 => c <= c1); repeat go.
Qed.

Lemma function_declaration_moving :
  moving toks k n 15 (function_declaration self).
Proof.
  intros c Hfuel. unfold function_declaration. repeat go.
  eapply steps_bind;
    [ apply parameters_steps | arith | cbv beta; intros; unpack ].
  repeat go.
  - loop_then c (fun c2 => c < c2); repeat go.
  - loop_then c (fun c2 => c < c2); repeat go.
Qed.

Ltac method_call ::= first [ apply function_declaration_moving; lia ].

Lemma declaration_recovering :
  recovering toks k (S n) 14 (declaration self).
Proof.
  intros c Hfuel. unfold declaration.
  apply steps_try with (E1 := fun _ c1 => c <= c1).
  - repeat go.
  - cbv beta. intros e c1 Hk1 He. repeat go.
Qed.

End ParserMethods.

Section ParserTotal.
Import Lexer Ast Parser.
Variables (toks : list Token) (k : nat).
Hypothesis Hend : ends_at toks k.

(** At every depth the methods are well behaved, by induction on the
    depth: a method calls the methods one level down, either a method of
    lower rank or after it has consumed a token. *)
Lemma methods_sound (n : nat) : sound_methods toks k n (methods n).
Proof.
  induction n as [| n IH].
  - unfold sound_methods, moving, recovering.
    repeat split; intros c Hfuel; lia.
  - pose proof IH as Hself. unfold sound_methods in IH.
    decompose [and] IH. clear IH.
    cbn [methods]. unfold sound_methods.
    cbn [do_declaration do_statement do_block_statement
         do_variable_declaration do_expression_statement do_expression
         do_assignment do_or_expression do_and_expression do_equality
         do_comparison do_term do_factor do_unary do_call do_primary].
    repeat split.
    + apply block_statement_moving; assumption.
    + apply declaration_recovering; assumption.
    + apply statement_moving; assumption.
    + apply variable_declaration_moving; assumption.
    + apply expression_statement_moving; assumption.
    + apply expression_moving; assumption.
    + apply assignment_moving; assumption.
    + apply binary_level_moving with (self := methods n); assumption.
    + apply binary_level_moving with (self := methods n); assumption.
    + apply binary_level_moving with (self := methods n); assumption.
    + apply binary_level_moving with (self := methods n); assumption.
    + apply binary_level_moving with (self := methods n); assumption.
    + apply binary_level_moving with (self := methods n); assumption.
    + apply unary_moving; assumption.
    + apply call_moving; assumption.
    + apply primary_moving; assumption.
Qed.

(** [parse] ends at the end marker with a program, whatever the tokens. *)
Lemma parse_steps :
  steps toks k 0 (parse (depth_for toks))
    (fun r c' => c' = k /\ exists statements, r = Program statements)
    (fun _ _ => False).
Proof.
  pose proof (end_marker_in_range toks k Hend) as Hlen.
  pose proof (methods_sound (depth_for toks)) as Hself.
  destruct Hself as (_ & Hdeclaration & _).
  unfold parse. cbv zeta.
  eapply steps_bind with (Q1 := fun _ c2 => c2 = k)
                         (E1 := fun _ _ => False).
  - apply (steps_while toks k Hend) with (Inv := fun _ => True); [ exact I | ].
    intros statements c1 Hk1 _.
    eapply steps_bind; [ apply (steps_is_at_end toks k Hend) | | ];
      cbv beta; [ intros; contradiction | ].
    intros e c2 _ (-> & Htrue & Hfalse). destruct e.
    + apply steps_ret. auto.
    + specialize (Hfalse eq_refl).
      apply steps_try with (E1 := fun _ _ => False);
        [ | intros; contradiction ].
      eapply steps_bind; [ apply Hdeclaration | | ]; cbv beta.
      * unfold depth_for. lia.
      * intros; contradiction.
      * intros statement c2 _ [_ Hmove].
        destruct statement; apply steps_ret; split; (lia || exact I).
  - intros; contradiction.
  - cbv beta. intros statements c1 _ ->. apply steps_ret. eauto.
Qed.

End ParserTotal.

Section FrontEnd.
Import Lexer Ast Parser.

Lemma ends_at_last (body : list Token) (eof : Token) :
  type eof = EOF -> Forall (fun t => type t <> EOF) body ->
  ends_at (body ++ [eof]) (length body).
Proof.
  intros Hkind Hbody. split.
  - exists eof. split; [ | exact Hkind ].
    rewrite lookup_app_r by lia. rewrite Nat.sub_diag. reflexivity.
  - intros i t Hi Ht. rewrite lookup_app_l in Ht by exact Hi.
    rewrite Forall_lookup in Hbody. apply (Hbody i t Ht).
Qed.

End FrontEnd.

(** X23: the parser always returns a program. On any token list that ends
    with its only end marker, whatever comes before it, [parse] neither
    raises nor runs on: every syntax error is recorded and recovered from,
    every loop and every recursion of the grammar consumes a token before
    it repeats, and the parser stops exactly at the end marker. (The
    recursion limit of the host is not part of the model.) *)
Theorem parsing_always_returns_a_program
    (body : list Lexer.Token) (eof : Lexer.Token)
    (Hkind : Lexer.type eof = Lexer.EOF)
    (Hbody : Forall (fun t => Lexer.type t <> Lexer.EOF) body) :
  exists statements p',
    Parser.parse (Parser.depth_for (body ++ [eof]))
      (Parser.Parser (body ++ [eof]))
    = (Ok (Ast.Program statements), p')
    /\ Parser.tokens p' = body ++ [eof]
    /\ Parser.current p' = length body.
Proof.
  pose proof (parse_steps (body ++ [eof]) (length body)
                (ends_at_last body eof Hkind Hbody)
                (Parser.Parser (body ++ [eof])) eq_refl eq_refl
                (Nat.le_0_l _)) as H.
  destruct (Parser.parse _ _) as [[r | e |] p'].
  - destruct H as (Ht & _ & Hc & statements & ->).
    exists statements, p'. auto.
  - destruct H as (_ & _ & []).
  - destruct H.
Qed.

(** X24: the front end always answers. Scanning and parsing a source text
    never runs on and never fails with anything but the scanner's
    [SyntaxError] for an unexpected character: either that error is
    raised, or the text, however malformed, yields a program together with
    the list of the syntax errors recorded on the way. *)
Theorem the_front_end_always_answers (src : string) :
  (exists statements errors,
      Parser.parse_source src = Ok (Ok (Ast.Program statements), errors))
  \/ (exists c line column,
        Parser.parse_source src
        = Raise (Lexer.unexpected_character c
                   (Lexer.set_column column
                      (Lexer.set_line line (Lexer.Lexer src))))).
Proof.
  unfold Parser.parse_source, Lexer.lex, Lexer.tokenize.
  unfold bind, get_state, modify, ret.
  pose proof (tokenize_loop_spec
                (S (length (Lexer.source (Lexer.Lexer src))))
                (Lexer.Lexer src)) as Hlex.
  destruct (Lexer.tokenize_loop _ (Lexer.Lexer src)) as [[u | message |] lx];
    cbn [fst Lexer.tokens Lexer.push_token].
  - left.
    assert (Hbody : Forall (fun t => Lexer.type t <> Lexer.EOF)
                      (Lexer.tokens lx)).
    { eapply Forall_impl;
        [ apply Hlex; [ cbn; lia | apply List.Forall_nil ] | ].
      intros t Ht. apply scanned_ordinary in Ht. apply Ht. }
    pose proof (parse_steps _ _
                  (ends_at_last (Lexer.tokens lx)
                     (Lexer.mkToken Lexer.EOF "" (Lexer.lx_line lx)
                        (Lexer.lx_column lx)) eq_refl Hbody)
                  (Parser.Parser _) eq_refl eq_refl (Nat.le_0_l _)) as H.
    destruct (Parser.parse _ _) as [[r | e |] p'].
    + destruct H as (_ & _ & _ & statements & ->).
      exists statements, (Parser.errors p'). reflexivity.
    + destruct H as (_ & _ & []).
    + destruct H.
  - right.
    destruct Hlex as (c & line & column & ->);
      [ cbn; lia | apply List.Forall_nil | ].
    exists c, line, column. reflexivity.
  - exfalso. apply Hlex; [ cbn; lia | apply List.Forall_nil ].
Qed.

(** ** Every raised syntax error has been recorded *)

Section Reports.
Import Lexer Ast Parser.

Lemma recorded_IndexError (p : parser) : recorded IndexError p.
Proof. intros message H. discriminate H. Qed.

Lemma reports_ret {A} (a : A) (Q : A -> Prop) : Q a -> reports (ret a) Q.
Proof.
  intros HQ s. cbn. split; [ exact HQ | ]. exists []. symmetry. apply app_nil_r.
Qed.

Lemma reports_timeout {A} (Q : A -> Prop) : reports timeout Q.
Proof. intros s. exact I. Qed.

Lemma reports_bind {A B} (m : P A) (f : A -> P B) (Q1 : A -> Prop)
    (Q : B -> Prop) :
  reports m Q1 -> (forall a, Q1 a -> reports (f a) Q) -> reports (bind m f) Q.
Proof.
  intros Hm Hf s. unfold bind. specialize (Hm s).
  destruct (m s) as [[a | e |] s1]; [ | exact Hm | exact I ].
  destruct Hm as [Ha [more Hmore]]. specialize (Hf a Ha s1).
  destruct (f a s1) as [[b | e |] s2]; [ | | exact I ].
  - destruct Hf as [Hb [more' Hmore']]. split; [ exact Hb | ].
    exists (more ++ more'). rewrite Hmore', Hmore. symmetry. apply app_assoc.
  - destruct Hf as [[more' Hmore'] Hrec]. split; [ | exact Hrec ].
    exists (more ++ more'). rewrite Hmore', Hmore. symmetry. apply app_assoc.
Qed.

Lemma reports_weaken {A} (m : P A) (Q1 Q : A -> Prop) :
  reports m Q1 -> (forall a, Q1 a -> Q a) -> reports m Q.
Proof.
  intros Hm HQ s. specialize (Hm s).
  destruct (m s) as [[a | e |] s1]; [ | exact Hm | exact I ].
  destruct Hm as [Ha Hmore]. auto.
Qed.

Lemma reports_bind_assoc {A B C} (m : P A) (g : A -> P B) (f : B -> P C) Q :
  reports (bind m (fun a => bind (g a) f)) Q ->
  reports (bind (bind m g) f) Q.
Proof.
  intros H s. specialize (H s). unfold bind in *.
  destruct (m s) as [[a | e |] s1]; exact H.
Qed.

Lemma reports_bind_ret {A B} (a : A) (f : A -> P B) Q :
  reports (f a) Q -> reports (bind (ret a) f) Q.
Proof. intros H. exact H. Qed.

Lemma reports_loop {A B} (step : A -> P (A + B)) (Q : B -> Prop) :
  (forall a, reports (step a)
               (fun r => match r with inl _ => True | inr b => Q b end)) ->
  forall turns a, reports (loop turns step a) Q.
Proof.
  intros Hstep. induction turns as [| turns IH]; intros a s; cbn [loop].
  - exact I.
  - pose proof (Hstep a s) as H.
    destruct (step a s) as [[[a' | b] | e |] s1]; [ | exact H | exact H | exact I ].
    destruct H as [_ [more Hmore]]. specialize (IH a' s1).
    destruct (loop turns step a' s1) as [[b | e |] s2]; [ | | exact I ].
    + destruct IH as [Hb [more' Hmore']]. split; [ exact Hb | ].
      exists (more ++ more'). rewrite Hmore', Hmore. symmetry. apply app_assoc.
    + destruct IH as [[more' Hmore'] Hrec]. split; [ | exact Hrec ].
      exists (more ++ more'). rewrite Hmore', Hmore. symmetry. apply app_assoc.
Qed.

Lemma reports_while {A B} (step : A -> P (A + B)) (a : A) (Q : B -> Prop) :
  (forall a, reports (step a)
               (fun r => match r with inl _ => True | inr b => Q b end)) ->
  reports (while_ step a) Q.
Proof.
  intros Hstep s. unfold while_, bind, get_state.
  apply (reports_loop step Q Hstep).
Qed.

(** *** The helper methods *)

Lemma errors_unchanged (s : parser) : exists more, errors s = errors s ++ more.
Proof. exists []. symmetry. apply app_nil_r. Qed.

Lemma reports_peek : reports peek (fun _ => True).
Proof.
  intros s. unfold peek. destruct (tokens s !! current s).
  - split; [ exact I | apply errors_unchanged ].
  - split; [ apply errors_unchanged | apply recorded_IndexError ].
Qed.

Lemma reports_previous : reports previous (fun _ => True).
Proof.
  intros s. unfold previous. destruct (tokens s !! _).
  - split; [ exact I | apply errors_unchanged ].
  - split; [ apply errors_unchanged | apply recorded_IndexError ].
Qed.

Ltac then_ lem := eapply reports_bind; [ lem | cbv beta; intros ].

Lemma reports_is_at_end : reports is_at_end (fun _ => True).
Proof.
  unfold is_at_end. then_ ltac:(apply reports_peek).
  apply reports_ret. exact I.
Qed.

Lemma reports_check (type_ : TokenType) : reports (check type_) (fun _ => True).
Proof.
  unfold check. then_ ltac:(apply reports_is_at_end).
  destruct a; [ apply reports_ret; exact I | ].
  then_ ltac:(apply reports_peek). apply reports_ret. exact I.
Qed.

Lemma reports_modify_current (f : parser -> nat) :
  reports (modify (fun p => set_current (f p) p)) (fun _ => True).
Proof.
  intros s. cbn. split; [ exact I | ]. exists []. symmetry. apply app_nil_r.
Qed.

Lemma reports_advance : reports advance (fun _ => True).
Proof.
  unfold advance. then_ ltac:(apply reports_is_at_end).
  destruct a.
  - apply reports_bind_ret. apply reports_previous.
  - then_ ltac:(apply reports_modify_current). apply reports_previous.
Qed.

Lemma reports_match (types : list TokenType) :
  reports (match_ types) (fun _ => True).
Proof.
  induction types as [| type_ types IH]; cbn [match_].
  - apply reports_ret. exact I.
  - then_ ltac:(apply reports_check). destruct a; [ | exact IH ].
    then_ ltac:(apply reports_advance). apply reports_ret. exact I.
Qed.

Lemma reports_error (token : Token) (message : string) :
  reports (error token message) (fun _ => True).
Proof. intros s. cbn. split; [ exact I | ]. eauto. Qed.

Lemma reports_modify_errors (message : string) :
  reports (modify (errors_append message)) (fun _ => True).
Proof. intros s. cbn. split; [ exact I | ]. eauto. Qed.

Lemma reports_raise_error {A} (message : string) :
  reports (raise_error_at_peek (A := A) message) (fun _ => False).
Proof.
  intros s. unfold raise_error_at_peek, bind, peek.
  destruct (tokens s !! current s) as [t |].
  - cbn. split; [ eauto | ].
    intros m [= <-]. cbn. apply last_snoc.
  - split; [ exists []; symmetry; apply app_nil_r
           | apply recorded_IndexError ].
Qed.

Lemma reports_consume (type_ : TokenType) (message : string) :
  reports (consume type_ message) (fun _ => True).
Proof.
  unfold consume. then_ ltac:(apply reports_check). destruct a.
  - apply reports_advance.
  - eapply reports_weaken; [ apply reports_raise_error | contradiction ].
Qed.

End Reports.

Section ReportingMethods.
Import Lexer Ast Parser.

Ltac known :=
  first [ apply reports_peek | apply reports_previous
        | apply reports_is_at_end | apply reports_check
        | apply reports_advance | apply reports_match
        | apply reports_error | apply reports_modify_errors
        | apply reports_raise_error | apply reports_consume
        | match goal with
          | H : reports ?m _ |- reports ?m _ => apply H
          | H : forall x, reports (?m x) _ |- reports (?m _) _ => apply H
          end ].

Ltac say :=
  cbv beta iota;
  lazymatch goal with
  | |- reports (bind (bind _ _) _) _ => apply reports_bind_assoc
  | |- reports (bind (ret _) _) _ => apply reports_bind_ret
  | |- reports (bind (if ?b then _ else _) _) _ => destruct b
  | |- reports (bind (while_ _ _) _) _ =>
      eapply reports_bind;
      [ apply reports_while with (Q := fun _ => True); intros
      | cbv beta; intros ]
  | |- reports (bind _ _) _ =>
      eapply reports_bind; [ known | cbv beta; intros; try contradiction ]
  | |- reports (if ?b then _ else _) _ => destruct b
  | |- reports (match ?o with _ => _ end) _ => destruct o
  | |- reports (ret _) _ =>
      apply reports_ret; cbv beta iota; first [ exact I | discriminate ]
  | |- reports (while_ _ _) _ => apply reports_while; intros
  | |- reports (raise_error_at_peek _) _ =>
      eapply reports_weaken; [ apply reports_raise_error | contradiction ]
  | |- reports _ _ =>
      eapply reports_weaken; [ known | cbv beta; intros; exact I ]
  end.

Lemma reports_synchronize : reports synchronize (fun _ => True).
Proof. unfold synchronize. repeat say. Qed.

Variable self : Self.
Hypothesis Hself : reporting_methods self.

Ltac open_self :=
  let H := fresh in
  pose proof Hself as H; unfold reporting_methods in H;
  decompose [and] H; clear H.

Lemma array_expression_reports : reports (array_expression self) (fun _ => True).
Proof. open_self. unfold array_expression. repeat say. Qed.

Lemma object_expression_reports :
  reports (object_expression self) (fun _ => True).
Proof. open_self. unfold object_expression. repeat say. Qed.

Lemma primary_reports : reports (primary self) (fun _ => True).
Proof.
  open_self. pose proof array_expression_reports.
  pose proof object_expression_reports.
  unfold primary. repeat say.
Qed.

Lemma finish_call_reports (callee : node) :
  reports (finish_call self callee) (fun _ => True).
Proof. open_self. unfold finish_call. repeat say. Qed.

Lemma call_reports : reports (call self) (fun _ => True).
Proof.
  open_self. pose proof finish_call_reports. unfold call. repeat say.
Qed.

Lemma unary_reports : reports (unary self) (fun _ => True).
Proof. open_self. unfold unary. repeat say. Qed.

Lemma binary_level_reports (types : list TokenType) (operand : P node) :
  reports operand (fun _ => True) ->
  reports (binary_level types operand) (fun _ => True).
Proof. intros Hoperand. unfold binary_level. repeat say. Qed.

Lemma assignment_reports : reports (assignment self) (fun _ => True).
Proof. open_self. unfold assignment. repeat say. Qed.

Lemma expression_statement_reports :
  reports (expression_statement self) (fun _ => True).
Proof. open_self. unfold expression_statement. repeat say. Qed.

Lemma variable_declaration_reports :
  reports (variable_declaration self) (fun _ => True).
Proof. open_self. unfold variable_declaration. repeat say. Qed.

Lemma statement_reports : reports (statement self) (fun _ => True).
Proof.
  open_self.
  unfold statement, if_statement, while_statement, for_statement,
    return_statement.
  repeat say.
Qed.

Lemma block_statement_reports : reports (block_statement self) (fun _ => True).
Proof. open_self. unfold block_statement. repeat say. Qed.

Lemma parameters_reports : reports parameters (fun _ => True).
Proof. unfold parameters. repeat say. Qed.

Lemma function_declaration_reports :
  reports (function_declaration self) (fun _ => True).
Proof.
  open_self. pose proof parameters_reports.
  unfold function_declaration. repeat say.
Qed.

(** What [declaration] tries always returns a node. *)
Lemma declaration_tries :
  reports
    (let! fn := match_ [FN] in
     let! fn := (if fn then ret true else match_ [KAM]) in
     if fn then let! d := function_declaration self in ret (Some d)
     else
       let! var := match_ [LET] in
       let! var := (if var then ret true else match_ [DHORA]) in
       if var then let! d := do_variable_declaration self in ret (Some d)
       else let! s := do_statement self in ret (Some s))
    (fun r => r <> None).
Proof.
  open_self. pose proof function_declaration_reports. repeat say.
Qed.

Lemma declaration_reports : reports (declaration self) (fun _ => True).
Proof.
  intros s. unfold declaration, try_except.
  pose proof (declaration_tries s) as Hb. unfold reports in Hb.
  match type of Hb with
  | match ?m s with _ => _ end => destruct (m s) as [[r | e |] s1]
  end; [ | | exact I ].
  - destruct Hb as [_ Hmore]. split; [ exact I | exact Hmore ].
  - destruct Hb as [[more Hmore] _].
    assert (Hh : reports
                   (do! modify (errors_append
                                  ("Error parsing declaration: " ++ str_exn e)%string) in
                    do! synchronize in
                    ret (@None node)) (fun _ => True)).
    { pose proof reports_synchronize. repeat say. }
    specialize (Hh s1).
    match type of Hh with
    | match ?m s1 with _ => _ end => destruct (m s1) as [[r | e' |] s2]
    end; [ | | exact I ].
    + destruct Hh as [_ [more' Hmore']]. split; [ exact I | ].
      exists (more ++ more'). rewrite Hmore', Hmore. symmetry. apply app_assoc.
    + destruct Hh as [[more' Hmore'] Hrec]. split; [ | exact Hrec ].
      exists (more ++ more'). rewrite Hmore', Hmore. symmetry. apply app_assoc.
Qed.

End ReportingMethods.

Section ReportingAtEveryDepth.
Import Lexer Ast Parser.

Lemma methods_report (n : nat) : reporting_methods (methods n).
Proof.
  induction n as [| n IH].
  - unfold reporting_methods. cbn. repeat split; apply reports_timeout.
  - pose proof IH as Hself. unfold reporting_methods in IH.
    decompose [and] IH. clear IH.
    cbn [methods]. unfold reporting_methods.
    cbn [do_declaration do_statement do_block_statement
         do_variable_declaration do_expression_statement do_expression
         do_assignment do_or_expression do_and_expression do_equality
         do_comparison do_term do_factor do_unary do_call do_primary].
    repeat split.
    + apply declaration_reports; assumption.
    + apply statement_reports; assumption.
    + apply block_statement_reports; assumption.
    + apply variable_declaration_reports; assumption.
    + apply expression_statement_reports; assumption.
    + assumption.
    + apply assignment_reports; assumption.
    + apply binary_level_reports; assumption.
    + apply binary_level_reports; assumption.
    + apply binary_level_reports; assumption.
    + apply binary_level_reports; assumption.
    + apply binary_level_reports; assumption.
    + apply binary_level_reports; assumption.
    + apply unary_reports; assumption.
    + apply call_reports; assumption.
    + apply primary_reports; assumption.
Qed.

End ReportingAtEveryDepth.

(** X25: a declaration that fails is recorded twice. When [declaration]
    returns no node, it has caught an exception: the last recorded error
    is [Error parsing declaration: ] followed by the text of that
    exception, nothing recorded before the attempt is lost, and when the
    exception is a syntax error of the parser, its message is already the
    entry just before, recorded when the error was raised. *)
Theorem a_failed_declaration_is_recorded_twice
    (n : nat) (p p' : Parser.parser)
    (Hfailed : Parser.declaration (Parser.methods n) p = (Ok None, p')) :
  exists earlier e,
    Parser.errors p'
    = Parser.errors p ++ earlier
        ++ [("Error parsing declaration: " ++ Parser.str_exn e)%string]
    /\ forall message,
         e = Parser.SyntaxError message ->
         last (Parser.errors p ++ earlier) = Some message.
Proof.
  pose proof (methods_report n) as Hself.
  unfold Parser.declaration, try_except in Hfailed.
  pose proof (declaration_tries (Parser.methods n) Hself p) as Htry.
  unfold reports in Htry.
  match type of Htry with
  | match ?m p with _ => _ end => destruct (m p) as [[r | e |] s1]
  end.
  - destruct Htry as [Hr _]. injection Hfailed as -> _. contradiction.
  - destruct Htry as [[more Hmore] Hrec].
    unfold bind at 1 in Hfailed. cbn [modify] in Hfailed.
    unfold bind at 1 in Hfailed.
    destruct (Parser.synchronize _) as [[[] | e' |] s2] eqn:Hsync;
      try discriminate Hfailed.
    cbn [ret] in Hfailed. injection Hfailed as <-.
    apply synchronize_result in Hsync. destruct Hsync as (_ & Herrors & _).
    exists more, e. split.
    + rewrite Herrors. cbn [Parser.errors Parser.errors_append].
      rewrite Hmore. symmetry. apply app_assoc.
    + intros message He. rewrite <- Hmore. apply (Hrec message He).
  - discriminate Hfailed.
Qed.

(** * Further statements at concrete programs *)

Section EvaluatorAtWork.
Import Ast Interp.

(** X10 at [false && missing]: the left operand is false, and the
    undefined name on the right is still looked up. *)
Lemma a_false_conjunction_runs_its_right_side :
  accept bare_host 2
    (BinaryExpression (Literal (CBool false) "boolean") "&&"
       (Identifier "missing")) (Interpreter tt)
  = (Raise (RuntimeError "Undefined variable 'missing'"), Interpreter tt).
Proof.
  apply (proj1 (both_operands_are_always_evaluated bare_host 1
                  (Literal (CBool false) "boolean") (Identifier "missing")
                  "&&" (Interpreter tt) (Interpreter tt) (Interpreter tt)
                  (VBool false) eq_refl)).
  reflexivity.
Defined.

(** X12 at the list [[10, 20]]: index 1 reads 20, index -1 is out of
    bounds. *)
Lemma indexing_a_list_of_two :
  let st := Interpreter tt in
  let array := ArrayExpression [int_literal 10; int_literal 20] in
  let st1 := snd (accept bare_host 3 array st) in
  accept bare_host 4 (IndexExpression array (int_literal 1)) st
  = (Ok (VInt 20), st1)
  /\ accept bare_host 4
       (IndexExpression array (UnaryExpression "-" (int_literal 1))) st
     = (Raise (RuntimeError "Array index out of bounds"), st1).
Proof.
  intros st array st1.
  assert (Harray : accept bare_host 3 array st = (Ok (VList 1), st1))
    by (vm_compute; reflexivity).
  assert (Hlists : lists st1 !! 1 = Some [VInt 10; VInt 20])
    by (vm_compute; reflexivity).
  split.
  - assert (Hindex : accept bare_host 3 (int_literal 1) st1 = (Ok (VInt 1), st1))
      by reflexivity.
    destruct (proj2 (indexing_checks_list_integer_and_bounds bare_host 3
                       array (int_literal 1) st st1 st1 (VList 1) (VInt 1)
                       Harray Hindex)
                1 [VInt 10; VInt 20] eq_refl Hlists) as (_ & _ & Hin).
    destruct (Hin 1%Z eq_refl) as (x & Hx & Hresult); [ simpl; lia | ].
    simpl in Hx. injection Hx as <-. exact Hresult.
  - assert (Hindex : accept bare_host 3 (UnaryExpression "-" (int_literal 1)) st1
                     = (Ok (VInt (-1)), st1))
      by reflexivity.
    destruct (proj2 (indexing_checks_list_integer_and_bounds bare_host 3
                       array (UnaryExpression "-" (int_literal 1))
                       st st1 st1 (VList 1) (VInt (-1))
                       Harray Hindex)
                1 [VInt 10; VInt 20] eq_refl Hlists) as (_ & Hout & _).
    apply (Hout (-1)%Z eq_refl). left. lia.
Defined.

(** X13 at [f(1, 2)], with [fn f(a, b) { return a; }] declared: the call
    evaluates to 1, and in its frame [b] is bound to 2. *)
Lemma calling_f_with_two_arguments :
  fst (accept bare_host 4
         (CallExpression (Identifier "f") [int_literal 1; int_literal 2])
         with_f)
  = Ok (VInt 1)
  /\ call_bindings [mkParameter "a" None; mkParameter "b" None]
       [VInt 1; VInt 2] !! "b"
     = Some (VInt 2).
Proof.
  assert (Hf : accept bare_host 3 (Identifier "f") with_f
               = (Ok (VFunction 1
                        (FunctionDeclaration "f"
                           [mkParameter "a" None; mkParameter "b" None] None
                           (BlockStatement
                              [ReturnStatement (Some (Identifier "a"))]))
                        0), with_f))
    by (vm_compute; reflexivity).
  assert (Hargs : evaluate_all (accept bare_host 3)
                    [int_literal 1; int_literal 2] with_f
                  = (Ok [VInt 1; VInt 2], with_f))
    by reflexivity.
  destruct (a_call_binds_its_arguments_and_ends_the_return bare_host 3
              (Identifier "f") [int_literal 1; int_literal 2]
              with_f with_f with_f [VInt 1; VInt 2] 1 0 "f"
              [mkParameter "a" None; mkParameter "b" None] None
              [ReturnStatement (Some (Identifier "a"))]
              Hf Hargs eq_refl) as (Hcall & _ & Hbind).
  split.
  - rewrite Hcall. vm_compute. reflexivity.
  - assert (Hnames : NoDup (map param_name
                              [mkParameter "a" None; mkParameter "b" None])).
    { cbn. apply NoDup_cons_2; [ | apply NoDup_singleton ].
      rewrite list_elem_of_singleton. discriminate. }
    apply (Hbind Hnames 1 (mkParameter "b" None) (VInt 2) eq_refl eq_refl).
Defined.

End EvaluatorAtWork.

Section ParserAtWork.
Import Lexer Ast.

(** X14 at [x;] and at [x] alone. *)
Lemma an_expression_with_and_without_its_semicolon :
  let x := mkToken IDENTIFIER "x" 1 1 in
  let p := Parser.Parser [x; mkToken SEMICOLON ";" 1 2; mkToken EOF "" 1 3] in
  let q := Parser.Parser [x; mkToken EOF "" 1 2] in
  Parser.expression_statement (Parser.methods 20) p
  = (Ok (Identifier "x"), Parser.set_current 2 p)
  /\ Parser.expression_statement (Parser.methods 20) q
     = (Raise (Parser.SyntaxError
                 "Error at line 1, column 2: Expected ';' or newline after expression"),
        Parser.errors_append
          "Error at line 1, column 2: Expected ';' or newline after expression"
          (Parser.set_current 1 q)).
Proof.
  intros x p q. split.
  - apply (proj1 (only_a_semicolon_ends_an_expression_statement
                    (Parser.methods 20) p (Parser.set_current 1 p)
                    (Identifier "x") (mkToken SEMICOLON ";" 1 2)
                    eq_refl eq_refl)).
    reflexivity.
  - apply (proj2 (only_a_semicolon_ends_an_expression_statement
                    (Parser.methods 20) q (Parser.set_current 1 q)
                    (Identifier "x") (mkToken EOF "" 1 2)
                    eq_refl eq_refl)); discriminate.
Defined.

(** X15 at [let y = 2; z = 3;], after the keyword: the declaration ends
    at the second [=], with [z] skipped. *)
Lemma the_name_after_a_declaration_is_skipped :
  let toks :=
    [ mkToken LET "let" 1 1; mkToken IDENTIFIER "y" 1 5;
      mkToken ASSIGN "=" 1 7; mkToken INT "2" 1 9;
      mkToken SEMICOLON ";" 1 10; mkToken IDENTIFIER "z" 1 12;
      mkToken ASSIGN "=" 1 14; mkToken INT "3" 1 16;
      mkToken SEMICOLON ";" 1 17; mkToken EOF "" 1 18 ] in
  lex "let y = 2; z = 3;" = Ok toks
  /\ Parser.variable_declaration (Parser.methods 20)
       (Parser.set_current 1 (Parser.Parser toks))
     = (Ok (VariableDeclaration "y" None (Some (Literal (CInt 2) "int"))),
        Parser.set_current 6 (Parser.Parser toks)).
Proof.
  intros toks. split; [ reflexivity | ].
  apply (a_declaration_consumes_the_token_after_its_semicolon
           (Parser.methods 20)
           (Parser.set_current 1 (Parser.Parser toks))
           (Parser.set_current 4 (Parser.Parser toks))
           (Literal (CInt 2) "int")
           (mkToken IDENTIFIER "y" 1 5) (mkToken ASSIGN "=" 1 7)
           (mkToken SEMICOLON ";" 1 10) (mkToken IDENTIFIER "z" 1 12)
           eq_refl eq_refl eq_refl eq_refl eq_refl eq_refl eq_refl eq_refl).
Defined.

(** X16 at [1 2 let x = 3;], from the start: recovery stops at [let]. *)
Lemma recovery_stops_at_let :
  let toks :=
    [ mkToken INT "1" 1 1; mkToken INT "2" 1 3; mkToken LET "let" 1 5;
      mkToken IDENTIFIER "x" 1 9; mkToken ASSIGN "=" 1 11;
      mkToken INT "3" 1 13; mkToken SEMICOLON ";" 1 14;
      mkToken EOF "" 1 15 ] in
  Parser.synchronize (Parser.Parser toks)
  = (Ok tt, Parser.set_current 2 (Parser.Parser toks))
  /\ exists p',
       Parser.synchronize (Parser.Parser toks) = (Ok tt, p')
       /\ Parser.tokens p' = toks
       /\ Parser.errors p' = []
       /\ 0 <= Parser.current p' <= 7
       /\ resumption_point p'.
Proof.
  intros toks. split; [ reflexivity | ].
  apply (synchronize_stops_at_a_resumption_point (Parser.Parser toks) 7
           (mkToken EOF "" 1 15)); [ simpl; lia | reflexivity | reflexivity ].
Defined.


(** X18 at [a + b * c] and [a * b + c]. *)
Lemma a_plus_b_times_c :
  let a := mkToken IDENTIFIER "a" 1 1 in
  let b := mkToken IDENTIFIER "b" 1 5 in
  let c := mkToken IDENTIFIER "c" 1 9 in
  let plus o := mkToken PLUS "+" 1 o in
  let times o := mkToken MULTIPLY "*" 1 o in
  let eof := mkToken EOF "" 1 10 in
  parse_expression_tokens [a; plus 3; b; times 7; c; eof]
  = Ok (BinaryExpression (Identifier "a") "+"
          (BinaryExpression (Identifier "b") "*" (Identifier "c")))
  /\ parse_expression_tokens [a; times 3; b; plus 7; c; eof]
     = Ok (BinaryExpression
             (BinaryExpression (Identifier "a") "*" (Identifier "b"))
             "+" (Identifier "c")).
Proof.
  intros a b c plus times eof. split.
  - apply (binary_operators_climb_by_level a (plus 3) b (times 7) c eof 5 6);
      reflexivity.
  - apply (binary_operators_climb_by_level a (times 3) b (plus 7) c eof 6 5);
      reflexivity.
Defined.


(** X23 at the tokens of [1 +], an expression that lacks its right
    operand. *)
Lemma a_dangling_operator_still_parses :
  let toks := [ mkToken INT "1" 1 1; mkToken PLUS "+" 1 3;
                mkToken EOF "" 1 4 ] in
  exists statements p',
    Parser.parse (Parser.depth_for toks) (Parser.Parser toks)
    = (Ok (Program statements), p')
    /\ Parser.tokens p' = toks
    /\ Parser.current p' = 2.
Proof.
  apply (parsing_always_returns_a_program
           [mkToken INT "1" 1 1; mkToken PLUS "+" 1 3] (mkToken EOF "" 1 4)
           eq_refl).
  repeat (apply List.Forall_cons; [ discriminate | ]). apply List.Forall_nil.
Defined.

(** X25 at the tokens of a lone [+]. *)
Lemma a_lone_operator_is_recorded_twice :
  let p := Parser.Parser [mkToken PLUS "+" 1 1; mkToken EOF "" 1 2] in
  let p' := snd (Parser.declaration (Parser.methods 20) p) in
  Parser.errors p'
  = [ "Error at line 1, column 1: Expected expression";
      "Error parsing declaration: Error at line 1, column 1: Expected expression" ]
  /\ exists earlier e,
       Parser.errors p'
       = Parser.errors p ++ earlier
           ++ [("Error parsing declaration: " ++ Parser.str_exn e)%string]
       /\ forall message,
            e = Parser.SyntaxError message ->
            last (Parser.errors p ++ earlier) = Some message.
Proof.
  intros p p'. split; [ vm_compute; reflexivity | ].
  apply (a_failed_declaration_is_recorded_twice 20 p p').
  vm_compute. reflexivity.
Defined.

End ParserAtWork.
